(** * X402InsuranceV8: pool accounting and settlement engine

    A shallow embedding of the Solidity contract [X402InsuranceV8]
    (proportional payout with delayed compensation) and proofs about its
    accounting.

    Modelling conventions
    - [uint256] values are integers in [Z]; Solidity 0.8 checked arithmetic
      is written out: [+], [-], [*] and [++] revert with a panic when the
      result leaves [0 .. 2^256-1].
    - [address] and [bytes32] are integers.
    - A [mapping] is a finite map read with the total lookup [!!!], whose
      default is the all-zero record, as in the EVM.
    - A transaction either returns the new contract state or reverts; a
      revert leaves no trace, so every external function has type
      [State -> result State].
    - The ERC-20 token is an interface ([IERC20]); the contract only sees
      [transferFrom(msg.sender, address(this), amount)] and
      [transfer(to, amount)].
    - The token cannot call back into the contract, so [nonReentrant] has
      nothing to reject and is left out; [onlyOwner] compares [msg.sender]
      with the owner set by the constructor.
    - Events are not part of the state and are left out, as are the
      counters that only feed events ([validCount], [claimsProcessed],
      [totalCompensated]). *)

From stdpp Require Import gmap list strings.
From Equations Require Import Equations.

Open Scope Z_scope.

(** ** Machine integers and reverts *)

Abbreviation address := Z.
Abbreviation bytes32 := Z.

Definition MAX_UINT256 : Z := 2 ^ 256 - 1.

Definition is_uint256 (x : Z) : Prop := 0 <= x <= MAX_UINT256.

Inductive revert_reason : Type :=
| Require_failed (msg : string)
| Panic_arithmetic
| OwnableUnauthorizedAccount.

Inductive result (A : Type) : Type :=
| Ok (a : A)
| Revert (r : revert_reason).

Arguments Ok {A} a.
Arguments Revert {A} r.

Definition bind {A B : Type} (m : result A) (k : A -> result B) : result B :=
  match m with
  | Ok a => k a
  | Revert r => Revert r
  end.

Notation "'let*' x ':=' m 'in' k" := (bind m (fun x => k))
  (at level 10, x name, m at level 100, k at level 200).
Notation "'let*' ' p ':=' m 'in' k" := (bind m (fun x => match x with p => k end))
  (at level 10, p pattern, m at level 100, k at level 200).
Notation "'check' m 'in' k" := (bind m (fun _ : unit => k))
  (at level 10, m at level 100, k at level 200).

Definition require (b : bool) (msg : string) : result unit :=
  if b then Ok tt else Revert (Require_failed msg).

Definition checked_add (a b : Z) : result Z :=
  if a + b <=? MAX_UINT256 then Ok (a + b) else Revert Panic_arithmetic.

Definition checked_sub (a b : Z) : result Z :=
  if b <=? a then Ok (a - b) else Revert Panic_arithmetic.

Definition checked_mul (a b : Z) : result Z :=
  if a * b <=? MAX_UINT256 then Ok (a * b) else Revert Panic_arithmetic.

Definition checked_div (a b : Z) : result Z :=
  if b =? 0 then Revert Panic_arithmetic else Ok (a / b).

(** ** Constants *)

Definition MIN_POOL_BALANCE : Z := 10 * 10 ^ 6.
Definition MAX_POOL_BALANCE : Z := 1000000 * 10 ^ 6.
Definition MIN_CLAIM_AMOUNT : Z := 1 * 10 ^ 5.
Definition MAX_CLAIM_AMOUNT : Z := 10000 * 10 ^ 6.
Definition PENALTY_RATE : Z := 1000.
Definition PLATFORM_FEE_RATE : Z := 100.
Definition MAX_EXPOSURE_RATIO : Z := 8000.

(** ** Data model

    Fields keep their Solidity names, except the [client] of a
    [PendingCompensation], which is [comp_client].  Function parameters
    that share their name with a field are shortened: [amt] for [amount],
    [cid] for [commitment], [prov] for [provider], [why] for [reason]. *)

Inductive ClaimStatus : Type := INITIATED | DISPUTED | EXECUTED | REJECTED | PARTIAL.
Inductive ClaimReason : Type := NOT_DELIVERED | SERVICE_TIMEOUT | PARTIAL_DELIVERY.

Record ProviderData : Type := mkProviderData {
  isActive : bool;
  poolBalance : Z;
  totalLocked : Z;
  successfulServices : Z;
  failedServices : Z;
  tier : Z;
  registeredAt : Z
}.

Record ClaimInfo : Type := mkClaimInfo {
  client : address;
  provider : address;
  requestedAmount : Z;
  paidAmount : Z;
  pendingAmount : Z;
  initiatedAt : Z;
  disputeDeadline : Z;
  reason : ClaimReason;
  status : ClaimStatus
}.

Record PendingCompensation : Type := mkPendingCompensation {
  commitment : bytes32;
  comp_client : address;
  amount : Z;
  createdAt : Z;
  isPaid : bool
}.

#[global] Instance ProviderData_inhabited : Inhabited ProviderData :=
  populate (mkProviderData false 0 0 0 0 0 0).
#[global] Instance ClaimInfo_inhabited : Inhabited ClaimInfo :=
  populate (mkClaimInfo 0 0 0 0 0 0 0 NOT_DELIVERED INITIATED).
#[global] Instance PendingCompensation_inhabited : Inhabited PendingCompensation :=
  populate (mkPendingCompensation 0 0 0 0 false).

Definition set_isActive (v : bool) (p : ProviderData) : ProviderData :=
  mkProviderData v (poolBalance p) (totalLocked p) (successfulServices p)
    (failedServices p) (tier p) (registeredAt p).
Definition set_poolBalance (v : Z) (p : ProviderData) : ProviderData :=
  mkProviderData (isActive p) v (totalLocked p) (successfulServices p)
    (failedServices p) (tier p) (registeredAt p).
Definition set_totalLocked (v : Z) (p : ProviderData) : ProviderData :=
  mkProviderData (isActive p) (poolBalance p) v (successfulServices p)
    (failedServices p) (tier p) (registeredAt p).
Definition set_successfulServices (v : Z) (p : ProviderData) : ProviderData :=
  mkProviderData (isActive p) (poolBalance p) (totalLocked p) v
    (failedServices p) (tier p) (registeredAt p).
Definition set_tier (v : Z) (p : ProviderData) : ProviderData :=
  mkProviderData (isActive p) (poolBalance p) (totalLocked p) (successfulServices p)
    (failedServices p) v (registeredAt p).
Definition set_registeredAt (v : Z) (p : ProviderData) : ProviderData :=
  mkProviderData (isActive p) (poolBalance p) (totalLocked p) (successfulServices p)
    (failedServices p) (tier p) v.

Definition set_paidAmount (v : Z) (c : ClaimInfo) : ClaimInfo :=
  mkClaimInfo (client c) (provider c) (requestedAmount c) v (pendingAmount c)
    (initiatedAt c) (disputeDeadline c) (reason c) (status c).
Definition set_pendingAmount (v : Z) (c : ClaimInfo) : ClaimInfo :=
  mkClaimInfo (client c) (provider c) (requestedAmount c) (paidAmount c) v
    (initiatedAt c) (disputeDeadline c) (reason c) (status c).
Definition set_status (v : ClaimStatus) (c : ClaimInfo) : ClaimInfo :=
  mkClaimInfo (client c) (provider c) (requestedAmount c) (paidAmount c) (pendingAmount c)
    (initiatedAt c) (disputeDeadline c) (reason c) v.

Definition set_amount (v : Z) (c : PendingCompensation) : PendingCompensation :=
  mkPendingCompensation (commitment c) (comp_client c) v (createdAt c) (isPaid c).
Definition set_isPaid (v : bool) (c : PendingCompensation) : PendingCompensation :=
  mkPendingCompensation (commitment c) (comp_client c) (amount c) (createdAt c) v.

(** The token as the contract sees it.  [transferFrom from amt] is
    [usdcToken.transferFrom(from, address(this), amt)] and [transfer to amt]
    is [usdcToken.transfer(to, amt)]; [None] stands for a call that returned
    [false] or reverted, both of which abort the transaction. *)
Class IERC20 (L : Type) : Type := {
  transferFrom : address -> Z -> L -> option L;
  transfer : address -> Z -> L -> option L
}.

(** Contract storage.  [usdcToken] holds the state of the token ledger,
    [owner] the owner fixed by the constructor. *)
Record State (L : Type) : Type := mkState {
  providers : gmap Z ProviderData;
  claims : gmap Z ClaimInfo;
  providerPendingCompensations : gmap Z (list Z);
  pendingCompensations : gmap Z PendingCompensation;
  totalProviderPools : Z;
  emergencyPool : Z;
  platformInsuranceFund : Z;
  totalClaimsInitiated : Z;
  totalClaimsExecuted : Z;
  totalPendingCompensations : Z;
  usdcToken : L;
  owner : address
}.

Arguments mkState {L}.
Arguments providers {L} _.
Arguments claims {L} _.
Arguments providerPendingCompensations {L} _.
Arguments pendingCompensations {L} _.
Arguments totalProviderPools {L} _.
Arguments emergencyPool {L} _.
Arguments platformInsuranceFund {L} _.
Arguments totalClaimsInitiated {L} _.
Arguments totalClaimsExecuted {L} _.
Arguments totalPendingCompensations {L} _.
Arguments usdcToken {L} _.
Arguments owner {L} _.

(** The transaction context: [msg.sender] and [block.timestamp]. *)
Record Msg : Type := mkMsg {
  msg_sender : address;
  block_timestamp : Z
}.

Section Contract.
Context {L : Type} {token : IERC20 L}.

Definition set_providers (v : gmap Z ProviderData) (st : State L) : State L :=
  mkState v (claims st) (providerPendingCompensations st) (pendingCompensations st)
    (totalProviderPools st) (emergencyPool st) (platformInsuranceFund st)
    (totalClaimsInitiated st) (totalClaimsExecuted st) (totalPendingCompensations st)
    (usdcToken st) (owner st).
Definition set_claims (v : gmap Z ClaimInfo) (st : State L) : State L :=
  mkState (providers st) v (providerPendingCompensations st) (pendingCompensations st)
    (totalProviderPools st) (emergencyPool st) (platformInsuranceFund st)
    (totalClaimsInitiated st) (totalClaimsExecuted st) (totalPendingCompensations st)
    (usdcToken st) (owner st).
Definition set_providerPendingCompensations (v : gmap Z (list Z)) (st : State L) : State L :=
  mkState (providers st) (claims st) v (pendingCompensations st)
    (totalProviderPools st) (emergencyPool st) (platformInsuranceFund st)
    (totalClaimsInitiated st) (totalClaimsExecuted st) (totalPendingCompensations st)
    (usdcToken st) (owner st).
Definition set_pendingCompensations (v : gmap Z PendingCompensation) (st : State L) : State L :=
  mkState (providers st) (claims st) (providerPendingCompensations st) v
    (totalProviderPools st) (emergencyPool st) (platformInsuranceFund st)
    (totalClaimsInitiated st) (totalClaimsExecuted st) (totalPendingCompensations st)
    (usdcToken st) (owner st).
Definition set_totalProviderPools (v : Z) (st : State L) : State L :=
  mkState (providers st) (claims st) (providerPendingCompensations st) (pendingCompensations st)
    v (emergencyPool st) (platformInsuranceFund st)
    (totalClaimsInitiated st) (totalClaimsExecuted st) (totalPendingCompensations st)
    (usdcToken st) (owner st).
Definition set_emergencyPool (v : Z) (st : State L) : State L :=
  mkState (providers st) (claims st) (providerPendingCompensations st) (pendingCompensations st)
    (totalProviderPools st) v (platformInsuranceFund st)
    (totalClaimsInitiated st) (totalClaimsExecuted st) (totalPendingCompensations st)
    (usdcToken st) (owner st).
Definition set_platformInsuranceFund (v : Z) (st : State L) : State L :=
  mkState (providers st) (claims st) (providerPendingCompensations st) (pendingCompensations st)
    (totalProviderPools st) (emergencyPool st) v
    (totalClaimsInitiated st) (totalClaimsExecuted st) (totalPendingCompensations st)
    (usdcToken st) (owner st).
Definition set_totalClaimsInitiated (v : Z) (st : State L) : State L :=
  mkState (providers st) (claims st) (providerPendingCompensations st) (pendingCompensations st)
    (totalProviderPools st) (emergencyPool st) (platformInsuranceFund st)
    v (totalClaimsExecuted st) (totalPendingCompensations st)
    (usdcToken st) (owner st).
Definition set_totalClaimsExecuted (v : Z) (st : State L) : State L :=
  mkState (providers st) (claims st) (providerPendingCompensations st) (pendingCompensations st)
    (totalProviderPools st) (emergencyPool st) (platformInsuranceFund st)
    (totalClaimsInitiated st) v (totalPendingCompensations st)
    (usdcToken st) (owner st).
Definition set_totalPendingCompensations (v : Z) (st : State L) : State L :=
  mkState (providers st) (claims st) (providerPendingCompensations st) (pendingCompensations st)
    (totalProviderPools st) (emergencyPool st) (platformInsuranceFund st)
    (totalClaimsInitiated st) (totalClaimsExecuted st) v
    (usdcToken st) (owner st).
Definition set_usdcToken (v : L) (st : State L) : State L :=
  mkState (providers st) (claims st) (providerPendingCompensations st) (pendingCompensations st)
    (totalProviderPools st) (emergencyPool st) (platformInsuranceFund st)
    (totalClaimsInitiated st) (totalClaimsExecuted st) (totalPendingCompensations st)
    v (owner st).

(** [require(usdcToken.transfer...(...), msg)] *)
Definition require_token (r : option L) (msg : string) : result L :=
  match r with
  | Some l => Ok l
  | None => Revert (Require_failed msg)
  end.

(** The state left by [constructor(_usdcToken, _owner)]. *)
Definition initial_state (tok : L) (_owner : address) : State L :=
  mkState ∅ ∅ ∅ ∅ 0 0 0 0 0 0 tok _owner.

(** ** Amount and policy helpers *)

(** [(x * rate) / 10000] *)
Definition bps (x rate : Z) : result Z :=
  let* y := checked_mul x rate in Ok (y / 10000).

(** [x + (x * PENALTY_RATE) / 10000 + (x * PLATFORM_FEE_RATE) / 10000] *)
Definition required_for (x : Z) : result Z :=
  let* penaltyAmount := bps x PENALTY_RATE in
  let* platformFee := bps x PLATFORM_FEE_RATE in
  let* s := checked_add x penaltyAmount in
  checked_add s platformFee.

Definition _getDisputePeriod (amt : Z) : Z :=
  if amt <=? 10 * 10 ^ 6 then 60
  else if amt <=? 100 * 10 ^ 6 then 300
  else if amt <=? 1000 * 10 ^ 6 then 900
  else 1800.

(** [poolBalance > totalLocked ? poolBalance - totalLocked : 0] *)
Definition available_of (p : ProviderData) : Z :=
  if totalLocked p <? poolBalance p then poolBalance p - totalLocked p else 0.

(** ** Compensation functions *)

Definition _recordPendingCompensation (now : Z) (cid : bytes32) (cl prov : address)
    (amt : Z) (st : State L) : result (State L) :=
  let st1 := set_pendingCompensations
    (<[cid := mkPendingCompensation cid cl amt now false]> (pendingCompensations st)) st in
  let st2 := set_providerPendingCompensations
    (<[prov := (providerPendingCompensations st1 !!! prov) ++ [cid]]>
       (providerPendingCompensations st1)) st1 in
  let* total := checked_add (totalPendingCompensations st2) amt in
  Ok (set_totalPendingCompensations total st2).

(** [!comp.isPaid && comp.amount > 0] *)
Definition unsettled (comp : PendingCompensation) : bool :=
  negb (isPaid comp) && (0 <? amount comp).

(** First loop of [_processProportionalCompensations]: the total still owed. *)
Fixpoint sum_pending (pcs : gmap Z PendingCompensation) (commitments : list Z)
    (totalPending : Z) : result Z :=
  match commitments with
  | [] => Ok totalPending
  | cid :: rest =>
      let comp := pcs !!! cid in
      if unsettled comp then
        let* t := checked_add totalPending (amount comp) in
        sum_pending pcs rest t
      else sum_pending pcs rest totalPending
  end.

(** Body of the second loop, for the entry [cid]. *)
Definition pay_entry (prov : address) (availableFunds totalPending : Z) (cid : bytes32)
    (st : State L) : result (State L) :=
  let comp := pendingCompensations st !!! cid in
  let claim := claims st !!! cid in
  if unsettled comp then
    let* x := checked_mul availableFunds (amount comp) in
    let* q := checked_div x totalPending in
    let proportionalPayment := if amount comp <? q then amount comp else q in
    if 0 <? proportionalPayment then
      let* newAmount := checked_sub (amount comp) proportionalPayment in
      let comp1 := set_amount newAmount comp in
      let comp2 := if newAmount =? 0 then set_isPaid true comp1 else comp1 in
      let* paid := checked_add (paidAmount claim) proportionalPayment in
      let* pending := checked_sub (pendingAmount claim) proportionalPayment in
      let claim' := set_pendingAmount pending (set_paidAmount paid claim) in
      let providerData := providers st !!! prov in
      let* pool := checked_sub (poolBalance providerData) proportionalPayment in
      let* pools := checked_sub (totalProviderPools st) proportionalPayment in
      let* tok := require_token (transfer (client claim) proportionalPayment (usdcToken st))
                    "Compensation transfer failed" in
      let* total := checked_sub (totalPendingCompensations st) proportionalPayment in
      Ok (set_totalPendingCompensations total
         (set_usdcToken tok
         (set_totalProviderPools pools
         (set_providers (<[prov := set_poolBalance pool providerData]> (providers st))
         (set_claims (<[cid := claim']> (claims st))
         (set_pendingCompensations (<[cid := comp2]> (pendingCompensations st)) st))))))
    else Ok st
  else Ok st.

(** Second loop: pay every unsettled entry its share. *)
Fixpoint pay_loop (prov : address) (availableFunds totalPending : Z) (commitments : list Z)
    (st : State L) : result (State L) :=
  match commitments with
  | [] => Ok st
  | cid :: rest =>
      let* st' := pay_entry prov availableFunds totalPending cid st in
      pay_loop prov availableFunds totalPending rest st'
  end.

(** Third loop: in-place compaction.  [n] counts the iterations left,
    [i] is the read index and [writeIndex] the write index. *)
Fixpoint compact_loop (pcs : gmap Z PendingCompensation) (n i writeIndex : nat)
    (commitments : list Z) : list Z * nat :=
  match n with
  | O => (commitments, writeIndex)
  | S n' =>
      let cid := commitments !!! i in
      if negb (isPaid (pcs !!! cid)) then
        let commitments' :=
          if Nat.eqb i writeIndex then commitments else <[writeIndex := cid]> commitments in
        compact_loop pcs n' (S i) (S writeIndex) commitments'
      else compact_loop pcs n' (S i) writeIndex commitments
  end.

(** The compaction loop followed by [while (length > writeIndex) pop()]. *)
Definition compact (pcs : gmap Z PendingCompensation) (commitments : list Z) : list Z :=
  let '(commitments', writeIndex) :=
    compact_loop pcs (length commitments) 0 0 commitments in
  take writeIndex commitments'.

Definition _processProportionalCompensations (prov : address) (st : State L)
    : result (State L) :=
  let commitments := providerPendingCompensations st !!! prov in
  if Nat.eqb (length commitments) 0 then Ok st else
  let providerData := providers st !!! prov in
  let availableFunds := available_of providerData in
  if availableFunds =? 0 then Ok st else
  let* totalPending := sum_pending (pendingCompensations st) commitments 0 in
  if totalPending =? 0 then Ok st else
  let* st1 := pay_loop prov availableFunds totalPending commitments st in
  Ok (set_providerPendingCompensations
        (<[prov := compact (pendingCompensations st1) commitments]>
           (providerPendingCompensations st1)) st1).

(** ** Provider functions *)

Definition registerOrReactivate (m : Msg) (amt : Z) (st : State L) : result (State L) :=
  check require (MIN_POOL_BALANCE <=? amt) "Insufficient initial deposit" in
  check require (amt <=? MAX_POOL_BALANCE) "Exceeds maximum pool balance" in
  let p0 := providers st !!! msg_sender m in
  let p1 := if registeredAt p0 =? 0
            then set_registeredAt (block_timestamp m) (set_tier 1 p0) else p0 in
  let* tok := require_token (transferFrom (msg_sender m) amt (usdcToken st))
                "Transfer failed" in
  let* pool := checked_add (poolBalance p1) amt in
  let* pools := checked_add (totalProviderPools st) amt in
  let p2 := set_poolBalance pool (set_isActive true p1) in
  let st1 := set_totalProviderPools pools
             (set_providers (<[msg_sender m := p2]> (providers st))
             (set_usdcToken tok st)) in
  if Nat.ltb 0 (length (providerPendingCompensations st1 !!! msg_sender m))
  then _processProportionalCompensations (msg_sender m) st1
  else Ok st1.

Definition depositAdditional (m : Msg) (amt : Z) (st : State L) : result (State L) :=
  let p0 := providers st !!! msg_sender m in
  check require (isActive p0) "Provider not active" in
  let* newBalance := checked_add (poolBalance p0) amt in
  check require (newBalance <=? MAX_POOL_BALANCE) "Exceeds maximum" in
  let* tok := require_token (transferFrom (msg_sender m) amt (usdcToken st))
                "Transfer failed" in
  let* pools := checked_add (totalProviderPools st) amt in
  let st1 := set_totalProviderPools pools
             (set_providers (<[msg_sender m := set_poolBalance newBalance p0]> (providers st))
             (set_usdcToken tok st)) in
  if Nat.ltb 0 (length (providerPendingCompensations st1 !!! msg_sender m))
  then _processProportionalCompensations (msg_sender m) st1
  else Ok st1.

Definition withdraw (m : Msg) (amt : Z) (st : State L) : result (State L) :=
  let p0 := providers st !!! msg_sender m in
  check require (isActive p0) "Provider not active" in
  let available := available_of p0 in
  check require (amt <=? available) "Insufficient available balance" in
  let* rest := checked_sub (poolBalance p0) amt in
  check require (MIN_POOL_BALANCE <=? rest) "Below minimum balance" in
  let* pools := checked_sub (totalProviderPools st) amt in
  let* tok := require_token (transfer (msg_sender m) amt (usdcToken st)) "Transfer failed" in
  Ok (set_usdcToken tok
     (set_totalProviderPools pools
     (set_providers (<[msg_sender m := set_poolBalance rest p0]> (providers st)) st))).

Definition withdrawAllAndDeactivate (m : Msg) (st : State L) : result (State L) :=
  let p0 := providers st !!! msg_sender m in
  check require (isActive p0) "Provider not active" in
  check require (totalLocked p0 =? 0) "Has active claims" in
  let amt := poolBalance p0 in
  let* pools := checked_sub (totalProviderPools st) amt in
  let st1 := set_totalProviderPools pools
             (set_providers (<[msg_sender m := set_poolBalance 0 (set_isActive false p0)]>
                               (providers st)) st) in
  if 0 <? amt then
    let* tok := require_token (transfer (msg_sender m) amt (usdcToken st1)) "Transfer failed" in
    Ok (set_usdcToken tok st1)
  else Ok st1.

(** ** Claim functions *)

Definition initiateClaim (m : Msg) (cid : bytes32) (prov : address) (amt : Z)
    (why : ClaimReason) (st : State L) : result (State L) :=
  check require ((MIN_CLAIM_AMOUNT <=? amt) && (amt <=? MAX_CLAIM_AMOUNT)) "Invalid amount" in
  check require (initiatedAt (claims st !!! cid) =? 0) "Claim already exists" in
  check require (isActive (providers st !!! prov)) "Provider not active" in
  let* totalRequired := required_for amt in
  let providerData := providers st !!! prov in
  let providerAvailable := available_of providerData in
  let* a1 := checked_add providerAvailable (emergencyPool st) in
  let* totalAvailable := checked_add a1 (platformInsuranceFund st) in
  let* '(actualPaidAmount, pending, claimStatus, st1) :=
    if amt <=? totalAvailable then Ok (amt, 0, INITIATED, st)
    else if 0 <? totalAvailable then
      let* pending := checked_sub amt totalAvailable in
      let* st1 := _recordPendingCompensation (block_timestamp m) cid (msg_sender m) prov
                    pending st in
      Ok (totalAvailable, pending, PARTIAL, st1)
    else
      let* st1 := _recordPendingCompensation (block_timestamp m) cid (msg_sender m) prov
                    amt st in
      Ok (0, amt, PARTIAL, st1) in
  let* st2 :=
    if 0 <? actualPaidAmount then
      let* actualTotalRequired := required_for actualPaidAmount in
      let fromProvider := if actualTotalRequired <=? providerAvailable
                          then actualTotalRequired else providerAvailable in
      let* locked := checked_add (totalLocked providerData) fromProvider in
      Ok (set_providers (<[prov := set_totalLocked locked providerData]> (providers st1)) st1)
    else Ok st1 in
  let* deadline := checked_add (block_timestamp m) (_getDisputePeriod amt) in
  let claim := mkClaimInfo (msg_sender m) prov amt actualPaidAmount pending
                 (block_timestamp m) deadline why claimStatus in
  let* n := checked_add (totalClaimsInitiated st2) 1 in
  Ok (set_totalClaimsInitiated n (set_claims (<[cid := claim]> (claims st2)) st2)).

(** [status == INITIATED || status == PARTIAL] *)
Definition is_open (s : ClaimStatus) : bool :=
  match s with
  | INITIATED | PARTIAL => true
  | _ => false
  end.

Definition executeClaim (m : Msg) (cid : bytes32) (st : State L) : result (State L) :=
  let claim := claims st !!! cid in
  check require (0 <? initiatedAt claim) "Claim not found" in
  check require (is_open (status claim)) "Invalid claim status" in
  check require (disputeDeadline claim <? block_timestamp m) "Still in dispute period" in
  let prov := provider claim in
  let actualPaidAmount := paidAmount claim in
  let* st1 :=
    if 0 <? actualPaidAmount then
      let providerData := providers st !!! prov in
      let* penaltyAmount := bps actualPaidAmount PENALTY_RATE in
      let* platformFee := bps actualPaidAmount PLATFORM_FEE_RATE in
      let* s := checked_add actualPaidAmount penaltyAmount in
      let* totalRequired := checked_add s platformFee in
      let fromProvider := if totalRequired <=? poolBalance providerData
                          then totalRequired else poolBalance providerData in
      let* st_a :=
        if 0 <? fromProvider then
          let* pool := checked_sub (poolBalance providerData) fromProvider in
          let* locked := checked_sub (totalLocked providerData)
                           (if fromProvider <=? totalLocked providerData
                            then fromProvider else totalLocked providerData) in
          let* pools := checked_sub (totalProviderPools st) fromProvider in
          Ok (set_totalProviderPools pools
             (set_providers
                (<[prov := set_totalLocked locked (set_poolBalance pool providerData)]>
                   (providers st)) st))
        else Ok st in
      let* st_b :=
        if fromProvider <? totalRequired then
          let* fromEmergency := checked_sub totalRequired fromProvider in
          if fromEmergency <=? emergencyPool st_a then
            let* e := checked_sub (emergencyPool st_a) fromEmergency in
            Ok (set_emergencyPool e st_a)
          else
            let* fromPlatform := checked_sub fromEmergency (emergencyPool st_a) in
            let* f := checked_sub (platformInsuranceFund st_a) fromPlatform in
            Ok (set_platformInsuranceFund f (set_emergencyPool 0 st_a))
        else Ok st_a in
      let* e := checked_add (emergencyPool st_b) (penaltyAmount / 2) in
      let* h := checked_add (penaltyAmount / 2) platformFee in
      let* f := checked_add (platformInsuranceFund st_b) h in
      let* tok := require_token (transfer (client claim) actualPaidAmount (usdcToken st_b))
                    "Transfer failed" in
      Ok (set_usdcToken tok (set_platformInsuranceFund f (set_emergencyPool e st_b)))
    else Ok st in
  let* st2 :=
    if pendingAmount claim =? 0 then
      let providerData := providers st1 !!! prov in
      let* n := checked_add (successfulServices providerData) 1 in
      Ok (set_providers (<[prov := set_successfulServices n providerData]> (providers st1))
         (set_claims (<[cid := set_status EXECUTED claim]> (claims st1)) st1))
    else Ok (set_claims (<[cid := set_status PARTIAL claim]> (claims st1)) st1) in
  let* n := checked_add (totalClaimsExecuted st2) 1 in
  Ok (set_totalClaimsExecuted n st2).

Definition disputeClaim (m : Msg) (cid : bytes32) (evidence : string) (st : State L)
    : result (State L) :=
  let claim := claims st !!! cid in
  check require (0 <? initiatedAt claim) "Claim not found" in
  check require (provider claim =? msg_sender m) "Not the provider" in
  check require (is_open (status claim)) "Cannot dispute" in
  check require (block_timestamp m <=? disputeDeadline claim) "Dispute period ended" in
  let st1 := set_claims (<[cid := set_status DISPUTED claim]> (claims st)) st in
  if 0 <? paidAmount claim then
    let providerData := providers st1 !!! msg_sender m in
    let* lockedAmount := required_for (paidAmount claim) in
    if lockedAmount <=? totalLocked providerData then
      let* locked := checked_sub (totalLocked providerData) lockedAmount in
      Ok (set_providers (<[msg_sender m := set_totalLocked locked providerData]>
                           (providers st1)) st1)
    else
      Ok (set_providers (<[msg_sender m := set_totalLocked 0 providerData]>
                           (providers st1)) st1)
  else Ok st1.

(** ** Admin functions *)

Definition onlyOwner (m : Msg) (st : State L) : result unit :=
  if msg_sender m =? owner st then Ok tt else Revert OwnableUnauthorizedAccount.

Definition fundEmergencyPool (m : Msg) (amt : Z) (st : State L) : result (State L) :=
  check onlyOwner m st in
  let* tok := require_token (transferFrom (msg_sender m) amt (usdcToken st))
                "Transfer failed" in
  let* e := checked_add (emergencyPool st) amt in
  Ok (set_emergencyPool e (set_usdcToken tok st)).

Definition fundPlatformInsurance (m : Msg) (amt : Z) (st : State L) : result (State L) :=
  check onlyOwner m st in
  let* tok := require_token (transferFrom (msg_sender m) amt (usdcToken st))
                "Transfer failed" in
  let* f := checked_add (platformInsuranceFund st) amt in
  Ok (set_platformInsuranceFund f (set_usdcToken tok st)).

(** ** Transactions and reachable states *)

Inductive Call : Type :=
| RegisterOrReactivate (amt : Z)
| DepositAdditional (amt : Z)
| Withdraw (amt : Z)
| WithdrawAllAndDeactivate
| InitiateClaim (cid : bytes32) (prov : address) (amt : Z) (why : ClaimReason)
| ExecuteClaim (cid : bytes32)
| DisputeClaim (cid : bytes32) (evidence : string)
| FundEmergencyPool (amt : Z)
| FundPlatformInsurance (amt : Z).

Definition run (m : Msg) (c : Call) (st : State L) : result (State L) :=
  match c with
  | RegisterOrReactivate amt => registerOrReactivate m amt st
  | DepositAdditional amt => depositAdditional m amt st
  | Withdraw amt => withdraw m amt st
  | WithdrawAllAndDeactivate => withdrawAllAndDeactivate m st
  | InitiateClaim cid prov amt why => initiateClaim m cid prov amt why st
  | ExecuteClaim cid => executeClaim m cid st
  | DisputeClaim cid evidence => disputeClaim m cid evidence st
  | FundEmergencyPool amt => fundEmergencyPool m amt st
  | FundPlatformInsurance amt => fundPlatformInsurance m amt st
  end.

(** Arguments of type [uint256] are in range; so is the block timestamp. *)
Definition well_typed (m : Msg) (c : Call) : Prop :=
  is_uint256 (block_timestamp m) /\
  match c with
  | RegisterOrReactivate amt | DepositAdditional amt | Withdraw amt
  | FundEmergencyPool amt | FundPlatformInsurance amt => is_uint256 amt
  | InitiateClaim _ _ amt _ => is_uint256 amt
  | WithdrawAllAndDeactivate | ExecuteClaim _ | DisputeClaim _ _ => True
  end.

(** States the contract can be in: the constructor's state, followed by
    any sequence of transactions that did not revert. *)
Inductive reachable : State L -> Prop :=
| reachable_init tok _owner : reachable (initial_state tok _owner)
| reachable_step st m c st' :
    reachable st -> well_typed m c -> run m c st = Ok st' -> reachable st'.

(** The same, with every block timestamp a positive Unix time.  The
    contract reads [initiatedAt == 0] as "no such claim", which is only
    right for claims initiated at a positive time. *)
Inductive reachable_after_epoch : State L -> Prop :=
| after_epoch_init tok _owner : reachable_after_epoch (initial_state tok _owner)
| after_epoch_step st m c st' :
    reachable_after_epoch st -> 0 < block_timestamp m -> well_typed m c ->
    run m c st = Ok st' -> reachable_after_epoch st'.

(** ** Vocabulary of the specification *)

(** The pool invariant of one provider record, and of a state. *)
Definition pool_ok (p : ProviderData) : Prop :=
  0 <= poolBalance p /\ totalLocked p <= poolBalance p.

Definition pool_inv (st : State L) : Prop :=
  forall a : address, pool_ok (providers st !!! a).

(** The amount invariant of one claim record, and of a state. *)
Definition claim_ok (c : ClaimInfo) : Prop :=
  paidAmount c + pendingAmount c = requestedAmount c.

Definition claims_inv (st : State L) : Prop :=
  forall cid : bytes32, claim_ok (claims st !!! cid).

(** Every queue lists distinct claims, all of which exist. *)
Definition queue_inv (st : State L) : Prop :=
  forall prov : address,
    NoDup (providerPendingCompensations st !!! prov) /\
    forall cid, cid ∈ providerPendingCompensations st !!! prov ->
                0 < initiatedAt (claims st !!! cid).

(** What one entry still counts for in the total owed, and the total
    owed along a queue (the value the first loop computes). *)
Definition owed (comp : PendingCompensation) : Z :=
  if unsettled comp then amount comp else 0.

Definition total_owed (pcs : gmap Z PendingCompensation) (l : list Z) : Z :=
  foldr (fun cid acc => owed (pcs !!! cid) + acc) 0 l.

(** The payment the second loop computes for an entry: [A * r / T], capped
    at [r]; nothing for a settled entry. *)
Definition share (A T : Z) (comp : PendingCompensation) : Z :=
  if unsettled comp then
    let q := A * amount comp / T in
    if amount comp <? q then amount comp else q
  else 0.

(** The sum of the shares of a queue. *)
Definition total_share (A T : Z) (pcs : gmap Z PendingCompensation) (l : list Z) : Z :=
  foldr (fun cid acc => share A T (pcs !!! cid) + acc) 0 l.

(** The state after paying [p] to the entry [cid] of provider [prov]. *)
Definition paid_state (prov : address) (cid : bytes32) (p : Z) (tok : L) (st : State L)
    : State L :=
  let comp := pendingCompensations st !!! cid in
  let claim := claims st !!! cid in
  let providerData := providers st !!! prov in
  let comp1 := set_amount (amount comp - p) comp in
  let comp2 := if amount comp - p =? 0 then set_isPaid true comp1 else comp1 in
  let claim' := set_pendingAmount (pendingAmount claim - p)
                  (set_paidAmount (paidAmount claim + p) claim) in
  set_totalPendingCompensations (totalPendingCompensations st - p)
    (set_usdcToken tok
    (set_totalProviderPools (totalProviderPools st - p)
    (set_providers (<[prov := set_poolBalance (poolBalance providerData - p) providerData]>
                      (providers st))
    (set_claims (<[cid := claim']> (claims st))
    (set_pendingCompensations (<[cid := comp2]> (pendingCompensations st)) st))))).

(** An entry and its claim after a payment of [p]. *)
Definition comp_after (p : Z) (comp : PendingCompensation) : PendingCompensation :=
  if 0 <? p then
    if amount comp - p =? 0
    then set_isPaid true (set_amount (amount comp - p) comp)
    else set_amount (amount comp - p) comp
  else comp.

Definition claim_after (p : Z) (claim : ClaimInfo) : ClaimInfo :=
  if 0 <? p
  then set_pendingAmount (pendingAmount claim - p) (set_paidAmount (paidAmount claim + p) claim)
  else claim.

(** The token transfers one distribution makes, in queue order, and their
    effect on the ledger. *)
Fixpoint payouts (A T : Z) (pcs : gmap Z PendingCompensation) (cls : gmap Z ClaimInfo)
    (l : list Z) : list (address * Z) :=
  match l with
  | [] => []
  | cid :: rest =>
      let p := share A T (pcs !!! cid) in
      if 0 <? p then (client (cls !!! cid), p) :: payouts A T pcs cls rest
      else payouts A T pcs cls rest
  end.

Fixpoint transfers (ps : list (address * Z)) (tok : L) : option L :=
  match ps with
  | [] => Some tok
  | (to, p) :: rest =>
      match transfer to p tok with
      | Some tok' => transfers rest tok'
      | None => None
      end
  end.

(** Nothing overflows, underflows or fails to transfer while the queue
    [l] is served from [st]. *)
Definition distribution_headroom (prov : address) (A T : Z) (l : list Z) (st : State L)
    : Prop :=
  (forall cid, cid ∈ l ->
     let comp := pendingCompensations st !!! cid in
     let claim := claims st !!! cid in
     unsettled comp = true ->
     A * amount comp <= MAX_UINT256 /\
     share A T comp <= pendingAmount claim /\
     paidAmount claim + share A T comp <= MAX_UINT256) /\
  total_share A T (pendingCompensations st) l <= poolBalance (providers st !!! prov) /\
  total_share A T (pendingCompensations st) l <= totalProviderPools st /\
  total_share A T (pendingCompensations st) l <= totalPendingCompensations st /\
  is_Some (transfers (payouts A T (pendingCompensations st) (claims st) l) (usdcToken st)).

(** Everything the contract can draw on for a claim against [prov]. *)
Definition total_available (st : State L) (prov : address) : Z :=
  available_of (providers st !!! prov) + emergencyPool st + platformInsuranceFund st.

(** [st'] holds one more compensation entry than [st]: [cid], owing [x]
    to [cl], at the end of [prov]'s queue. *)
Definition entry_recorded (now : Z) (cid : bytes32) (cl prov : address) (x : Z)
    (st st' : State L) : Prop :=
  pendingCompensations st' =
    <[cid := mkPendingCompensation cid cl x now false]> (pendingCompensations st) /\
  providerPendingCompensations st' =
    <[prov := (providerPendingCompensations st !!! prov) ++ [cid]]>
      (providerPendingCompensations st) /\
  totalPendingCompensations st' = totalPendingCompensations st + x.

(** [st'] holds the same compensation entries as [st]. *)
Definition no_entry_recorded (st st' : State L) : Prop :=
  pendingCompensations st' = pendingCompensations st /\
  providerPendingCompensations st' = providerPendingCompensations st /\
  totalPendingCompensations st' = totalPendingCompensations st.

(** No storage word involved in [initiateClaim] is about to overflow. *)
Definition initiate_headroom (m : Msg) (prov : address) (amt : Z) (st : State L) : Prop :=
  0 <= emergencyPool st /\ 0 <= platformInsuranceFund st /\
  total_available st prov <= MAX_UINT256 /\
  poolBalance (providers st !!! prov) <= MAX_UINT256 /\
  totalLocked (providers st !!! prov) <= MAX_UINT256 /\
  totalPendingCompensations st + amt <= MAX_UINT256 /\
  block_timestamp m + 1800 <= MAX_UINT256 /\
  totalClaimsInitiated st + 1 <= MAX_UINT256.

(** ** Query functions *)

Definition getProviderInfo (provider : address) (st : State L)
    : bool * Z * Z * Z * Z * Z * Z :=
  let data := providers st !!! provider in
  (isActive data, poolBalance data, totalLocked data, successfulServices data,
   failedServices data, tier data, registeredAt data).

(** Loop of [getProviderPendingCompensations]: [n] counts the iterations
    left, [i] is the loop index.  The two memory arrays are written at
    [validCount], which never exceeds [i]. *)
Fixpoint collect_loop (pcs : gmap Z PendingCompensation) (providerCommitments : list Z)
    (n i : nat) (commitments amounts : list Z) (totalAmount : Z) (validCount : nat)
    : result (list Z * list Z * Z * nat) :=
  match n with
  | O => Ok (commitments, amounts, totalAmount, validCount)
  | S n' =>
      let comp := pcs !!! (providerCommitments !!! i) in
      if unsettled comp then
        let commitments' := <[validCount := providerCommitments !!! i]> commitments in
        let amounts' := <[validCount := amount comp]> amounts in
        let* total := checked_add totalAmount (amount comp) in
        collect_loop pcs providerCommitments n' (S i) commitments' amounts' total
          (S validCount)
      else
        collect_loop pcs providerCommitments n' (S i) commitments amounts totalAmount
          validCount
  end.

(** The arrays are allocated at the length of the queue, zero-filled, and
    cut to [validCount] by the final [mstore]. *)
Definition getProviderPendingCompensations (provider : address) (st : State L)
    : result (list Z * list Z * Z) :=
  let providerCommitments := providerPendingCompensations st !!! provider in
  let n := length providerCommitments in
  let* '(commitments, amounts, totalAmount, validCount) :=
    collect_loop (pendingCompensations st) providerCommitments n 0
      (replicate n 0) (replicate n 0) 0 0 in
  Ok (take validCount commitments, take validCount amounts, totalAmount).

Definition getClaimInfo (cid : bytes32) (st : State L)
    : address * address * Z * Z * Z * Z * Z * ClaimReason * ClaimStatus :=
  let claim := claims st !!! cid in
  (client claim, provider claim, requestedAmount claim, paidAmount claim,
   pendingAmount claim, initiatedAt claim, disputeDeadline claim, reason claim,
   status claim).

Definition canAcceptService (provider : address) (serviceAmount : Z) (st : State L)
    : result (bool * string) :=
  let data := providers st !!! provider in
  if negb (isActive data) then Ok (false, "Provider not active") else
  let available := available_of data in
  if available =? 0 then
    Ok (true, "Warning: No funds available, claim will be deferred")
  else if available <? serviceAmount then
    Ok (true, "Warning: Partial payment possible, remainder will be deferred")
  else
    let* x := checked_mul (poolBalance data) MAX_EXPOSURE_RATIO in
    let* maxExposure := checked_div x 10000 in
    let* exposure := checked_add (totalLocked data) serviceAmount in
    if maxExposure <? exposure then
      Ok (true, "Warning: Near exposure limit, partial payment likely")
    else Ok (true, "OK").

(** ** Vocabulary of the accounting properties *)

(** The sum of [f] over the values of a finite map. *)
Definition map_sum {V : Type} (f : V -> Z) (m : gmap Z V) : Z :=
  map_fold (fun _ v acc => f v + acc) 0 m.

(** The collateral of all providers together. *)
Definition sum_pools (m : gmap Z ProviderData) : Z := map_sum poolBalance m.

(** The amounts of all compensation entries together. *)
Definition sum_amounts (m : gmap Z PendingCompensation) : Z := map_sum amount m.

Definition pools_total_inv (st : State L) : Prop :=
  totalProviderPools st = sum_pools (providers st).

(** The books of deferred compensation: an entry carries the pending
    amount of its claim, a claim that does not exist has nothing pending,
    the running total is the sum of the entries, and a queue lists claims
    against its provider that are still owed something. *)
Definition deferred_inv (st : State L) : Prop :=
  (forall cid, amount (pendingCompensations st !!! cid) = pendingAmount (claims st !!! cid)) /\
  (forall cid, initiatedAt (claims st !!! cid) = 0 -> pendingAmount (claims st !!! cid) = 0) /\
  totalPendingCompensations st = sum_amounts (pendingCompensations st) /\
  (forall prov cid,
     cid ∈ providerPendingCompensations st !!! prov ->
     provider (claims st !!! cid) = prov /\ unsettled (pendingCompensations st !!! cid) = true).

(** The same while the second loop serves the queue of [prov]: entries
    of that queue may be settled already. *)
Definition deferred_loop_inv (prov : address) (st : State L) : Prop :=
  (forall cid, amount (pendingCompensations st !!! cid) = pendingAmount (claims st !!! cid)) /\
  (forall cid, initiatedAt (claims st !!! cid) = 0 -> pendingAmount (claims st !!! cid) = 0) /\
  totalPendingCompensations st = sum_amounts (pendingCompensations st) /\
  (forall prov2 cid,
     cid ∈ providerPendingCompensations st !!! prov2 ->
     provider (claims st !!! cid) = prov2 /\
     (isPaid (pendingCompensations st !!! cid) = false ->
      0 < amount (pendingCompensations st !!! cid)) /\
     (prov2 <> prov -> unsettled (pendingCompensations st !!! cid) = true)).

(** How a claim record may differ from an earlier one of the same claim. *)
Definition claim_evolves (c c' : ClaimInfo) : Prop :=
  0 < initiatedAt c ->
  client c' = client c /\ provider c' = provider c /\
  requestedAmount c' = requestedAmount c /\
  initiatedAt c' = initiatedAt c /\ disputeDeadline c' = disputeDeadline c /\
  reason c' = reason c /\
  paidAmount c <= paidAmount c' /\ pendingAmount c' <= pendingAmount c /\
  (is_open (status c) = false -> status c' = status c).

(** A provider record that differs from an earlier one by a smaller
    pool balance only. *)
Definition same_but_pool (p p' : ProviderData) : Prop :=
  isActive p' = isActive p /\ totalLocked p' = totalLocked p /\
  successfulServices p' = successfulServices p /\
  failedServices p' = failedServices p /\ tier p' = tier p /\
  registeredAt p' = registeredAt p /\ poolBalance p' <= poolBalance p.

(** What the contract has on its books: collateral, emergency pool and
    platform fund. *)
Definition booked (st : State L) : Z :=
  totalProviderPools st + emergencyPool st + platformInsuranceFund st.

(** Compensation amounts are not negative and their running total is a
    [uint256]. *)
Definition amounts_inv (st : State L) : Prop :=
  (forall cid, 0 <= amount (pendingCompensations st !!! cid)) /\
  totalPendingCompensations st <= MAX_UINT256.

End Contract.

(** * The payment contract of the examples

    [PaymentContractWithInsurance] is a business contract that is itself
    the provider: it calls the insurance under its own address, [self].
    Its calls into the insurance revert with them.  [enableInsurance],
    [addInsurance] and [depositUSDC] move tokens to and from the payment
    contract itself and are not part of this model. *)

Module Payment.

Record Order : Type := mkOrder {
  client : address;
  amount : Z;
  createdAt : Z;
  deliveredAt : Z;
  delivered : bool;
  refunded : bool
}.

#[global] Instance Order_inhabited : Inhabited Order :=
  populate (mkOrder 0 0 0 0 false false).

Record Contract : Type := mkContract {
  owner : address;
  insuranceEnabled : bool;
  orders : gmap Z Order;
  orderList : list Z
}.

Definition set_orders (v : gmap Z Order) (s : Contract) : Contract :=
  mkContract (owner s) (insuranceEnabled s) v (orderList s).
Definition set_orderList (v : list Z) (s : Contract) : Contract :=
  mkContract (owner s) (insuranceEnabled s) (orders s) v.

(** [constructor]: the deployer owns the contract. *)
Definition initial (m : Msg) : Contract := mkContract (msg_sender m) false ∅ [].

Definition onlyOwner (m : Msg) (s : Contract) : result unit :=
  require (msg_sender m =? owner s) "Only owner".

(** ** Orders *)

Definition createOrder (m : Msg) (orderId : bytes32) (_client : address) (_amount : Z)
    (s : Contract) : result Contract :=
  check onlyOwner m s in
  check require (client (orders s !!! orderId) =? 0) "Order exists" in
  Ok (set_orderList (orderList s ++ [orderId])
     (set_orders
        (<[orderId := mkOrder _client _amount (block_timestamp m) 0 false false]> (orders s))
        s)).

(** [order.delivered = true; order.deliveredAt = block.timestamp] *)
Definition mark_delivered (now : Z) (order : Order) : Order :=
  mkOrder (client order) (amount order) (createdAt order) now true (refunded order).

Definition deliverOrder (m : Msg) (orderId : bytes32) (s : Contract) : result Contract :=
  check onlyOwner m s in
  let order := orders s !!! orderId in
  check require (negb (client order =? 0)) "Order not found" in
  check require (negb (delivered order)) "Already delivered" in
  Ok (set_orders (<[orderId := mark_delivered (block_timestamp m) order]> (orders s)) s).

(** The loop of [batchDeliverOrders]. *)
Fixpoint deliver_loop (now : Z) (orderIds : list bytes32) (s : Contract) : Contract :=
  match orderIds with
  | [] => s
  | orderId :: rest =>
      let order := orders s !!! orderId in
      if negb (client order =? 0) && negb (delivered order) then
        deliver_loop now rest
          (set_orders (<[orderId := mark_delivered now order]> (orders s)) s)
      else deliver_loop now rest s
  end.

Definition batchDeliverOrders (m : Msg) (orderIds : list bytes32) (s : Contract)
    : result Contract :=
  check onlyOwner m s in
  Ok (deliver_loop (block_timestamp m) orderIds s).

Definition getOrder (orderId : bytes32) (s : Contract) : address * Z * Z * Z * bool * bool :=
  let order := orders s !!! orderId in
  (client order, amount order, createdAt order, deliveredAt order, delivered order,
   refunded order).

Definition getAllOrders (s : Contract) : list bytes32 := orderList s.

(** The transactions on the order book, and runs of them. *)
Inductive Call : Type :=
| CreateOrder (orderId : bytes32) (_client : address) (_amount : Z)
| DeliverOrder (orderId : bytes32)
| BatchDeliverOrders (orderIds : list bytes32).

Definition run (m : Msg) (c : Call) (s : Contract) : result Contract :=
  match c with
  | CreateOrder orderId _client _amount => createOrder m orderId _client _amount s
  | DeliverOrder orderId => deliverOrder m orderId s
  | BatchDeliverOrders orderIds => batchDeliverOrders m orderIds s
  end.

Fixpoint run_all (txs : list (Msg * Call)) (s : Contract) : result Contract :=
  match txs with
  | [] => Ok s
  | (m, c) :: rest => let* s' := run m c s in run_all rest s'
  end.

(** Every order created in [txs] has a client. *)
Definition clients_given (txs : list (Msg * Call)) : Prop :=
  forall m orderId _client _amount,
    (m, CreateOrder orderId _client _amount) ∈ txs -> _client <> 0.

(** ** Utility functions *)

(** First loop of [uint2str]: [while (j != 0) { len++; j /= 10; }].  The
    number is a [uint256] read as a natural number; [len] counts its
    digits and stays far below the range of a [uint256]. *)
Equations count_digits (j : N) (len : nat) : nat by wf (N.size_nat j) lt :=
  count_digits j len with N.eq_dec j 0%N := {
    | left _ => len
    | right _ => count_digits (j / 10)%N (S len) }.
Next Obligation.
  destruct j as [|p]; [done|].
  destruct (N.pos p / 10)%N as [|q] eqn:Hq; simpl; [destruct p; simpl; lia|].
  assert (N.pos (xO q) <= N.pos p)%N as Hle.
  { pose proof (N.Div0.mul_div_le (N.pos p) 10) as Hm. rewrite Hq in Hm. lia. }
  assert (Pos.size_nat (xO q) <= Pos.size_nat p)%nat as Hsize.
  { destruct (Pos.eq_dec (xO q) p) as [<-|Hne]; [done|].
    apply Pos.size_nat_monotone. lia. }
  simpl in Hsize. lia.
Defined.

(** Second loop of [uint2str]: the digits are written from the last
    position down.  [k - 1] panics at zero, the write panics outside the
    array, and [48 + uint8(...)] is an addition of [uint8]. *)
Equations write_digits (_i : N) (k : nat) (bstr : list Ascii.ascii) : result (list Ascii.ascii)
    by wf (N.size_nat _i) lt :=
  write_digits _i k bstr with N.eq_dec _i 0%N := {
    | left _ => Ok bstr
    | right _ with k := {
      | O => Revert Panic_arithmetic
      | S k' =>
          let temp := (48 + (_i - (_i / 10) * 10) mod 256)%N in
          if (255 <? temp)%N then Revert Panic_arithmetic
          else if decide (k' < length bstr)%nat
               then write_digits (_i / 10)%N k' (<[k' := Ascii.ascii_of_N temp]> bstr)
               else Revert Panic_arithmetic } }.
Next Obligation.
  destruct _i as [|p]; [done|].
  destruct (N.pos p / 10)%N as [|q] eqn:Hq; simpl; [destruct p; simpl; lia|].
  assert (N.pos (xO q) <= N.pos p)%N as Hle.
  { pose proof (N.Div0.mul_div_le (N.pos p) 10) as Hm. rewrite Hq in Hm. lia. }
  assert (Pos.size_nat (xO q) <= Pos.size_nat p)%nat as Hsize.
  { destruct (Pos.eq_dec (xO q) p) as [<-|Hne]; [done|].
    apply Pos.size_nat_monotone. lia. }
  simpl in Hsize. lia.
Defined.

Definition uint2str (_i : N) : result string :=
  if (_i =? 0)%N then Ok "0"%string
  else
    let len := count_digits _i 0 in
    let* bstr := write_digits _i len (replicate len Ascii.zero) in
    Ok (String.string_of_list_ascii bstr).

Definition alphabet : list Ascii.ascii := String.list_ascii_of_string "0123456789abcdef".

(** [data[i]] of a [bytes32]: its bytes are numbered from the most
    significant one. *)
Definition byte_at (data : bytes32) (i : nat) : Z :=
  Z.land (Z.shiftr data (8 * (31 - Z.of_nat i))) 255.

(** The loop of [toHexString]; [n] counts the iterations left. *)
Fixpoint hex_loop (data : bytes32) (n i : nat) (str : list Ascii.ascii) : list Ascii.ascii :=
  match n with
  | O => str
  | S n' =>
      let hi := nth (Z.to_nat (Z.shiftr (byte_at data i) 4)) alphabet Ascii.zero in
      let lo := nth (Z.to_nat (Z.land (byte_at data i) 15)) alphabet Ascii.zero in
      hex_loop data n' (S i) (<[(1 + i * 2)%nat := lo]> (<[(i * 2)%nat := hi]> str))
  end.

Definition toHexString (data : bytes32) : string :=
  String.string_of_list_ascii (hex_loop data 32 0 (replicate 64 Ascii.zero)).

(** ** Insurance functions

    The payment contract and the insurance it calls. *)

Section Insurance.
Context {L : Type} {token : IERC20 L}.

(** The message the insurance sees when the payment contract calls it. *)
Definition as_self (self : address) (m : Msg) : Msg := mkMsg self (block_timestamp m).

Definition withdrawInsurance (self : address) (m : Msg) (_amount : Z)
    (s : Contract) (ins : State L) : result (Contract * State L) :=
  check onlyOwner m s in
  check require (insuranceEnabled s) "Insurance not enabled" in
  let* ins' := withdraw (as_self self m) _amount ins in
  Ok (s, ins').

(** ["Order " ++ toHexString(orderId) ++ " was delivered at timestamp "
    ++ uint2str(order.deliveredAt)] *)
Definition delivery_evidence (orderId : bytes32) (order : Order) : result string :=
  let* at_ := uint2str (Z.to_N (deliveredAt order)) in
  Ok ("Order " ++ toHexString orderId ++ " was delivered at timestamp " ++ at_)%string.

Definition handleClaim (self : address) (m : Msg) (claimCommitment orderId : bytes32)
    (s : Contract) (ins : State L) : result (Contract * State L) :=
  check onlyOwner m s in
  check require (insuranceEnabled s) "Insurance not enabled" in
  let order := orders s !!! orderId in
  check require (negb (client order =? 0)) "Order not found" in
  if delivered order then
    let* evidence := delivery_evidence orderId order in
    let* ins' := disputeClaim (as_self self m) claimCommitment evidence ins in
    Ok (s, ins')
  else Ok (s, ins).

(** The loop of [batchHandleClaims], over pairs [(commitment, orderId)]. *)
Fixpoint handle_loop (self : address) (m : Msg) (claims : list (bytes32 * bytes32))
    (s : Contract) (ins : State L) : result (State L) :=
  match claims with
  | [] => Ok ins
  | (commitment, orderId) :: rest =>
      let order := orders s !!! orderId in
      if negb (client order =? 0) && delivered order then
        let* at_ := uint2str (Z.to_N (deliveredAt order)) in
        let evidence := ("Order delivered at " ++ at_)%string in
        let* ins' := disputeClaim (as_self self m) commitment evidence ins in
        handle_loop self m rest s ins'
      else handle_loop self m rest s ins
  end.

Definition batchHandleClaims (self : address) (m : Msg) (claims : list (bytes32 * bytes32))
    (s : Contract) (ins : State L) : result (Contract * State L) :=
  check onlyOwner m s in
  let* ins' := handle_loop self m claims s ins in
  Ok (s, ins').

Definition getInsuranceStatus (self : address) (s : Contract) (ins : State L)
    : bool * Z * Z * Z * Z * Z :=
  if negb (insuranceEnabled s) then (false, 0, 0, 0, 0, 0)
  else
    let '(active, pool, locked, successful, failed, tierLevel, _) :=
      getProviderInfo self ins in
    (active, pool, locked, successful, failed, tierLevel).

End Insurance.

(** ** Reading the strings back *)

(** The number a string of decimal digits stands for. *)
Definition decimal_value (s : list Ascii.ascii) : N :=
  fold_left (fun acc c => (10 * acc + (Ascii.N_of_ascii c - 48))%N) s 0%N.

Definition is_decimal_digit (c : Ascii.ascii) : Prop := (48 <= Ascii.N_of_ascii c <= 57)%N.

(** The value of one hexadecimal digit, and the number a string of such
    digits stands for. *)
Definition hex_digit_value (c : Ascii.ascii) : Z :=
  let n := Z.of_N (Ascii.N_of_ascii c) in
  if n <? 58 then n - 48 else n - 87.

Definition hex_value (s : list Ascii.ascii) : Z :=
  fold_left (fun acc c => 16 * acc + hex_digit_value c) s 0.

End Payment.

(** * The provider contract of the templates

    [SimpleProviderContract], over [ProviderContractBase]: a contract that
    is the provider and is steered by its owner.  It calls the insurance
    under its own address, [self].  [registerAsProvider] and
    [depositInsurance] first approve tokens of the contract itself and
    are not part of this model. *)

Module SimpleProvider.

Record Contract : Type := mkContract {
  owner : address;
  claimDisputes : gmap Z bool
}.

(** [claimDisputes[commitment]], [false] where nothing was stored. *)
Definition disputed (s : Contract) (commitment : bytes32) : bool :=
  default false (claimDisputes s !! commitment).

(** [constructor]: the deployer owns the contract. *)
Definition initial (m : Msg) : Contract := mkContract (msg_sender m) ∅.

Definition onlyOwner (m : Msg) (s : Contract) : result unit :=
  require (msg_sender m =? owner s) "Only owner".

Definition transferOwnership (m : Msg) (newOwner : address) (s : Contract)
    : result Contract :=
  check onlyOwner m s in
  check require (negb (newOwner =? 0)) "New owner is zero address" in
  Ok (mkContract newOwner (claimDisputes s)).

(** [_handleClaim]: claims of at most 100 USDC are accepted. *)
Definition _handleClaim (commitment : bytes32) (_client : address) (_amount : Z)
    (_reason : Z) : bool :=
  if _amount <=? 100 * 10 ^ 6 then true else false.

Definition onClaimNotification (insuranceContract : address) (m : Msg)
    (commitment : bytes32) (_client : address) (_amount : Z) (_reason : Z)
    : result bool :=
  check require (msg_sender m =? insuranceContract) "Only insurance contract" in
  Ok (_handleClaim commitment _client _amount _reason).

Section Insurance.
Context {L : Type} {token : IERC20 L}.

Definition withdrawInsurance (self : address) (m : Msg) (_amount : Z)
    (s : Contract) (ins : State L) : result (Contract * State L) :=
  check onlyOwner m s in
  let* ins' := withdraw (mkMsg self (block_timestamp m)) _amount ins in
  Ok (s, ins').

Definition disputeClaim (self : address) (m : Msg) (commitment : bytes32)
    (evidence : string) (s : Contract) (ins : State L) : result (Contract * State L) :=
  check onlyOwner m s in
  let* ins' := disputeClaim (mkMsg self (block_timestamp m)) commitment evidence ins in
  Ok (mkContract (owner s) (<[commitment := true]> (claimDisputes s)), ins').

(** The transactions that move the pair of provider contract and
    insurance: any transaction on the insurance, and the owner's calls. *)
Inductive Transaction : Type :=
| OnInsurance (c : Call)
| TransferOwnership (newOwner : address)
| DisputeClaim (commitment : bytes32) (evidence : string)
| WithdrawInsurance (_amount : Z).

Definition run (self : address) (m : Msg) (t : Transaction) (s : Contract) (ins : State L)
    : result (Contract * State L) :=
  match t with
  | OnInsurance c => let* ins' := run m c ins in Ok (s, ins')
  | TransferOwnership newOwner => let* s' := transferOwnership m newOwner s in Ok (s', ins)
  | DisputeClaim commitment evidence => disputeClaim self m commitment evidence s ins
  | WithdrawInsurance _amount => withdrawInsurance self m _amount s ins
  end.

(** The states of the pair from the deployment of the provider contract
    on, whatever state the insurance is in by then. *)
Inductive reachable (self : address) : Contract -> State L -> Prop :=
| reachable_deployed m ins : reachable self (initial m) ins
| reachable_run s ins m t s' ins' :
    reachable self s ins -> run self m t s ins = Ok (s', ins') ->
    reachable self s' ins'.

End Insurance.
End SimpleProvider.

(** ** A concrete token ledger

    A plain ERC-20 balance sheet, used to run the contract on concrete
    scenarios: [held] is the balance of the contract itself, [balances] the
    balances of the other accounts (allowances are taken as granted). *)

Record Ledger : Type := mkLedger {
  held : Z;
  balances : gmap Z Z
}.

Definition balanceOf (l : Ledger) (who : address) : Z := default 0 (balances l !! who).

Definition ledger_transferFrom (from : address) (amt : Z) (l : Ledger) : option Ledger :=
  if (0 <=? amt) && (amt <=? balanceOf l from)
  then Some (mkLedger (held l + amt) (<[from := balanceOf l from - amt]> (balances l)))
  else None.

Definition ledger_transfer (to : address) (amt : Z) (l : Ledger) : option Ledger :=
  if (0 <=? amt) && (amt <=? held l)
  then Some (mkLedger (held l - amt) (<[to := balanceOf l to + amt]> (balances l)))
  else None.

#[global] Instance Ledger_IERC20 : IERC20 Ledger := {
  transferFrom := ledger_transferFrom;
  transfer := ledger_transfer
}.

(** Run a list of transactions in order, stopping at the first revert. *)
Fixpoint run_all {L : Type} {token : IERC20 L} (txs : list (Msg * Call)) (st : State L)
    : result (State L) :=
  match txs with
  | [] => Ok st
  | (m, c) :: rest => let* st' := run m c st in run_all rest st'
  end.

(** ** Scenarios

    Concrete runs of the contract on the ledger above.  Amounts are in
    units of 10^-6 USDC. *)

Definition deployer : address := 1.
Definition provider_account : address := 100.
Definition client_account : address := 201.

(** The freshly deployed contract; the provider holds 1000 USDC. *)
Definition genesis : State Ledger :=
  initial_state (mkLedger 0 {[provider_account := 1000000000]}) deployer.

(** The state a run ends in ([genesis] if it reverted). *)
Definition result_state (r : result (State Ledger)) : State Ledger :=
  match r with
  | Ok st => st
  | Revert _ => genesis
  end.

Definition schedule_of (st : State Ledger) (cid : bytes32) : Z * Z * ClaimStatus :=
  (paidAmount (claims st !!! cid), pendingAmount (claims st !!! cid),
   status (claims st !!! cid)).

Definition register_10 : list (Msg * Call) :=
  [(mkMsg provider_account 1000, RegisterOrReactivate 10000000)].

(** A boolean check of [well_typed], to settle it by computation. *)
Definition well_typedb (tx : Msg * Call) : bool :=
  let in_range x := (0 <=? x) && (x <=? MAX_UINT256) in
  in_range (block_timestamp tx.1) &&
  match tx.2 with
  | RegisterOrReactivate amt | DepositAdditional amt | Withdraw amt
  | FundEmergencyPool amt | FundPlatformInsurance amt => in_range amt
  | InitiateClaim _ _ amt _ => in_range amt
  | WithdrawAllAndDeactivate | ExecuteClaim _ | DisputeClaim _ _ => true
  end.

(** Scenario B: 10.00 in the pool, three claims of 4.00 each. *)
Definition scenario_B_two : list (Msg * Call) :=
  register_10 ++
  [(mkMsg client_account 1001, InitiateClaim 1 provider_account 4000000 NOT_DELIVERED);
   (mkMsg client_account 1002, InitiateClaim 2 provider_account 4000000 NOT_DELIVERED)].

Definition scenario_B : list (Msg * Call) :=
  scenario_B_two ++
  [(mkMsg client_account 1003, InitiateClaim 3 provider_account 4000000 NOT_DELIVERED)].

(** 10.00 in the pool, a claim of 9.00 that locks 9.99 of it. *)
Definition scenario_locked : list (Msg * Call) :=
  register_10 ++
  [(mkMsg client_account 1001, InitiateClaim 1 provider_account 9000000 NOT_DELIVERED)].

(** ... followed by a claim of 1.00, of which only 0.01 can be scheduled. *)
Definition scenario_partial : list (Msg * Call) :=
  scenario_locked ++
  [(mkMsg client_account 1002, InitiateClaim 2 provider_account 1000000 NOT_DELIVERED)].

(** 10.00 in the pool, fully locked by a first claim; three more claims of
    4.00, 6.00 and 2.00 are deferred in full. *)
Definition scenario_queue : list (Msg * Call) :=
  register_10 ++
  [(mkMsg client_account 1001, InitiateClaim 1 provider_account 10000000 NOT_DELIVERED);
   (mkMsg client_account 1002, InitiateClaim 2 provider_account 4000000 NOT_DELIVERED);
   (mkMsg client_account 1003, InitiateClaim 3 provider_account 6000000 NOT_DELIVERED);
   (mkMsg client_account 1004, InitiateClaim 4 provider_account 2000000 NOT_DELIVERED)].

Definition result_ledger (r : option Ledger) : Ledger :=
  match r with
  | Some l => l
  | None => mkLedger 0 ∅
  end.

(** The state in which [depositAdditional] calls the distributor: the
    deposit of [amt] by [who] is booked, the queue not yet served. *)
Definition deposited (who : address) (amt : Z) (st : State Ledger) : State Ledger :=
  let p0 := providers st !!! who in
  set_totalProviderPools (totalProviderPools st + amt)
    (set_providers (<[who := set_poolBalance (poolBalance p0 + amt) p0]> (providers st))
    (set_usdcToken (result_ledger (ledger_transferFrom who amt (usdcToken st))) st)).

(** 10.00 in the pool, locked by a claim of 10000.00 that is paid 10.00;
    three small claims of 0.10 are deferred in full. *)
Definition scenario_dust : list (Msg * Call) :=
  register_10 ++
  [(mkMsg client_account 1001, InitiateClaim 1 provider_account 10000000000 NOT_DELIVERED);
   (mkMsg client_account 1002, InitiateClaim 2 provider_account 100000 NOT_DELIVERED);
   (mkMsg client_account 1003, InitiateClaim 3 provider_account 100000 NOT_DELIVERED);
   (mkMsg client_account 1004, InitiateClaim 4 provider_account 100000 NOT_DELIVERED)].

(** ** More scenarios *)

(** A boolean check that a transaction is sent at a positive block time. *)
Definition after_epochb (tx : Msg * Call) : bool := 0 <? block_timestamp tx.1.

(** 10.00 in the pool, a claim of 4.00 executed after its dispute period. *)
Definition scenario_executed : list (Msg * Call) :=
  register_10 ++
  [(mkMsg client_account 1001, InitiateClaim 1 provider_account 4000000 NOT_DELIVERED);
   (mkMsg client_account 1100, ExecuteClaim 1)].

(** 10.00 in the pool, fully locked by a first claim; a second claim of
    4.00 is deferred in full and then disputed by the provider. *)
Definition scenario_disputed : list (Msg * Call) :=
  register_10 ++
  [(mkMsg client_account 1001, InitiateClaim 1 provider_account 10000000 NOT_DELIVERED);
   (mkMsg client_account 1002, InitiateClaim 2 provider_account 4000000 NOT_DELIVERED);
   (mkMsg provider_account 1003, DisputeClaim 2 "delivered")].

(** What follows in the two scenarios above: a deposit of 20.00. *)
Definition top_up_20 : list (Msg * Call) :=
  [(mkMsg provider_account 2000, DepositAdditional 20000000)].

(** A provider with 2000000.00 in tokens, and its registration with
    1000000.00, the pool ceiling. *)
Definition genesis_rich : State Ledger :=
  initial_state (mkLedger 0 {[provider_account := 2000000000000]}) deployer.

Definition register_max : list (Msg * Call) :=
  [(mkMsg provider_account 1000, RegisterOrReactivate 1000000000000)].

(** 10.00 in the pool, then everything withdrawn. *)
Definition scenario_deactivated : list (Msg * Call) :=
  register_10 ++ [(mkMsg provider_account 1001, WithdrawAllAndDeactivate)].

(** ** Scenarios of the payment contract

    The payment contract lives at [provider_account] and is owned by
    [deployer]; order 7 is delivered at time 1000, order 8 is not. *)

Definition payment_orders : list (Msg * Payment.Call) :=
  [(mkMsg deployer 900, Payment.CreateOrder 7 client_account 4000000);
   (mkMsg deployer 901, Payment.CreateOrder 8 client_account 6000000);
   (mkMsg deployer 1000, Payment.DeliverOrder 7)].

Definition payment_result (r : result Payment.Contract) : Payment.Contract :=
  match r with
  | Ok s => s
  | Revert _ => Payment.initial (mkMsg deployer 0)
  end.

Definition payment_book : Payment.Contract :=
  let s := payment_result (Payment.run_all payment_orders (Payment.initial (mkMsg deployer 1))) in
  Payment.mkContract (Payment.owner s) true (Payment.orders s) (Payment.orderList s).

(** 10.00 in the pool and two claims, on orders 7 and 8. *)
Definition scenario_orders_claimed : list (Msg * Call) :=
  register_10 ++
  [(mkMsg client_account 1001, InitiateClaim 1 provider_account 4000000 NOT_DELIVERED);
   (mkMsg client_account 1002, InitiateClaim 2 provider_account 6000000 NOT_DELIVERED)].

Definition result_pair (r : result (Payment.Contract * State Ledger))
    : Payment.Contract * State Ledger :=
  match r with
  | Ok p => p
  | Revert _ => (Payment.initial (mkMsg deployer 0), genesis)
  end.

(** The provider contract at [provider_account], owned by [deployer]. *)
Definition provider_result (r : result (SimpleProvider.Contract * State Ledger))
    : SimpleProvider.Contract * State Ledger :=
  match r with
  | Ok p => p
  | Revert _ => (SimpleProvider.initial (mkMsg deployer 0), genesis)
  end.

(** * Proofs *)

(** ** Reasoning about results *)

Lemma bind_Ok {A B : Type} (m : result A) (k : A -> result B) (b : B) :
  bind m k = Ok b <-> exists a, m = Ok a /\ k a = Ok b.
Proof.
  destruct m as [a|r]; simpl; split.
  - intros H. exists a. split; [reflexivity | exact H].
  - intros (a' & Ha & Hk). inversion Ha; subst. exact Hk.
  - discriminate.
  - intros (a' & Ha & _). discriminate.
Qed.

Lemma require_Ok (b : bool) (msg : string) (u : unit) :
  require b msg = Ok u <-> b = true.
Proof. destruct b, u; simpl; split; intros; congruence. Qed.

Lemma checked_add_Ok (a b c : Z) :
  checked_add a b = Ok c <-> c = a + b /\ a + b <= MAX_UINT256.
Proof.
  unfold checked_add. destruct (Z.leb_spec (a + b) MAX_UINT256); split.
  - intros [= <-]. split; [reflexivity | assumption].
  - intros [-> _]. reflexivity.
  - discriminate.
  - intros [_ ?]. lia.
Qed.

Lemma checked_sub_Ok (a b c : Z) :
  checked_sub a b = Ok c <-> c = a - b /\ b <= a.
Proof.
  unfold checked_sub. destruct (Z.leb_spec b a); split.
  - intros [= <-]. split; [reflexivity | assumption].
  - intros [-> _]. reflexivity.
  - discriminate.
  - intros [_ ?]. lia.
Qed.

Lemma checked_mul_Ok (a b c : Z) :
  checked_mul a b = Ok c <-> c = a * b /\ a * b <= MAX_UINT256.
Proof.
  unfold checked_mul. destruct (Z.leb_spec (a * b) MAX_UINT256); split.
  - intros [= <-]. split; [reflexivity | assumption].
  - intros [-> _]. reflexivity.
  - discriminate.
  - intros [_ ?]. lia.
Qed.

Lemma checked_div_Ok (a b c : Z) :
  checked_div a b = Ok c <-> c = a / b /\ b <> 0.
Proof.
  unfold checked_div. destruct (Z.eqb_spec b 0); split.
  - discriminate.
  - intros [_ ?]. contradiction.
  - intros [= <-]. split; [reflexivity | assumption].
  - intros [-> _]. reflexivity.
Qed.

Lemma require_token_Ok {L : Type} (r : option L) (msg : string) (l : L) :
  require_token r msg = Ok l <-> r = Some l.
Proof. destruct r; simpl; split; intros; congruence. Qed.

(** Decompose a hypothesis [... = Ok _] along the binds, checked
    operations and requires it is made of. *)
Ltac inv_ok_step :=
  match goal with
  | H : bind _ _ = Ok _ |- _ =>
      apply bind_Ok in H; destruct H as (? & ? & H)
  | H : require _ _ = Ok _ |- _ => apply require_Ok in H
  | H : checked_add _ _ = Ok _ |- _ => apply checked_add_Ok in H; destruct H as [? ?]
  | H : checked_sub _ _ = Ok _ |- _ => apply checked_sub_Ok in H; destruct H as [? ?]
  | H : checked_mul _ _ = Ok _ |- _ => apply checked_mul_Ok in H; destruct H as [? ?]
  | H : checked_div _ _ = Ok _ |- _ => apply checked_div_Ok in H; destruct H as [? ?]
  | H : require_token _ _ = Ok _ |- _ => apply require_token_Ok in H
  | H : Ok _ = Ok _ |- _ => injection H as H
  | H : Revert _ = Ok _ |- _ => discriminate H
  end.
Ltac inv_ok := repeat inv_ok_step.

(** Boolean tests back to propositions. *)
Ltac bool_to_prop :=
  repeat match goal with
  | H : (_ <=? _) = true |- _ => apply Z.leb_le in H
  | H : (_ <=? _) = false |- _ => apply Z.leb_gt in H
  | H : (_ <? _) = true |- _ => apply Z.ltb_lt in H
  | H : (_ <? _) = false |- _ => apply Z.ltb_ge in H
  | H : (_ =? _) = true |- _ => apply Z.eqb_eq in H
  | H : (_ =? _) = false |- _ => apply Z.eqb_neq in H
  | H : (_ && _) = true |- _ => apply andb_true_iff in H; destruct H
  end.

(** Take a successful call apart: binds, checked operations, requires and
    the conditionals at the head of the steps. *)
Ltac split_call :=
  repeat first
    [ match goal with H : Ok _ = Ok _ |- _ => injection H; clear H; intros end
    | match goal with H : (_, _) = (_, _) |- _ => injection H; clear H; intros end
    | inv_ok_step
    | match goal with H : (if ?b then _ else _) = Ok _ |- _ => destruct b eqn:? end
    | match goal with x : (_ * _)%type |- _ => destruct x end ].

(** Case analysis on every conditional left in the goal and context. *)
Ltac split_ifs :=
  repeat first
    [ match goal with |- context [if ?b then _ else _] => destruct b eqn:? end
    | match goal with H : context [if ?b then _ else _] |- _ => destruct b eqn:? end ].

(** Conjunctions of field equations and bounds. *)
Ltac fields := repeat (repeat apply conj; intros); try done; try lia; try (by auto).

Section Proofs.
Context {L : Type} {token : IERC20 L}.

(** ** Amount helpers *)

Lemma bps_Ok (x rate y : Z) :
  bps x rate = Ok y <-> y = x * rate / 10000 /\ x * rate <= MAX_UINT256.
Proof.
  unfold bps. rewrite bind_Ok. split.
  - intros (a & Ha & Hy). apply checked_mul_Ok in Ha as [-> ?]. injection Hy as <-. done.
  - intros [-> ?]. exists (x * rate). split; [by apply checked_mul_Ok | done].
Qed.

Lemma required_for_Ok (x y : Z) :
  required_for x = Ok y ->
  y = x + x * PENALTY_RATE / 10000 + x * PLATFORM_FEE_RATE / 10000.
Proof.
  unfold required_for. intros H. inv_ok.
  repeat match goal with H : bps _ _ = Ok _ |- _ => apply bps_Ok in H as [? ?] end.
  by subst.
Qed.

Lemma required_for_ge (x y : Z) : 0 <= x -> required_for x = Ok y -> x <= y.
Proof.
  intros Hx H. apply required_for_Ok in H. subst y.
  assert (0 <= x * PENALTY_RATE / 10000) by (apply Z.div_pos; unfold PENALTY_RATE; lia).
  assert (0 <= x * PLATFORM_FEE_RATE / 10000)
    by (apply Z.div_pos; unfold PLATFORM_FEE_RATE; lia).
  lia.
Qed.

Lemma available_of_spec (p : ProviderData) :
  available_of p = Z.max 0 (poolBalance p - totalLocked p).
Proof. unfold available_of. destruct (Z.ltb_spec (totalLocked p) (poolBalance p)); lia. Qed.

(** ** The pool invariant *)

Lemma owed_nonneg comp : 0 <= owed comp.
Proof.
  unfold owed, unsettled. destruct (isPaid comp); simpl; [lia|].
  destruct (Z.ltb_spec 0 (amount comp)); lia.
Qed.

Lemma total_owed_nonneg pcs l : 0 <= total_owed pcs l.
Proof. induction l as [|c l IH]; simpl; [lia|]. pose proof (owed_nonneg (pcs !!! c)). lia. Qed.

Lemma sum_pending_spec pcs l acc t :
  sum_pending pcs l acc = Ok t ->
  t = acc + total_owed pcs l.
Proof.
  revert acc. induction l as [|c l IH]; simpl; intros acc H.
  - injection H as <-. lia.
  - unfold owed. destruct (unsettled (pcs !!! c)).
    + inv_ok. subst. apply IH in H. lia.
    + apply IH in H. lia.
Qed.

(** ** One step of the distribution loop *)

Lemma pay_entry_Ok prov A T cid st st' :
  pay_entry prov A T cid st = Ok st' ->
  let p := share A T (pendingCompensations st !!! cid) in
  (p <= 0 /\ st' = st) \/
  (0 < p /\ T <> 0 /\
   p <= amount (pendingCompensations st !!! cid) /\
   p <= pendingAmount (claims st !!! cid) /\
   p <= poolBalance (providers st !!! prov) /\
   p <= totalProviderPools st /\
   p <= totalPendingCompensations st /\
   paidAmount (claims st !!! cid) + p <= MAX_UINT256 /\
   A * amount (pendingCompensations st !!! cid) <= MAX_UINT256 /\
   exists tok, transfer (client (claims st !!! cid)) p (usdcToken st) = Some tok /\
               st' = paid_state prov cid p tok st).
Proof.
  unfold pay_entry, share. intros H.
  destruct (unsettled (pendingCompensations st !!! cid)) eqn:Hu; cycle 1.
  { left. injection H as <-. split; [lia | reflexivity]. }
  inv_ok. subst.
  match type of H with (if ?b then _ else _) = _ => destruct b eqn:Hp end; cycle 1.
  { left. injection H as <-. bool_to_prop. split; [exact Hp | reflexivity]. }
  inv_ok. subst. bool_to_prop. right.
  repeat split; try assumption.
  eexists. split; [eassumption|]. reflexivity.
Qed.

Lemma share_le_owed A T comp : 0 <= A -> 0 < T -> T * share A T comp <= A * owed comp.
Proof.
  intros HA HT. unfold share, owed. destruct (unsettled comp) eqn:Hu; [|lia].
  pose proof (Z.mul_div_le (A * amount comp) T HT).
  destruct (Z.ltb_spec (amount comp) (A * amount comp / T)); nia.
Qed.

Lemma share_le_amount A T comp : unsettled comp = true -> share A T comp <= amount comp.
Proof.
  intros Hu. unfold share. rewrite Hu.
  destruct (Z.ltb_spec (amount comp) (A * amount comp / T)); lia.
Qed.

Lemma share_unsettled A T comp : 0 < share A T comp -> unsettled comp = true.
Proof. unfold share. destruct (unsettled comp); [done | lia]. Qed.

(** Paying an entry never increases what it counts for. *)
Lemma owed_after_payment comp p :
  0 < p <= amount comp ->
  owed (if amount comp - p =? 0
        then set_isPaid true (set_amount (amount comp - p) comp)
        else set_amount (amount comp - p) comp) <= owed comp.
Proof.
  intros Hp. unfold owed, unsettled.
  destruct (Z.eqb_spec (amount comp - p) 0); simpl.
  - destruct (isPaid comp); simpl; [lia|]. destruct (Z.ltb_spec 0 (amount comp)); lia.
  - destruct (isPaid comp); simpl; [lia|].
    destruct (Z.ltb_spec 0 (amount comp - p)), (Z.ltb_spec 0 (amount comp)); lia.
Qed.

Lemma total_owed_insert_le (pcs : gmap Z PendingCompensation) cid comp l :
  owed comp <= owed (pcs !!! cid) ->
  total_owed (<[cid := comp]> pcs) l <= total_owed pcs l.
Proof.
  intros Hle. induction l as [|c l IH]; simpl; [lia|].
  destruct (decide (cid = c)) as [->|Hne].
  - rewrite lookup_total_insert_eq. lia.
  - rewrite lookup_total_insert_ne by done. lia.
Qed.

Lemma pay_entry_owed prov A T cid st st' l :
  pay_entry prov A T cid st = Ok st' ->
  total_owed (pendingCompensations st') l <= total_owed (pendingCompensations st) l.
Proof.
  intros H. apply pay_entry_Ok in H as [[_ ->]|(Hp & _ & Hle & _ & _ & _ & _ & _ & _ & tok & _ & ->)].
  - lia.
  - simpl. apply total_owed_insert_le. apply owed_after_payment. lia.
Qed.

(** What the second loop does to the provider records: only [prov]'s pool
    shrinks, by an amount [paid] bounded through [T * paid <= A * owed]. *)
Lemma pay_loop_providers prov A T l : forall st st',
  0 <= A -> 0 < T ->
  pay_loop prov A T l st = Ok st' ->
  exists paid,
    0 <= paid /\
    T * paid <= A * total_owed (pendingCompensations st) l /\
    poolBalance (providers st' !!! prov) = poolBalance (providers st !!! prov) - paid /\
    (0 <= poolBalance (providers st !!! prov) -> 0 <= poolBalance (providers st' !!! prov)) /\
    totalLocked (providers st' !!! prov) = totalLocked (providers st !!! prov) /\
    (forall a, a <> prov -> providers st' !!! a = providers st !!! a).
Proof.
  induction l as [|cid l IH]; simpl; intros st st' HA HT H.
  - injection H as <-. exists 0. repeat split; auto; lia.
  - inv_ok. rename x into st1, H0 into H1.
    pose proof (pay_entry_owed _ _ _ _ _ _ l H1) as Hmono.
    destruct (IH _ _ HA HT H) as (paid & Hpaid & Hbound & Hpool & Hnn & Hlock & Hother).
    pose proof (share_le_owed A T (pendingCompensations st !!! cid) HA HT) as Hshare.
    apply pay_entry_Ok in H1 as [[Hp ->]|(Hp & _ & _ & _ & Hple & _ & _ & _ & _ & tok & _ & ->)].
    + exists paid. pose proof (owed_nonneg (pendingCompensations st !!! cid)).
      repeat split; auto; nia.
    + simpl in *. rewrite lookup_total_insert_eq in Hpool, Hnn, Hlock. simpl in *.
      exists (share A T (pendingCompensations st !!! cid) + paid).
      repeat split; try lia; try nia.
      intros a Ha. rewrite Hother by done. by rewrite lookup_total_insert_ne.
Qed.

(** The distributor keeps every pool non-negative and above its locks. *)
Lemma process_pool_inv prov st st' :
  pool_inv st ->
  _processProportionalCompensations prov st = Ok st' ->
  pool_inv st'.
Proof.
  intros Hinv. unfold _processProportionalCompensations.
  destruct (Nat.eqb _ 0); [intros [= <-]; done|].
  destruct (Z.eqb_spec (available_of (providers st !!! prov)) 0) as [|HA]; [intros [= <-]; done|].
  intros H. inv_ok. rename x into T, H0 into Hsum.
  apply sum_pending_spec in Hsum. simpl in Hsum.
  destruct (Z.eqb_spec T 0) as [|HT]; [injection H as <-; done|].
  inv_ok. subst st'. rename x into st1, H0 into Hloop.
  pose proof (total_owed_nonneg (pendingCompensations st) (providerPendingCompensations st !!! prov)).
  pose proof (available_of_spec (providers st !!! prov)) as Hav.
  assert (0 <= available_of (providers st !!! prov)) as HA0 by lia.
  assert (0 < T) as HT0 by lia.
  destruct (pay_loop_providers _ _ _ _ _ _ HA0 HT0 Hloop)
    as (paid & Hpaid & Hbound & Hpool & Hnn & Hlock & Hother).
  intros a. simpl. destruct (Hinv a) as [Ha1 Ha2]. destruct (decide (a = prov)) as [->|Hne].
  - split; [auto|]. rewrite Hlock, Hpool.
    assert (paid <= available_of (providers st !!! prov)).
    { apply (Z.mul_le_mono_pos_l _ _ T); lia. }
    lia.
  - rewrite Hother by done. done.
Qed.

Lemma MIN_POOL_BALANCE_eq : MIN_POOL_BALANCE = 10000000.
Proof. reflexivity. Qed.

Lemma record_providers now cid cl prov amt (st st' : State L) :
  _recordPendingCompensation now cid cl prov amt st = Ok st' ->
  providers st' = providers st.
Proof. unfold _recordPendingCompensation. intros H. inv_ok. by subst st'. Qed.

(** Read a provider record after an update of the [providers] mapping. *)
Ltac provider_cases a :=
  match goal with
  | |- context [<[?k := _]> _ !!! a] =>
      destruct (decide (a = k)) as [->|?];
      [rewrite !lookup_total_insert_eq | rewrite !lookup_total_insert_ne by done]
  end.

Lemma registerOrReactivate_pool_inv m amt (st st' : State L) :
  pool_inv st -> registerOrReactivate m amt st = Ok st' -> pool_inv st'.
Proof.
  intros Hinv H. unfold registerOrReactivate in H. inv_ok. bool_to_prop.
  rewrite MIN_POOL_BALANCE_eq in *.
  match type of H with (if _ then _ ?s else _) = _ => assert (pool_inv s) as Hinv1 end.
  { intros a. simpl. provider_cases a; [|apply Hinv].
    destruct (Hinv (msg_sender m)) as [? ?]. subst.
    destruct (registeredAt (providers st !!! msg_sender m) =? 0); unfold pool_ok; simpl; lia. }
  destruct (Nat.ltb _ _).
  - eapply process_pool_inv; eassumption.
  - by injection H as <-.
Qed.

Lemma depositAdditional_pool_inv m amt (st st' : State L) :
  0 <= amt -> pool_inv st -> depositAdditional m amt st = Ok st' -> pool_inv st'.
Proof.
  intros Hamt Hinv H. unfold depositAdditional in H. inv_ok. bool_to_prop.
  match type of H with (if _ then _ ?s else _) = _ => assert (pool_inv s) as Hinv1 end.
  { intros a. simpl. provider_cases a; [|apply Hinv].
    destruct (Hinv (msg_sender m)) as [? ?]. subst. unfold pool_ok; simpl; lia. }
  destruct (Nat.ltb _ _).
  - eapply process_pool_inv; eassumption.
  - by injection H as <-.
Qed.

Lemma withdraw_pool_inv m amt (st st' : State L) :
  pool_inv st -> withdraw m amt st = Ok st' -> pool_inv st'.
Proof.
  intros Hinv H. unfold withdraw in H. inv_ok. bool_to_prop. subst st'.
  intros a. simpl. provider_cases a; [|apply Hinv].
  destruct (Hinv (msg_sender m)) as [? ?]. subst.
  pose proof (available_of_spec (providers st !!! msg_sender m)).
  rewrite MIN_POOL_BALANCE_eq in *. unfold pool_ok; simpl; lia.
Qed.

Lemma withdrawAllAndDeactivate_pool_inv m (st st' : State L) :
  pool_inv st -> withdrawAllAndDeactivate m st = Ok st' -> pool_inv st'.
Proof.
  intros Hinv H. unfold withdrawAllAndDeactivate in H. inv_ok. bool_to_prop.
  destruct (0 <? poolBalance (providers st !!! msg_sender m)); inv_ok; subst st';
    intros a; simpl; (provider_cases a; [|apply Hinv]); unfold pool_ok; simpl; lia.
Qed.

Lemma initiateClaim_pool_inv m cid prov amt why (st st' : State L) :
  pool_inv st -> initiateClaim m cid prov amt why st = Ok st' -> pool_inv st'.
Proof.
  intros Hinv H. unfold initiateClaim in H. inv_ok. bool_to_prop.
  match goal with H : _ = Ok ?x |- _ =>
    match type of x with (_ * State L)%type =>
      destruct x as [[[paid pending] claimStatus] st1]; rename H into Hsched end end.
  inv_ok. subst st'. simpl.
  assert (providers st1 = providers st) as Hprov.
  { repeat match type of Hsched with (if ?b then _ else _) = _ => destruct b end;
      inv_ok; try congruence;
      match goal with H : _recordPendingCompensation _ _ _ _ _ _ = Ok _ |- _ =>
        apply record_providers in H end; congruence. }
  intros a. simpl.
  destruct (0 <? paid); inv_ok; subst; simpl; rewrite Hprov; [|apply Hinv].
  provider_cases a; [|apply Hinv].
  destruct (Hinv prov) as [? ?].
  pose proof (available_of_spec (providers st !!! prov)).
  unfold pool_ok; simpl.
  destruct (_ <=? available_of _) eqn:?; bool_to_prop; lia.
Qed.

(** The payment block of [executeClaim] keeps the invariant; the later
    steps only touch counters and the claim record. *)
Lemma executeClaim_pool_inv m cid (st st' : State L) :
  pool_inv st -> executeClaim m cid st = Ok st' -> pool_inv st'.
Proof.
  intros Hinv H. unfold executeClaim in H. inv_ok. bool_to_prop.
  match goal with H : _ = Ok ?s |- _ =>
    match type of H with (if 0 <? paidAmount _ then _ else _) = _ =>
      rename s into st1, H into Hpay end end.
  assert (pool_inv st1) as Hinv1.
  { destruct (0 <? paidAmount (claims st !!! cid)); [|by inv_ok; subst].
    inv_ok. subst st1. simpl.
    match goal with H : _ = Ok ?s |- _ =>
      match type of H with (if _ <? _ then _ else _) = _ =>
        rename s into st_b, H into Hb end end.
    match goal with H : _ = Ok ?s |- _ =>
      match type of H with (if 0 <? _ then _ else _) = _ =>
        rename s into st_a, H into Ha end end.
    assert (providers st_b = providers st_a) as Hab.
    { repeat first [ inv_ok_step
                   | match type of Hb with (if ?b then _ else _) = _ => destruct b end ];
        by subst. }
    intros a. simpl. rewrite Hab.
    match type of Ha with (if ?b then _ else _) = _ => destruct b end;
      inv_ok; subst; [|apply Hinv].
    simpl. provider_cases a; [|apply Hinv].
    destruct (Hinv (provider (claims st !!! cid))) as [? ?].
    unfold pool_ok; simpl.
    repeat match goal with |- context [if ?b then _ else _] => destruct b eqn:? end;
      bool_to_prop; lia. }
  destruct (pendingAmount (claims st !!! cid) =? 0); inv_ok; subst; simpl; [|done].
  intros a. simpl. provider_cases a; [|apply Hinv1]. apply (Hinv1 (provider (claims st !!! cid))).
Qed.

Lemma disputeClaim_pool_inv m cid evidence (st st' : State L) :
  pool_inv st -> disputeClaim m cid evidence st = Ok st' -> pool_inv st'.
Proof.
  intros Hinv H. unfold disputeClaim in H. inv_ok. bool_to_prop.
  destruct (0 <? paidAmount (claims st !!! cid)) eqn:Hpaid; [|by inv_ok; subst].
  inv_ok.
  match goal with H : required_for _ = Ok _ |- _ =>
    apply required_for_ge in H; [|bool_to_prop; lia] end.
  match type of H with (if ?b then _ else _) = _ => destruct b eqn:? end;
    inv_ok; bool_to_prop; subst; intros a; simpl in *;
    (provider_cases a; [|apply Hinv]);
    destruct (Hinv (msg_sender m)) as [? ?]; unfold pool_ok; simpl; lia.
Qed.

Lemma fundEmergencyPool_providers m amt (st st' : State L) :
  fundEmergencyPool m amt st = Ok st' -> providers st' = providers st.
Proof. unfold fundEmergencyPool. intros H. inv_ok. by subst. Qed.

Lemma fundPlatformInsurance_providers m amt (st st' : State L) :
  fundPlatformInsurance m amt st = Ok st' -> providers st' = providers st.
Proof. unfold fundPlatformInsurance. intros H. inv_ok. by subst. Qed.

(** Every transaction keeps the pool invariant. *)
Lemma run_pool_inv m c (st st' : State L) :
  well_typed m c -> pool_inv st -> run m c st = Ok st' -> pool_inv st'.
Proof.
  intros [_ Hc] Hinv H. destruct c; simpl in H.
  - eapply registerOrReactivate_pool_inv; eassumption.
  - eapply depositAdditional_pool_inv; [apply Hc | eassumption..].
  - eapply withdraw_pool_inv; eassumption.
  - eapply withdrawAllAndDeactivate_pool_inv; eassumption.
  - eapply initiateClaim_pool_inv; eassumption.
  - eapply executeClaim_pool_inv; eassumption.
  - eapply disputeClaim_pool_inv; eassumption.
  - apply fundEmergencyPool_providers in H. intros a. rewrite H. apply Hinv.
  - apply fundPlatformInsurance_providers in H. intros a. rewrite H. apply Hinv.
Qed.

Lemma initial_pool_inv (tok : L) (_owner : address) : pool_inv (initial_state tok _owner).
Proof. intros a. simpl. rewrite lookup_total_empty. unfold pool_ok. simpl. lia. Qed.

(** C1. From the empty initial state, after every transaction that did
    not revert, every provider record has [poolBalance >= 0] and
    [totalLocked <= poolBalance]; and the internal proportional
    distribution keeps this from any state that has it. *)
Theorem pool_invariant :
  (forall st : State L, reachable st ->
     forall a : address,
       0 <= poolBalance (providers st !!! a) /\
       totalLocked (providers st !!! a) <= poolBalance (providers st !!! a)) /\
  (forall (prov : address) (st st' : State L),
     pool_inv st -> _processProportionalCompensations prov st = Ok st' -> pool_inv st').
Proof.
  split.
  - intros st Hreach. change (pool_inv st).
    induction Hreach as [tok o | st m c st' _ IH Hwt Hrun].
    + apply initial_pool_inv.
    + eapply run_pool_inv; eassumption.
  - intros prov st st'. apply process_pool_inv.
Qed.

(** ** [initiateClaim] *)

Lemma record_Ok now cid cl prov amt (st st' : State L) :
  _recordPendingCompensation now cid cl prov amt st = Ok st' ->
  entry_recorded now cid cl prov amt st st' /\
  providers st' = providers st /\ claims st' = claims st /\
  totalClaimsInitiated st' = totalClaimsInitiated st.
Proof.
  unfold _recordPendingCompensation, entry_recorded. intros H. inv_ok. subst. simpl. done.
Qed.

Lemma initiateClaim_Ok m cid prov amt why (st st' : State L) :
  initiateClaim m cid prov amt why st = Ok st' ->
  let A := total_available st prov in
  exists paid pending claimStatus,
    (amt <= A /\ paid = amt /\ pending = 0 /\ claimStatus = INITIATED /\
       no_entry_recorded st st' \/
     0 < A < amt /\ paid = A /\ pending = amt - A /\ claimStatus = PARTIAL /\
       entry_recorded (block_timestamp m) cid (msg_sender m) prov pending st st' \/
     A <= 0 /\ paid = 0 /\ pending = amt /\ claimStatus = PARTIAL /\
       entry_recorded (block_timestamp m) cid (msg_sender m) prov pending st st') /\
    claims st' =
      <[cid := mkClaimInfo (msg_sender m) prov amt paid pending (block_timestamp m)
                 (block_timestamp m + _getDisputePeriod amt) why claimStatus]> (claims st).
Proof.
  intros H A. unfold initiateClaim in H. inv_ok. bool_to_prop.
  match goal with H : _ = Ok ?x |- _ =>
    match type of x with (_ * State L)%type =>
      destruct x as [[[paid pending] claimStatus] st1]; rename H into Hsched end end.
  inv_ok.
  match goal with H : _ = Ok ?s |- _ =>
    match type of H with (if 0 <? paid then _ else _) = _ =>
      rename s into st2, H into Hlock end end.
  assert (pendingCompensations st2 = pendingCompensations st1 /\
          providerPendingCompensations st2 = providerPendingCompensations st1 /\
          totalPendingCompensations st2 = totalPendingCompensations st1 /\
          claims st2 = claims st1) as (Hl1 & Hl2 & Hl3 & Hl4).
  { destruct (0 <? paid); inv_ok; by subst. }
  assert (A = total_available st prov) as HA by reflexivity. unfold total_available in HA.
  exists paid, pending, claimStatus. subst st'. simpl.
  unfold no_entry_recorded, entry_recorded. simpl. rewrite Hl1, Hl2, Hl3, Hl4.
  repeat match type of Hsched with (if ?b then _ else _) = _ => destruct b eqn:? end;
    inv_ok; bool_to_prop; subst;
    try match goal with H : _recordPendingCompensation _ _ _ _ _ _ = Ok _ |- _ =>
      apply record_Ok in H as ((? & ? & ?) & ? & ? & ?) end.
  - split; [left; repeat split; lia|done].
  - split; [right; left; repeat split; try done; lia|]. congruence.
  - split; [right; right; repeat split; try done; lia|]. congruence.
Qed.

Lemma MAX_UINT256_large : 10 ^ 30 <= MAX_UINT256.
Proof. apply Z.leb_le. vm_compute. reflexivity. Qed.

Lemma checked_add_fits (a b : Z) : a + b <= MAX_UINT256 -> checked_add a b = Ok (a + b).
Proof. intros. by apply checked_add_Ok. Qed.

Lemma checked_sub_fits (a b : Z) : b <= a -> checked_sub a b = Ok (a - b).
Proof. intros. by apply checked_sub_Ok. Qed.

Lemma checked_mul_fits (a b : Z) : a * b <= MAX_UINT256 -> checked_mul a b = Ok (a * b).
Proof. intros. by apply checked_mul_Ok. Qed.

Lemma require_holds (b : bool) (msg : string) : b = true -> require b msg = Ok tt.
Proof. intros ->. reflexivity. Qed.

Lemma required_for_fits (x : Z) :
  0 <= x <= MAX_CLAIM_AMOUNT ->
  required_for x = Ok (x + x * PENALTY_RATE / 10000 + x * PLATFORM_FEE_RATE / 10000).
Proof.
  intros Hx. pose proof MAX_UINT256_large.
  unfold MAX_CLAIM_AMOUNT, PENALTY_RATE, PLATFORM_FEE_RATE in *.
  assert (x * 1000 / 10000 <= x * 1000) by (apply Z.div_le_upper_bound; lia).
  assert (x * 100 / 10000 <= x * 100) by (apply Z.div_le_upper_bound; lia).
  unfold required_for, bps, PENALTY_RATE, PLATFORM_FEE_RATE.
  rewrite !checked_mul_fits by lia. simpl.
  rewrite !checked_add_fits by lia. simpl.
  rewrite !checked_add_fits by lia. reflexivity.
Qed.

Lemma _getDisputePeriod_le (amt : Z) : 0 <= _getDisputePeriod amt <= 1800.
Proof.
  unfold _getDisputePeriod.
  repeat match goal with |- context [if ?b then _ else _] => destruct b end; lia.
Qed.

Lemma initiateClaim_returns m cid prov amt why (st : State L) :
  MIN_CLAIM_AMOUNT <= amt <= MAX_CLAIM_AMOUNT ->
  initiatedAt (claims st !!! cid) = 0 ->
  isActive (providers st !!! prov) = true ->
  initiate_headroom m prov amt st ->
  exists st', initiateClaim m cid prov amt why st = Ok st'.
Proof.
  intros Hamt Hfresh Hactive (HE & HP & HA & Hpool & Hlock & Hpend & Hnow & Hcount).
  pose proof (_getDisputePeriod_le amt) as Hperiod.
  pose proof (available_of_spec (providers st !!! prov)) as Hav.
  unfold total_available in HA.
  assert (0 < MIN_CLAIM_AMOUNT) as Hmin by reflexivity.
  unfold initiateClaim.
  rewrite require_holds by (apply andb_true_iff; split; apply Z.leb_le; lia). cbn [bind].
  rewrite require_holds by (by apply Z.eqb_eq). cbn [bind].
  rewrite require_holds by done. cbn [bind].
  rewrite required_for_fits by lia. cbn [bind].
  rewrite checked_add_fits by lia. cbn [bind].
  rewrite checked_add_fits by lia. cbn [bind].
  set (A := available_of (providers st !!! prov) + emergencyPool st + platformInsuranceFund st) in *.
  destruct (Z.leb_spec amt A).
  { cbn [bind]. assert ((0 <? amt) = true) as -> by (apply Z.ltb_lt; lia).
    rewrite required_for_fits by lia. cbn [bind].
    pose proof (required_for_ge amt _ ltac:(lia) (required_for_fits amt ltac:(lia))).
    rewrite checked_add_fits
      by (destruct (_ <=? available_of _) eqn:?; bool_to_prop; lia).
    cbn [bind]. rewrite checked_add_fits by lia. cbn [bind].
    rewrite checked_add_fits by (simpl; lia). eexists. reflexivity. }
  destruct (Z.ltb_spec 0 A).
  { rewrite checked_sub_fits by lia. cbn [bind].
    unfold _recordPendingCompensation. simpl.
    rewrite checked_add_fits by lia. cbn [bind].
    assert ((0 <? A) = true) as -> by (apply Z.ltb_lt; lia).
    rewrite required_for_fits by lia. cbn [bind].
    pose proof (required_for_ge A _ ltac:(lia) (required_for_fits A ltac:(lia))).
    rewrite checked_add_fits
      by (destruct (_ <=? available_of _) eqn:?; bool_to_prop; lia).
    cbn [bind]. rewrite checked_add_fits by lia. cbn [bind].
    rewrite checked_add_fits by (simpl; lia). eexists. reflexivity. }
  unfold _recordPendingCompensation. simpl.
  rewrite checked_add_fits by lia. cbn [bind]. simpl.
  rewrite checked_add_fits by lia. cbn [bind].
  rewrite checked_add_fits by (simpl; lia). eexists. reflexivity.
Qed.

(** C3. The decision rule of [initiateClaim]: with [available] the
    provider's unlocked balance (floored at zero) plus the emergency pool
    plus the platform fund, a valid call schedules full payment when
    [available >= amount], exactly [available] when [0 < available < amount],
    and nothing when [available = 0]; the last two record a
    [PendingCompensation] entry for the remainder and leave the claim
    [PARTIAL], the first records none and leaves it [INITIATED].  The call
    returns whenever no storage word is about to overflow. *)
Theorem initiateClaim_decision_rule m cid prov amt why (st : State L) :
  MIN_CLAIM_AMOUNT <= amt <= MAX_CLAIM_AMOUNT ->
  initiatedAt (claims st !!! cid) = 0 ->
  isActive (providers st !!! prov) = true ->
  let available := total_available st prov in
  (forall st', initiateClaim m cid prov amt why st = Ok st' ->
     let claim := claims st' !!! cid in
     requestedAmount claim = amt /\
     (available >= amt ->
        paidAmount claim = amt /\ pendingAmount claim = 0 /\ status claim = INITIATED /\
        no_entry_recorded st st') /\
     (0 < available < amt ->
        paidAmount claim = available /\ pendingAmount claim = amt - available /\
        status claim = PARTIAL /\
        entry_recorded (block_timestamp m) cid (msg_sender m) prov (amt - available) st st') /\
     (available = 0 ->
        paidAmount claim = 0 /\ pendingAmount claim = amt /\ status claim = PARTIAL /\
        entry_recorded (block_timestamp m) cid (msg_sender m) prov amt st st')) /\
  (initiate_headroom m prov amt st ->
     exists st', initiateClaim m cid prov amt why st = Ok st').
Proof.
  intros Hamt Hfresh Hactive available. split; [|by apply initiateClaim_returns].
  intros st' H claim. assert (0 < MIN_CLAIM_AMOUNT) as Hmin by reflexivity.
  apply initiateClaim_Ok in H as (paid & pending & claimStatus & Hcase & Hclaims).
  fold available in Hcase. unfold claim. rewrite Hclaims, lookup_total_insert_eq. simpl.
  destruct Hcase as [(? & -> & -> & -> & ?)|[(? & -> & -> & -> & ?)|(? & -> & -> & -> & ?)]];
    (split; [reflexivity|]);
    (split; [|split]); intros; try (exfalso; lia); try done.
Qed.

(** ** The claim invariant *)

Ltac claim_cases c :=
  match goal with
  | |- context [<[?k := _]> _ !!! c] =>
      destruct (decide (c = k)) as [->|?];
      [rewrite !lookup_total_insert_eq | rewrite !lookup_total_insert_ne by done]
  end.

Lemma pay_entry_claims_inv prov A T cid (st st' : State L) :
  claims_inv st -> pay_entry prov A T cid st = Ok st' -> claims_inv st'.
Proof.
  intros Hinv H.
  apply pay_entry_Ok in H as [[_ ->]|(_ & _ & _ & _ & _ & _ & _ & _ & _ & tok & _ & ->)];
    [done|].
  intros c. simpl. claim_cases c; [|apply Hinv].
  specialize (Hinv cid). unfold claim_ok in *. simpl. lia.
Qed.

Lemma pay_loop_claims_inv prov A T l : forall st st' : State L,
  claims_inv st -> pay_loop prov A T l st = Ok st' -> claims_inv st'.
Proof.
  induction l as [|cid l IH]; simpl; intros st st' Hinv H.
  - by injection H as <-.
  - inv_ok. eapply IH; [|eassumption]. eapply pay_entry_claims_inv; eassumption.
Qed.

Lemma process_claims_inv prov (st st' : State L) :
  claims_inv st -> _processProportionalCompensations prov st = Ok st' -> claims_inv st'.
Proof.
  intros Hinv H. unfold _processProportionalCompensations in H.
  repeat first [ inv_ok_step
               | match type of H with (if ?b then _ else _) = _ => destruct b end ];
    subst; try done.
  intros c. simpl. eapply pay_loop_claims_inv; eassumption.
Qed.

Lemma initiateClaim_claims_inv m cid prov amt why (st st' : State L) :
  claims_inv st -> initiateClaim m cid prov amt why st = Ok st' -> claims_inv st'.
Proof.
  intros Hinv H.
  apply initiateClaim_Ok in H as (paid & pending & claimStatus & Hcase & Hclaims).
  intros c. rewrite Hclaims. claim_cases c; [|apply Hinv].
  unfold claim_ok. simpl.
  destruct Hcase as [(? & -> & -> & _)|[(? & -> & -> & _)|(? & -> & -> & _)]]; lia.
Qed.

Lemma executeClaim_claims_inv m cid (st st' : State L) :
  claims_inv st -> executeClaim m cid st = Ok st' -> claims_inv st'.
Proof.
  intros Hinv H. unfold executeClaim in H. inv_ok.
  match goal with H : _ = Ok ?s |- _ =>
    match type of H with (if 0 <? paidAmount _ then _ else _) = _ =>
      rename s into st1, H into Hpay end end.
  assert (claims st1 = claims st) as Hsame.
  { repeat first [ inv_ok_step
                 | match type of Hpay with (if ?b then _ else _) = _ => destruct b end
                 | match goal with H : (if ?b then _ else _) = Ok _ |- _ => destruct b end ];
      by subst. }
  destruct (pendingAmount (claims st !!! cid) =? 0); inv_ok; subst; intros c; simpl;
    rewrite Hsame; (claim_cases c; [|apply Hinv]); apply (Hinv cid).
Qed.

Lemma disputeClaim_claims_inv m cid evidence (st st' : State L) :
  claims_inv st -> disputeClaim m cid evidence st = Ok st' -> claims_inv st'.
Proof.
  intros Hinv H. unfold disputeClaim in H.
  repeat first [ inv_ok_step
               | match type of H with (if ?b then _ else _) = _ => destruct b end ];
    subst; intros c; simpl; (claim_cases c; [|apply Hinv]); apply (Hinv cid).
Qed.

Lemma run_claims_inv m c (st st' : State L) :
  claims_inv st -> run m c st = Ok st' -> claims_inv st'.
Proof.
  intros Hinv H. destruct c; simpl in H.
  - unfold registerOrReactivate in H. inv_ok.
    destruct (Nat.ltb _ _); [|by inv_ok; subst].
    eapply process_claims_inv; [|eassumption]. done.
  - unfold depositAdditional in H. inv_ok.
    destruct (Nat.ltb _ _); [|by inv_ok; subst].
    eapply process_claims_inv; [|eassumption]. done.
  - unfold withdraw in H. inv_ok. by subst.
  - unfold withdrawAllAndDeactivate in H. inv_ok.
    destruct (0 <? _); inv_ok; by subst.
  - eapply initiateClaim_claims_inv; eassumption.
  - eapply executeClaim_claims_inv; eassumption.
  - eapply disputeClaim_claims_inv; eassumption.
  - unfold fundEmergencyPool in H. inv_ok. by subst.
  - unfold fundPlatformInsurance in H. inv_ok. by subst.
Qed.

(** C2. [paidAmount + pendingAmount = requestedAmount] for every claim
    record: [initiateClaim] establishes it for the claim it creates,
    [executeClaim], [disputeClaim] and the proportional distribution
    preserve it, and so it holds in every reachable state (for the
    all-zero record of an absent claim as well). *)
Theorem claim_amounts_invariant :
  (forall m cid prov amt why (st st' : State L),
     initiateClaim m cid prov amt why st = Ok st' ->
     claim_ok (claims st' !!! cid)) /\
  (forall m cid (st st' : State L),
     claims_inv st -> executeClaim m cid st = Ok st' -> claims_inv st') /\
  (forall m cid evidence (st st' : State L),
     claims_inv st -> disputeClaim m cid evidence st = Ok st' -> claims_inv st') /\
  (forall prov (st st' : State L),
     claims_inv st -> _processProportionalCompensations prov st = Ok st' -> claims_inv st') /\
  (forall st : State L, reachable st ->
     forall cid : bytes32,
       0 < initiatedAt (claims st !!! cid) ->
       paidAmount (claims st !!! cid) + pendingAmount (claims st !!! cid)
       = requestedAmount (claims st !!! cid)).
Proof.
  repeat split.
  - intros m cid prov amt why st st' H.
    apply initiateClaim_Ok in H as (paid & pending & claimStatus & Hcase & Hclaims).
    rewrite Hclaims, lookup_total_insert_eq. unfold claim_ok. simpl.
    destruct Hcase as [(? & -> & -> & _)|[(? & -> & -> & _)|(? & -> & -> & _)]]; lia.
  - intros m cid st st'. apply executeClaim_claims_inv.
  - intros m cid evidence st st'. apply disputeClaim_claims_inv.
  - intros prov st st'. apply process_claims_inv.
  - intros st Hreach cid _. revert cid. change (claims_inv st).
    induction Hreach as [tok o | st m c st' _ IH Hwt Hrun].
    + intros cid. simpl. rewrite lookup_total_empty. reflexivity.
    + eapply run_claims_inv; eassumption.
Qed.

(** ** [executeClaim] *)

(** C7. A successful [executeClaim] on a claim scheduled for [P > 0]
    takes [required = P + penalty + fee] from the provider's pool as far
    as the pool reaches, the shortfall from the emergency pool and what is
    still missing from the platform fund; credits [penalty / 2] to the
    emergency pool and [penalty / 2 + fee] to the platform fund; transfers
    exactly [P] to the client; and marks the claim [EXECUTED], counting a
    successful service, when nothing is pending, [PARTIAL] otherwise. *)
Theorem executeClaim_settlement m cid (st st' : State L) :
  executeClaim m cid st = Ok st' ->
  let claim := claims st !!! cid in
  let prov := provider claim in
  let providerData := providers st !!! prov in
  let P := paidAmount claim in
  0 < P ->
  0 <= poolBalance providerData ->
  0 <= emergencyPool st ->
  let penalty := P * PENALTY_RATE / 10000 in
  let fee := P * PLATFORM_FEE_RATE / 10000 in
  let required := P + penalty + fee in
  let fromProvider := Z.min required (poolBalance providerData) in
  let shortfall := required - fromProvider in
  let fromEmergency := Z.min shortfall (emergencyPool st) in
  let fromPlatform := shortfall - fromEmergency in
  poolBalance (providers st' !!! prov) = poolBalance providerData - fromProvider /\
  totalProviderPools st' = totalProviderPools st - fromProvider /\
  emergencyPool st' = emergencyPool st - fromEmergency + penalty / 2 /\
  platformInsuranceFund st' = platformInsuranceFund st - fromPlatform + (penalty / 2 + fee) /\
  transfer (client claim) P (usdcToken st) = Some (usdcToken st') /\
  (pendingAmount claim = 0 ->
     status (claims st' !!! cid) = EXECUTED /\
     successfulServices (providers st' !!! prov) = successfulServices providerData + 1) /\
  (pendingAmount claim <> 0 ->
     status (claims st' !!! cid) = PARTIAL /\
     successfulServices (providers st' !!! prov) = successfulServices providerData).
Proof.
  intros H claim prov providerData P HP Hpool0 HE. cbv zeta.
  unfold executeClaim in H. fold claim prov P providerData in H. inv_ok.
  assert ((0 <? P) = true) as HP' by (by apply Z.ltb_lt).
  rewrite HP' in *. inv_ok.
  repeat match goal with H : bps _ _ = Ok _ |- _ => apply bps_Ok in H as [-> ?] end.
  repeat match goal with H : ?x = _ + _ |- _ => is_var x; subst x end.
  set (penalty := P * PENALTY_RATE / 10000) in *.
  set (fee := P * PLATFORM_FEE_RATE / 10000) in *.
  set (required := P + penalty + fee) in *.
  assert (0 <= penalty) by (apply Z.div_pos; unfold PENALTY_RATE; lia).
  assert (0 <= fee) by (apply Z.div_pos; unfold PLATFORM_FEE_RATE; lia).
  set (fromProvider := Z.min required (poolBalance providerData)).
  set (shortfall := required - fromProvider).
  set (fromEmergency := Z.min shortfall (emergencyPool st)).
  set (fromPlatform := shortfall - fromEmergency).
  match goal with H : _ = Ok ?s |- _ =>
    match type of H with (if _ <? required then _ else _) = _ =>
      rename s into st_b, H into Hb end end.
  match goal with H : _ = Ok ?s |- _ =>
    match type of H with (if 0 <? _ then _ else _) = _ =>
      rename s into st_a, H into Ha end end.
  assert ((if required <=? poolBalance providerData then required
           else poolBalance providerData) = fromProvider) as Hfp.
  { unfold fromProvider. destruct (Z.leb_spec required (poolBalance providerData)); lia. }
  rewrite Hfp in *.
  assert (providers st_a !!! prov = set_totalLocked (totalLocked (providers st_a !!! prov))
            (set_poolBalance (poolBalance providerData - fromProvider) providerData) /\
          totalProviderPools st_a = totalProviderPools st - fromProvider /\
          emergencyPool st_a = emergencyPool st /\
          platformInsuranceFund st_a = platformInsuranceFund st /\
          usdcToken st_a = usdcToken st /\ claims st_a = claims st)
    as (Hpa & Hta & Hea & Hfa & Hua & Hca).
  { destruct (Z.ltb_spec 0 fromProvider); inv_ok; subst; simpl.
    - rewrite lookup_total_insert_eq. done.
    - assert (fromProvider = 0) as -> by (unfold fromProvider, required in *; lia).
      rewrite !Z.sub_0_r. fold providerData. by destruct providerData. }
  assert (providers st_b = providers st_a /\
          totalProviderPools st_b = totalProviderPools st_a /\
          emergencyPool st_b = emergencyPool st - fromEmergency /\
          platformInsuranceFund st_b = platformInsuranceFund st - fromPlatform /\
          usdcToken st_b = usdcToken st /\ claims st_b = claims st)
    as (Hpb & Htb & Heb & Hfb & Hub & Hcb).
  { unfold fromPlatform, fromEmergency, shortfall.
    rewrite Hea in Hb.
    repeat first [ inv_ok_step
                 | match type of Hb with (if ?b then _ else _) = _ => destruct b eqn:? end ];
      bool_to_prop; subst; simpl; repeat split; try done; lia. }
  assert (successfulServices (providers st_a !!! prov) = successfulServices providerData)
    as Hsucc by (by rewrite Hpa).
  assert (poolBalance (providers st_a !!! prov) = poolBalance providerData - fromProvider)
    as Hpool by (by rewrite Hpa).
  destruct (Z.eqb_spec (pendingAmount claim) 0); inv_ok; subst; simpl;
    rewrite ?lookup_total_insert_eq; simpl;
    rewrite ?Hpb, ?Htb, ?Hta, ?Hcb, ?Heb, ?Hfb, ?Hpool, ?Hsucc;
    repeat split; try done; try lia; try congruence.
Qed.

(** ** Queue compaction *)

(** The in-place compaction is a filter: it keeps, in order, the entries
    that are not marked paid. *)
Lemma compact_loop_spec (pcs : gmap Z PendingCompensation) (rest : list Z) :
  forall kept junk : list Z,
    let r := compact_loop pcs (length rest) (length kept + length junk) (length kept)
               (kept ++ junk ++ rest) in
    take r.2 r.1 = kept ++ filter (fun cid => isPaid (pcs !!! cid) = false) rest.
Proof.
  induction rest as [|c rest IH]; intros kept junk; simpl.
  - rewrite app_nil_r, take_app_length. by rewrite app_nil_r.
  - assert ((kept ++ junk ++ c :: rest) !!! (length kept + length junk)%nat = c) as ->.
    { apply list_lookup_total_correct.
      rewrite app_assoc, lookup_app_r by (rewrite length_app; lia).
      rewrite length_app. by replace (_ - _)%nat with 0%nat by lia. }
    destruct (isPaid (pcs !!! c)) eqn:Hpaid; simpl.
    + rewrite filter_cons_False by (rewrite Hpaid; done).
      specialize (IH kept (junk ++ [c])). simpl in IH.
      rewrite length_app in IH. simpl in IH.
      replace (S (length kept + length junk)) with (length kept + (length junk + 1))%nat by lia.
      by rewrite <- !app_assoc in IH.
    + rewrite filter_cons_True by done.
      destruct junk as [|j junk]; simpl.
      * rewrite Nat.add_0_r, Nat.eqb_refl.
        specialize (IH (kept ++ [c]) []). simpl in IH.
        rewrite length_app in IH. simpl in IH. rewrite Nat.add_0_r in IH.
        rewrite <- !app_assoc in IH. simpl in IH.
        by replace (S (length kept)) with (length kept + 1)%nat by lia.
      * replace (Nat.eqb (length kept + S (length junk)) (length kept)) with false
          by (symmetry; apply Nat.eqb_neq; lia).
        assert (<[length kept := c]> (kept ++ j :: junk ++ c :: rest)
                = (kept ++ [c]) ++ (junk ++ [c]) ++ rest) as ->.
        { rewrite insert_app_r_alt by lia. rewrite Nat.sub_diag. simpl.
          by rewrite <- !app_assoc. }
        specialize (IH (kept ++ [c]) (junk ++ [c])). simpl in IH.
        rewrite !length_app in IH. simpl in IH.
        replace (S (length kept + S (length junk)))
          with (length kept + 1 + (length junk + 1))%nat by lia.
        replace (S (length kept)) with (length kept + 1)%nat by lia.
        rewrite IH. by rewrite <- !app_assoc.
Qed.

Lemma compact_filter (pcs : gmap Z PendingCompensation) (l : list Z) :
  compact pcs l = filter (fun cid => isPaid (pcs !!! cid) = false) l.
Proof.
  unfold compact. pose proof (compact_loop_spec pcs l [] []) as H. simpl in H.
  destruct (compact_loop pcs (length l) 0 0 l) as [l' w]. exact H.
Qed.

(** ** The distributor *)

Lemma sum_pending_settled (pcs : gmap Z PendingCompensation) (l : list Z) (acc : Z) :
  (forall cid, cid ∈ l -> unsettled (pcs !!! cid) = false) ->
  sum_pending pcs l acc = Ok acc.
Proof.
  induction l as [|c l IH]; simpl; intros Hall; [done|].
  rewrite (Hall c) by (left; done). apply IH. intros cid Hin. apply Hall. by right.
Qed.

Lemma total_owed_settled (pcs : gmap Z PendingCompensation) (l : list Z) :
  (forall cid, cid ∈ l -> unsettled (pcs !!! cid) = false) ->
  total_owed pcs l = 0.
Proof.
  induction l as [|c l IH]; simpl; intros Hall; [done|].
  unfold owed at 1. rewrite (Hall c) by (left; done). rewrite IH; [done|].
  intros cid Hin. apply Hall. by right.
Qed.

(** Unfolding of a distribution that returned: either it was one of the
    early returns, or it ran the payment loop and compacted the queue. *)
Lemma process_Ok prov (st st' : State L) :
  _processProportionalCompensations prov st = Ok st' ->
  let l := providerPendingCompensations st !!! prov in
  let A := available_of (providers st !!! prov) in
  let T := total_owed (pendingCompensations st) l in
  st' = st /\ (l = [] \/ A = 0 \/ T = 0) \/
  l <> [] /\ A <> 0 /\ T <> 0 /\
  exists st1, pay_loop prov A T l st = Ok st1 /\
    st' = set_providerPendingCompensations
            (<[prov := compact (pendingCompensations st1) l]>
               (providerPendingCompensations st1)) st1.
Proof.
  intros H l A T. unfold _processProportionalCompensations in H. fold l A in H.
  destruct (Nat.eqb_spec (length l) 0) as [Hlen|Hlen].
  { injection H as <-. left. split; [done|]. left. by apply nil_length_inv. }
  destruct (Z.eqb_spec A 0) as [HA|HA].
  { injection H as <-. left. auto. }
  inv_ok.
  match goal with H : sum_pending _ _ _ = Ok ?x |- _ =>
    apply sum_pending_spec in H; rewrite Z.add_0_l in H; fold T in H; subst x end.
  destruct (Z.eqb_spec T 0) as [HT|HT].
  { injection H as <-. left. auto. }
  inv_ok. right. repeat split; try done.
  - intros Hnil. rewrite Hnil in Hlen. done.
  - eexists. split; [eassumption|]. by subst.
Qed.

Lemma pay_entry_settled_mono prov A T cid (st st' : State L) :
  pay_entry prov A T cid st = Ok st' ->
  forall c, unsettled (pendingCompensations st !!! c) = false ->
            unsettled (pendingCompensations st' !!! c) = false.
Proof.
  intros H c Hc.
  apply pay_entry_Ok in H as [[_ ->]|(Hp & _ & _ & _ & _ & _ & _ & _ & _ & tok & _ & ->)];
    [done|].
  apply share_unsettled in Hp. simpl.
  rewrite lookup_total_insert_ne by congruence. done.
Qed.

(** When the funds cover everything owed, an entry is settled in full. *)
Lemma share_full A T comp : 0 < T <= A -> unsettled comp = true -> share A T comp = amount comp.
Proof.
  intros HTA Hu. unfold share. rewrite Hu.
  assert (0 < amount comp).
  { unfold unsettled in Hu. apply andb_true_iff in Hu as [_ Hu]. by apply Z.ltb_lt. }
  assert (amount comp <= A * amount comp / T) by (apply Z.div_le_lower_bound; nia).
  destruct (Z.ltb_spec (amount comp) (A * amount comp / T)); lia.
Qed.

Lemma pay_entry_settles prov A T cid (st st' : State L) :
  0 < T <= A ->
  pay_entry prov A T cid st = Ok st' ->
  unsettled (pendingCompensations st' !!! cid) = false.
Proof.
  intros HTA H. destruct (unsettled (pendingCompensations st !!! cid)) eqn:Hu.
  - pose proof (share_full A T _ HTA Hu) as Hfull.
    assert (0 < amount (pendingCompensations st !!! cid)).
    { unfold unsettled in Hu. apply andb_true_iff in Hu as [_ Hu]. by apply Z.ltb_lt. }
    apply pay_entry_Ok in H as [[Hp _]|(Hp & _ & _ & _ & _ & _ & _ & _ & _ & tok & _ & ->)];
      [lia|].
    simpl. rewrite lookup_total_insert_eq, Hfull, Z.sub_diag. reflexivity.
  - eapply pay_entry_settled_mono; eassumption.
Qed.

Lemma pay_loop_settles prov A T l : forall st st' : State L,
  0 < T <= A ->
  pay_loop prov A T l st = Ok st' ->
  (forall c, unsettled (pendingCompensations st !!! c) = false ->
             unsettled (pendingCompensations st' !!! c) = false) /\
  (forall c, c ∈ l -> unsettled (pendingCompensations st' !!! c) = false).
Proof.
  induction l as [|cid l IH]; simpl; intros st st' HTA H.
  - injection H as <-. split; [done|]. intros c Hc. by apply elem_of_nil in Hc.
  - inv_ok.
    match goal with H : pay_entry _ _ _ _ _ = Ok ?s |- _ => rename s into st1, H into H1 end.
    destruct (IH _ _ HTA H) as [Hmono Hall]. split.
    + intros c Hc. apply Hmono. eapply pay_entry_settled_mono; eassumption.
    + intros c Hc. apply elem_of_cons in Hc as [->|Hc]; [|by apply Hall].
      apply Hmono. eapply pay_entry_settles; eassumption.
Qed.

(** ** Proportionality *)

Lemma share_nonneg A T comp : 0 <= A -> 0 < T -> 0 <= share A T comp.
Proof.
  intros HA HT. unfold share, unsettled.
  destruct (isPaid comp); simpl; [lia|].
  destruct (Z.ltb_spec 0 (amount comp)); [|lia].
  assert (0 <= A * amount comp / T) by (apply Z.div_pos; nia).
  destruct (Z.ltb_spec (amount comp) (A * amount comp / T)); lia.
Qed.

(** Below full funding the cap never applies: the share is the floor. *)
Lemma share_floor A T comp :
  0 <= A < T -> unsettled comp = true ->
  share A T comp = A * amount comp / T /\
  share A T comp = Z.min (amount comp) (A * amount comp / T).
Proof.
  intros HAT Hu. unfold share. rewrite Hu.
  assert (0 < amount comp).
  { unfold unsettled in Hu. apply andb_true_iff in Hu as [_ Hu]. by apply Z.ltb_lt. }
  assert (A * amount comp / T <= amount comp).
  { apply Z.div_le_upper_bound; nia. }
  destruct (Z.ltb_spec (amount comp) (A * amount comp / T)); lia.
Qed.

Lemma total_share_le A T pcs l :
  0 <= A -> 0 < T -> T * total_share A T pcs l <= A * total_owed pcs l.
Proof.
  intros HA HT. induction l as [|c l IH]; simpl; [lia|].
  pose proof (share_le_owed A T (pcs !!! c) HA HT). nia.
Qed.

Lemma total_share_ext A T (pcs pcs' : gmap Z PendingCompensation) l :
  (forall cid, cid ∈ l -> pcs' !!! cid = pcs !!! cid) ->
  total_share A T pcs' l = total_share A T pcs l.
Proof.
  induction l as [|c l IH]; simpl; intros Hext; [done|].
  rewrite Hext by (left; done). rewrite IH; [done|]. intros cid Hin. apply Hext. by right.
Qed.

Lemma payouts_ext A T (pcs pcs' : gmap Z PendingCompensation) (cls cls' : gmap Z ClaimInfo) l :
  (forall cid, cid ∈ l -> pcs' !!! cid = pcs !!! cid) ->
  (forall cid, cid ∈ l -> client (cls' !!! cid) = client (cls !!! cid)) ->
  payouts A T pcs' cls' l = payouts A T pcs cls l.
Proof.
  induction l as [|c l IH]; simpl; intros Hext Hcl; [done|].
  rewrite Hext, Hcl by (left; done).
  rewrite IH; [done| |]; intros cid Hin; [apply Hext | apply Hcl]; by right.
Qed.

Lemma total_owed_Permutation (pcs : gmap Z PendingCompensation) l l' :
  l ≡ₚ l' -> total_owed pcs l = total_owed pcs l'.
Proof. induction 1; simpl; lia. Qed.

(** The payment loop over a queue without repetitions, entry by entry. *)
Lemma pay_loop_NoDup prov A T l : forall st st' : State L,
  0 <= A -> 0 < T -> NoDup l ->
  pay_loop prov A T l st = Ok st' ->
  (forall cid,
     pendingCompensations st' !!! cid =
       if decide (cid ∈ l)
       then comp_after (share A T (pendingCompensations st !!! cid))
              (pendingCompensations st !!! cid)
       else pendingCompensations st !!! cid) /\
  (forall cid,
     claims st' !!! cid =
       if decide (cid ∈ l)
       then claim_after (share A T (pendingCompensations st !!! cid)) (claims st !!! cid)
       else claims st !!! cid) /\
  poolBalance (providers st' !!! prov) =
    poolBalance (providers st !!! prov) - total_share A T (pendingCompensations st) l /\
  transfers (payouts A T (pendingCompensations st) (claims st) l) (usdcToken st)
    = Some (usdcToken st').
Proof.
  induction l as [|c l IH]; simpl; intros st st' HA HT Hnd H.
  - injection H as <-. repeat split; try done; try lia.
  - inv_ok. apply NoDup_cons in Hnd as [Hc Hnd].
    match goal with H : pay_entry _ _ _ _ _ = Ok ?s |- _ => rename s into st1, H into H1 end.
    destruct (IH _ _ HA HT Hnd H) as (Hpcs & Hcls & Hpool & Htok).
    pose proof (share_nonneg A T (pendingCompensations st !!! c) HA HT) as Hnn.
    assert (forall cid, cid ∈ l -> pendingCompensations st1 !!! cid
                                  = pendingCompensations st !!! cid) as Hext1.
    { intros cid Hin.
      apply pay_entry_Ok in H1
        as [[_ ->]|(_ & _ & _ & _ & _ & _ & _ & _ & _ & tok & _ & ->)]; [done|].
      simpl. rewrite lookup_total_insert_ne; [done|]. intros ->. done. }
    assert (forall cid, cid ∈ l -> claims st1 !!! cid = claims st !!! cid) as Hext2.
    { intros cid Hin.
      apply pay_entry_Ok in H1
        as [[_ ->]|(_ & _ & _ & _ & _ & _ & _ & _ & _ & tok & _ & ->)]; [done|].
      simpl. rewrite lookup_total_insert_ne; [done|]. intros ->. done. }
    rewrite (total_share_ext _ _ _ _ _ Hext1) in Hpool.
    rewrite (payouts_ext A T _ _ _ _ l Hext1) in Htok
      by (intros cid Hin; by rewrite Hext2).
    assert (pendingCompensations st1 !!! c
              = comp_after (share A T (pendingCompensations st !!! c))
                  (pendingCompensations st !!! c) /\
            claims st1 !!! c
              = claim_after (share A T (pendingCompensations st !!! c)) (claims st !!! c) /\
            poolBalance (providers st1 !!! prov)
              = poolBalance (providers st !!! prov) - share A T (pendingCompensations st !!! c) /\
            transfers (payouts A T (pendingCompensations st) (claims st) [c]) (usdcToken st)
              = Some (usdcToken st1)) as (Hc1 & Hc2 & Hc3 & Hc4).
    { unfold comp_after, claim_after. simpl.
      apply pay_entry_Ok in H1
        as [[Hp ->]|(Hp & _ & _ & _ & _ & _ & _ & _ & _ & tok & Htr & ->)].
      - assert (share A T (pendingCompensations st !!! c) = 0) as Hz by lia.
        rewrite Hz. simpl. repeat split; try done; lia.
      - assert ((0 <? share A T (pendingCompensations st !!! c)) = true) as ->
          by (by apply Z.ltb_lt).
        simpl. rewrite !lookup_total_insert_eq. simpl. rewrite Htr. done. }
    repeat split.
    + intros cid. rewrite Hpcs. destruct (decide (cid = c)) as [->|Hne].
      * rewrite decide_False by done. rewrite decide_True by (left; done). done.
      * destruct (decide (cid ∈ l)) as [Hin|Hin].
        -- rewrite decide_True by (by right). by rewrite Hext1.
        -- rewrite decide_False by (intros [?|?]%elem_of_cons; done).
           apply pay_entry_Ok in H1
             as [[_ ->]|(_ & _ & _ & _ & _ & _ & _ & _ & _ & tok & _ & ->)]; [done|].
           simpl. by rewrite lookup_total_insert_ne.
    + intros cid. rewrite Hcls. destruct (decide (cid = c)) as [->|Hne].
      * rewrite decide_False by done. rewrite decide_True by (left; done). done.
      * destruct (decide (cid ∈ l)) as [Hin|Hin].
        -- rewrite decide_True by (by right). by rewrite Hext1, Hext2.
        -- rewrite decide_False by (intros [?|?]%elem_of_cons; done).
           apply pay_entry_Ok in H1
             as [[_ ->]|(_ & _ & _ & _ & _ & _ & _ & _ & _ & tok & _ & ->)]; [done|].
           simpl. by rewrite lookup_total_insert_ne.
    + lia.
    + revert Hc4. simpl.
      destruct (0 <? share A T (pendingCompensations st !!! c)); simpl.
      * destruct (transfer _ _ _); [|done]. intros [= ->]. done.
      * intros [= ->]. done.
Qed.

Lemma amount_comp_after p comp : 0 <= p -> amount (comp_after p comp) = amount comp - p.
Proof.
  intros Hp. unfold comp_after. destruct (Z.ltb_spec 0 p); [|lia].
  by destruct (_ =? 0).
Qed.

Lemma amounts_claim_after p claim :
  0 <= p ->
  paidAmount (claim_after p claim) = paidAmount claim + p /\
  pendingAmount (claim_after p claim) = pendingAmount claim - p.
Proof. intros Hp. unfold claim_after. destruct (Z.ltb_spec 0 p); simpl; lia. Qed.

Lemma sum_pending_returns (pcs : gmap Z PendingCompensation) l acc :
  0 <= acc -> acc + total_owed pcs l <= MAX_UINT256 ->
  sum_pending pcs l acc = Ok (acc + total_owed pcs l).
Proof.
  revert acc. induction l as [|c l IH]; simpl; intros acc Hacc Hfit.
  - f_equal. lia.
  - pose proof (total_owed_nonneg pcs l). pose proof (owed_nonneg (pcs !!! c)) as Hc.
    unfold owed in *. destruct (unsettled (pcs !!! c)).
    + rewrite checked_add_fits by lia. cbn [bind]. rewrite IH by lia. f_equal. lia.
    + rewrite IH by lia. f_equal.
Qed.

Lemma pay_entry_returns prov A T cid (st : State L) :
  0 <= A -> 0 < T ->
  let comp := pendingCompensations st !!! cid in
  let claim := claims st !!! cid in
  let p := share A T comp in
  (unsettled comp = true ->
     A * amount comp <= MAX_UINT256 /\
     p <= pendingAmount claim /\
     paidAmount claim + p <= MAX_UINT256) ->
  p <= poolBalance (providers st !!! prov) ->
  p <= totalProviderPools st ->
  p <= totalPendingCompensations st ->
  (0 < p -> is_Some (transfer (client claim) p (usdcToken st))) ->
  exists st', pay_entry prov A T cid st = Ok st'.
Proof.
  intros HA HT comp claim p Hcomp Hpool Hpools Htotal Htok.
  unfold pay_entry. fold comp claim. subst p. unfold share in *.
  destruct (unsettled comp) eqn:Hu; [|by eexists].
  destruct Hcomp as (Hmul & Hpend & Hpaid); [done|].
  rewrite checked_mul_fits by done. cbn [bind].
  unfold checked_div. replace (T =? 0) with false by (symmetry; apply Z.eqb_neq; lia).
  cbn [bind].
  set (p := if amount comp <? A * amount comp / T then amount comp
            else A * amount comp / T) in *.
  destruct (Z.ltb_spec 0 p) as [Hp|Hp]; [|by eexists].
  assert (p <= amount comp).
  { subst p. destruct (Z.ltb_spec (amount comp) (A * amount comp / T)); lia. }
  rewrite checked_sub_fits by done. cbn [bind].
  rewrite checked_add_fits by done. cbn [bind].
  rewrite checked_sub_fits by done. cbn [bind].
  rewrite checked_sub_fits by done. cbn [bind].
  rewrite checked_sub_fits by done. cbn [bind].
  destruct (Htok Hp) as [tok ->]. cbn [require_token bind].
  rewrite checked_sub_fits by done. cbn [bind]. by eexists.
Qed.

Lemma pay_loop_returns prov A T l : forall st : State L,
  0 <= A -> 0 < T -> NoDup l ->
  distribution_headroom prov A T l st ->
  exists st', pay_loop prov A T l st = Ok st'.
Proof.
  induction l as [|c l IH]; intros st HA HT Hnd (Hent & Hpool & Hpools & Htotal & Htok);
    simpl in *; [by eexists|].
  apply NoDup_cons in Hnd as [Hc Hnd].
  pose proof (share_nonneg A T (pendingCompensations st !!! c) HA HT) as Hnn.
  assert (forall l', 0 <= total_share A T (pendingCompensations st) l') as Hts.
  { induction l' as [|c' l' IH']; simpl; [lia|].
    pose proof (share_nonneg A T (pendingCompensations st !!! c') HA HT). lia. }
  pose proof (Hts l) as Hl0.
  destruct (pay_entry_returns prov A T c st HA HT) as [st1 H1].
  { intros Hu. apply Hent; [by left|done]. }
  { lia. } { lia. } { lia. }
  { intros Hp. apply Z.ltb_lt in Hp. rewrite Hp in Htok.
    simpl in Htok. destruct (transfer _ _ _); [by eexists|]. by destruct Htok. }
  rewrite H1. cbn [bind].
  assert (forall cid, cid ∈ l -> pendingCompensations st1 !!! cid
                                = pendingCompensations st !!! cid) as Hext1.
  { intros cid Hin.
    apply pay_entry_Ok in H1
      as [[_ ->]|(_ & _ & _ & _ & _ & _ & _ & _ & _ & tok & _ & ->)]; [done|].
    simpl. rewrite lookup_total_insert_ne; [done|]. intros ->. done. }
  assert (forall cid, cid ∈ l -> claims st1 !!! cid = claims st !!! cid) as Hext2.
  { intros cid Hin.
    apply pay_entry_Ok in H1
      as [[_ ->]|(_ & _ & _ & _ & _ & _ & _ & _ & _ & tok & _ & ->)]; [done|].
    simpl. rewrite lookup_total_insert_ne; [done|]. intros ->. done. }
  apply IH; try done. unfold distribution_headroom.
  rewrite (total_share_ext _ _ _ _ _ Hext1).
  rewrite (payouts_ext A T _ _ _ _ l Hext1) by (intros cid Hin; by rewrite Hext2).
  split.
  { intros cid Hin. rewrite Hext1, Hext2 by done. apply Hent. by right. }
  apply pay_entry_Ok in H1
    as [[Hp ->]|(Hp & _ & _ & _ & _ & _ & _ & _ & _ & tok & Htr & ->)].
  - assert ((0 <? share A T (pendingCompensations st !!! c)) = false) as Hz
      by (apply Z.ltb_ge; lia).
    rewrite Hz in Htok. repeat split; try lia. done.
  - apply Z.ltb_lt in Hp as Hz. rewrite Hz in Htok. simpl in Htok. rewrite Htr in Htok.
    simpl. rewrite lookup_total_insert_eq. simpl. repeat split; try lia. done.
Qed.

Lemma process_returns prov (st : State L) :
  let l := providerPendingCompensations st !!! prov in
  let A := available_of (providers st !!! prov) in
  let T := total_owed (pendingCompensations st) l in
  NoDup l -> T <= MAX_UINT256 ->
  distribution_headroom prov A T l st ->
  exists st', _processProportionalCompensations prov st = Ok st'.
Proof.
  intros l A T Hnd HT Hhead. unfold _processProportionalCompensations. fold l A.
  destruct (Nat.eqb _ _); [by eexists|].
  destruct (Z.eqb_spec A 0); [by eexists|].
  pose proof (total_owed_nonneg (pendingCompensations st) l). fold T in H.
  rewrite sum_pending_returns by (fold T; lia). rewrite Z.add_0_l. fold T. cbn [bind].
  destruct (Z.eqb_spec T 0); [by eexists|].
  pose proof (available_of_spec (providers st !!! prov)). fold A in H0.
  destruct (pay_loop_returns prov A T l st) as [st1 ->]; try done; try lia.
  cbn [bind]. by eexists.
Qed.

(** C4. One distribution over a queue of distinct entries, with
    [0 < A < T]: every unsettled entry with remainder [r] is paid
    [p = A * r / T] (rounded down), which is also [min r (A * r / T)]; the
    payments are the token transfers made, they sum to at most [A], and
    they are the same for any other order of the queue.  The distribution
    returns whenever no storage word over- or underflows and the token
    accepts the transfers. *)
Theorem proportional_distribution prov (st : State L) :
  let l := providerPendingCompensations st !!! prov in
  let pcs := pendingCompensations st in
  let A := available_of (providers st !!! prov) in
  let T := total_owed pcs l in
  NoDup l ->
  0 < A < T ->
  (forall st',
   _processProportionalCompensations prov st = Ok st' ->
  (forall cid, cid ∈ l -> unsettled (pcs !!! cid) = true ->
     let r := amount (pcs !!! cid) in
     let p := A * r / T in
     p = Z.min r (A * r / T) /\
     amount (pendingCompensations st' !!! cid) = r - p /\
     paidAmount (claims st' !!! cid) = paidAmount (claims st !!! cid) + p /\
     pendingAmount (claims st' !!! cid) = pendingAmount (claims st !!! cid) - p) /\
  transfers (payouts A T pcs (claims st) l) (usdcToken st) = Some (usdcToken st') /\
  total_share A T pcs l <= A /\
  poolBalance (providers st' !!! prov)
    = poolBalance (providers st !!! prov) - total_share A T pcs l /\
  (forall l2 st2',
     l ≡ₚ l2 ->
     _processProportionalCompensations prov
       (set_providerPendingCompensations (<[prov := l2]> (providerPendingCompensations st)) st)
       = Ok st2' ->
     forall cid,
       pendingCompensations st2' !!! cid = pendingCompensations st' !!! cid /\
       claims st2' !!! cid = claims st' !!! cid)) /\
  (T <= MAX_UINT256 -> distribution_headroom prov A T l st ->
   exists st', _processProportionalCompensations prov st = Ok st').
Proof.
  intros l pcs A T Hnd HAT.
  split; [|intros HT Hhead; by apply process_returns].
  intros st' H.
  assert (0 <= A) as HA0 by lia. assert (0 < T) as HT0 by lia.
  apply process_Ok in H as [[_ Hcase]|(_ & _ & _ & st1 & Hloop & ->)].
  { fold l A pcs T in Hcase. exfalso. destruct Hcase as [Hl|[?|?]]; [|lia..].
    unfold T in HAT. rewrite Hl in HAT. simpl in HAT. lia. }
  fold l A pcs T in Hloop.
  destruct (pay_loop_NoDup _ _ _ _ _ _ HA0 HT0 Hnd Hloop)
    as (Hpcs & Hcls & Hpool & Htok).
  fold pcs in Hpcs, Hcls, Hpool, Htok. simpl.
  repeat split; try done.
  - destruct (share_floor A T (pcs !!! cid)) as [Hs Hm]; [lia|done|]. congruence.
  - rewrite Hpcs, decide_True by done.
    destruct (share_floor A T (pcs !!! cid)) as [Hs _]; [lia|done|].
    rewrite amount_comp_after by (apply share_nonneg; lia). by rewrite Hs.
  - rewrite Hcls, decide_True by done.
    destruct (share_floor A T (pcs !!! cid)) as [Hs _]; [lia|done|].
    destruct (amounts_claim_after (share A T (pcs !!! cid)) (claims st !!! cid)) as [-> _];
      [apply share_nonneg; lia|]. by rewrite Hs.
  - rewrite Hcls, decide_True by done.
    destruct (share_floor A T (pcs !!! cid)) as [Hs _]; [lia|done|].
    destruct (amounts_claim_after (share A T (pcs !!! cid)) (claims st !!! cid)) as [_ ->];
      [apply share_nonneg; lia|]. by rewrite Hs.
  - pose proof (total_share_le A T pcs l HA0 HT0) as Hle. fold T in Hle.
    apply (Z.mul_le_mono_pos_l _ _ T); lia.
  - apply process_Ok in H0. simpl in H0. rewrite lookup_total_insert_eq in H0.
    fold pcs A in H0. rewrite <- (total_owed_Permutation pcs l l2) in H0 by done.
    fold T in H0.
    destruct H0 as [[_ Hcase]|(_ & _ & _ & st3 & Hloop2 & ->)].
    { exfalso. destruct Hcase as [Hl|[?|?]]; [|lia..].
      rewrite Hl in H. apply Permutation_nil_r in H.
      unfold T in HAT. rewrite H in HAT. simpl in HAT. lia. }
    assert (NoDup l2) as Hnd2 by (by rewrite <- H).
    destruct (pay_loop_NoDup _ _ _ _ _ _ HA0 HT0 Hnd2 Hloop2)
      as (Hpcs2 & _ & _ & _).
    simpl in *. fold pcs in Hpcs2. rewrite Hpcs, Hpcs2.
    destruct (decide (cid ∈ l)) as [Hin|Hin].
    + rewrite decide_True by (by rewrite <- H). done.
    + rewrite decide_False by (by rewrite <- H). done.
  - apply process_Ok in H0. simpl in H0. rewrite lookup_total_insert_eq in H0.
    fold pcs A in H0. rewrite <- (total_owed_Permutation pcs l l2) in H0 by done.
    fold T in H0.
    destruct H0 as [[_ Hcase]|(_ & _ & _ & st3 & Hloop2 & ->)].
    { exfalso. destruct Hcase as [Hl|[?|?]]; [|lia..].
      rewrite Hl in H. apply Permutation_nil_r in H.
      unfold T in HAT. rewrite H in HAT. simpl in HAT. lia. }
    assert (NoDup l2) as Hnd2 by (by rewrite <- H).
    destruct (pay_loop_NoDup _ _ _ _ _ _ HA0 HT0 Hnd2 Hloop2)
      as (_ & Hcls2 & _ & _).
    simpl in *. fold pcs in Hcls2. rewrite Hcls, Hcls2.
    destruct (decide (cid ∈ l)) as [Hin|Hin].
    + rewrite decide_True by (by rewrite <- H). done.
    + rewrite decide_False by (by rewrite <- H). done.
Qed.

(** ** Queues hold distinct, existing claims *)

Lemma pay_entry_frame prov A T cid (st st' : State L) :
  pay_entry prov A T cid st = Ok st' ->
  providerPendingCompensations st' = providerPendingCompensations st /\
  forall c, initiatedAt (claims st' !!! c) = initiatedAt (claims st !!! c).
Proof.
  intros H.
  apply pay_entry_Ok in H as [[_ ->]|(_ & _ & _ & _ & _ & _ & _ & _ & _ & tok & _ & ->)];
    [done|].
  split; [done|]. intros c. simpl.
  destruct (decide (c = cid)) as [->|?];
    [by rewrite lookup_total_insert_eq | by rewrite lookup_total_insert_ne].
Qed.

Lemma pay_loop_frame prov A T l : forall st st' : State L,
  pay_loop prov A T l st = Ok st' ->
  providerPendingCompensations st' = providerPendingCompensations st /\
  forall c, initiatedAt (claims st' !!! c) = initiatedAt (claims st !!! c).
Proof.
  induction l as [|cid l IH]; simpl; intros st st' H.
  - by injection H as <-.
  - inv_ok.
    match goal with H : pay_entry _ _ _ _ _ = Ok _ |- _ =>
      apply pay_entry_frame in H as [Hq Hc] end.
    apply IH in H as [Hq' Hc']. split; [congruence|].
    intros c. by rewrite Hc', Hc.
Qed.

Lemma process_queue_inv prov (st st' : State L) :
  queue_inv st -> _processProportionalCompensations prov st = Ok st' -> queue_inv st'.
Proof.
  intros Hinv H.
  apply process_Ok in H as [[-> _]|(_ & _ & _ & st1 & Hloop & ->)]; [done|].
  apply pay_loop_frame in Hloop as [Hq Hc].
  intros a. simpl. rewrite Hq. destruct (Hinv a) as [Hnd Hex].
  destruct (decide (a = prov)) as [->|Hne].
  - rewrite lookup_total_insert_eq, compact_filter. split.
    + by apply NoDup_filter.
    + intros cid [_ Hin]%list_elem_of_filter. rewrite Hc. by apply Hex.
  - rewrite lookup_total_insert_ne by done. split; [done|].
    intros cid Hin. rewrite Hc. by apply Hex.
Qed.

Lemma initiateClaim_queue_inv m cid prov amt why (st st' : State L) :
  0 < block_timestamp m ->
  queue_inv st -> initiateClaim m cid prov amt why st = Ok st' -> queue_inv st'.
Proof.
  intros Hnow Hinv H. pose proof H as H0. unfold initiateClaim in H0.
  assert (initiatedAt (claims st !!! cid) = 0) as Hfresh.
  { inv_ok. bool_to_prop. done. }
  clear H0.
  apply initiateClaim_Ok in H as (paid & pending & claimStatus & Hcase & Hclaims).
  assert (forall a c, c ∈ providerPendingCompensations st !!! a -> c <> cid) as Hnotin.
  { intros a c Hin ->. destruct (Hinv a) as [_ Hex]. apply Hex in Hin. lia. }
  assert (forall c, c <> cid ->
            initiatedAt (claims st' !!! c) = initiatedAt (claims st !!! c)) as Hother.
  { intros c Hc. by rewrite Hclaims, lookup_total_insert_ne. }
  assert (0 < initiatedAt (claims st' !!! cid)) as Hnew.
  { rewrite Hclaims, lookup_total_insert_eq. done. }
  intros a. destruct (Hinv a) as [Hnd Hex].
  destruct Hcase as [(_ & _ & _ & _ & _ & Hq & _)
                    |[(_ & _ & _ & _ & _ & Hq & _)|(_ & _ & _ & _ & _ & Hq & _)]];
    rewrite Hq.
  - split; [done|]. intros c Hin. rewrite Hother by eauto. by apply Hex.
  - destruct (decide (a = prov)) as [->|Hne].
    + rewrite lookup_total_insert_eq. split.
      * apply NoDup_app. repeat split; [done| |apply NoDup_singleton].
        intros c Hin ->%list_elem_of_singleton. by eapply Hnotin.
      * intros c [Hin| ->%list_elem_of_singleton]%elem_of_app; [|done].
        rewrite Hother by eauto. by apply Hex.
    + rewrite lookup_total_insert_ne by done. split; [done|].
      intros c Hin. rewrite Hother by eauto. by apply Hex.
  - destruct (decide (a = prov)) as [->|Hne].
    + rewrite lookup_total_insert_eq. split.
      * apply NoDup_app. repeat split; [done| |apply NoDup_singleton].
        intros c Hin ->%list_elem_of_singleton. by eapply Hnotin.
      * intros c [Hin| ->%list_elem_of_singleton]%elem_of_app; [|done].
        rewrite Hother by eauto. by apply Hex.
    + rewrite lookup_total_insert_ne by done. split; [done|].
      intros c Hin. rewrite Hother by eauto. by apply Hex.
Qed.

Lemma executeClaim_frame m cid (st st' : State L) :
  executeClaim m cid st = Ok st' ->
  providerPendingCompensations st' = providerPendingCompensations st /\
  forall c, initiatedAt (claims st' !!! c) = initiatedAt (claims st !!! c).
Proof.
  intros H. unfold executeClaim in H. inv_ok.
  match goal with H : _ = Ok ?s |- _ =>
    match type of H with (if 0 <? paidAmount _ then _ else _) = _ =>
      rename s into st1, H into Hpay end end.
  assert (claims st1 = claims st /\
          providerPendingCompensations st1 = providerPendingCompensations st) as [Hc Hq].
  { repeat first [ inv_ok_step
                 | match type of Hpay with (if ?b then _ else _) = _ => destruct b end
                 | match goal with H : (if ?b then _ else _) = Ok _ |- _ => destruct b end ];
      by subst. }
  destruct (pendingAmount (claims st !!! cid) =? 0); inv_ok; subst; simpl;
    rewrite Hc; (split; [done|]); intros c;
    (destruct (decide (c = cid)) as [->|?];
      [by rewrite lookup_total_insert_eq | by rewrite lookup_total_insert_ne]).
Qed.

Lemma disputeClaim_frame m cid evidence (st st' : State L) :
  disputeClaim m cid evidence st = Ok st' ->
  providerPendingCompensations st' = providerPendingCompensations st /\
  forall c, initiatedAt (claims st' !!! c) = initiatedAt (claims st !!! c).
Proof.
  intros H. unfold disputeClaim in H.
  repeat first [ inv_ok_step
               | match type of H with (if ?b then _ else _) = _ => destruct b end ];
    subst; simpl; (split; [done|]); intros c;
    (destruct (decide (c = cid)) as [->|?];
      [by rewrite lookup_total_insert_eq | by rewrite lookup_total_insert_ne]).
Qed.

Lemma queue_inv_frame (st st' : State L) :
  providerPendingCompensations st' = providerPendingCompensations st ->
  (forall c, initiatedAt (claims st' !!! c) = initiatedAt (claims st !!! c)) ->
  queue_inv st -> queue_inv st'.
Proof.
  intros Hq Hc Hinv a. rewrite Hq. destruct (Hinv a) as [Hnd Hex]. split; [done|].
  intros c Hin. rewrite Hc. by apply Hex.
Qed.

Lemma run_queue_inv m c (st st' : State L) :
  0 < block_timestamp m -> queue_inv st -> run m c st = Ok st' -> queue_inv st'.
Proof.
  intros Hnow Hinv H. destruct c; simpl in H.
  - unfold registerOrReactivate in H. inv_ok.
    destruct (Nat.ltb _ _).
    + eapply process_queue_inv; [|eassumption]. done.
    + inv_ok. by subst.
  - unfold depositAdditional in H. inv_ok.
    destruct (Nat.ltb _ _).
    + eapply process_queue_inv; [|eassumption]. done.
    + inv_ok. by subst.
  - unfold withdraw in H. inv_ok. by subst.
  - unfold withdrawAllAndDeactivate in H. inv_ok.
    destruct (0 <? _); inv_ok; by subst.
  - eapply initiateClaim_queue_inv; eassumption.
  - apply executeClaim_frame in H as [Hq Hc]. by eapply queue_inv_frame.
  - apply disputeClaim_frame in H as [Hq Hc]. by eapply queue_inv_frame.
  - unfold fundEmergencyPool in H. inv_ok. by subst.
  - unfold fundPlatformInsurance in H. inv_ok. by subst.
Qed.

Lemma reachable_after_epoch_reachable (st : State L) :
  reachable_after_epoch st -> reachable st.
Proof.
  induction 1 as [tok o | st m c st' _ IH Hnow Hwt Hrun].
  - apply reachable_init.
  - eapply reachable_step; eassumption.
Qed.

(** In every state reached at positive block timestamps each provider's
    queue lists distinct claims, all of which exist. *)
Lemma reachable_queue_inv (st : State L) : reachable_after_epoch st -> queue_inv st.
Proof.
  induction 1 as [tok o | st m c st' _ IH Hnow Hwt Hrun].
  - intros a. simpl. rewrite lookup_total_empty. split; [apply NoDup_nil_2|].
    intros cid Hin. by apply elem_of_nil in Hin.
  - eapply run_queue_inv; eassumption.
Qed.

(** ** [depositAdditional] *)

(** C9 (amended). For an active provider [depositAdditional] checks the
    ceiling only, on the resulting balance: it is rejected with
    "Exceeds maximum" when [poolBalance + amount] exceeds
    [MAX_POOL_BALANCE]; any other amount, however small, is credited to the
    pool and followed by the distributor when the queue is not empty. *)
Theorem depositAdditional_ceiling_only m amt (st : State L) :
  let p0 := providers st !!! msg_sender m in
  isActive p0 = true ->
  0 <= amt ->
  poolBalance p0 + amt <= MAX_UINT256 ->
  (MAX_POOL_BALANCE < poolBalance p0 + amt ->
   depositAdditional m amt st = Revert (Require_failed "Exceeds maximum")) /\
  (poolBalance p0 + amt <= MAX_POOL_BALANCE ->
   forall tok,
     transferFrom (msg_sender m) amt (usdcToken st) = Some tok ->
     totalProviderPools st + amt <= MAX_UINT256 ->
     let st1 := set_totalProviderPools (totalProviderPools st + amt)
                  (set_providers
                     (<[msg_sender m := set_poolBalance (poolBalance p0 + amt) p0]> (providers st))
                     (set_usdcToken tok st)) in
     depositAdditional m amt st =
       if Nat.ltb 0 (length (providerPendingCompensations st !!! msg_sender m))
       then _processProportionalCompensations (msg_sender m) st1
       else Ok st1).
Proof.
  intros p0 Hactive Hamt Hfit. unfold depositAdditional. fold p0.
  rewrite Hactive. cbn [require bind]. rewrite checked_add_fits by done. cbn [bind]. split.
  - intros Hover. apply Z.leb_gt in Hover. rewrite Hover. reflexivity.
  - intros Hunder tok Htok Hpools. apply Z.leb_le in Hunder. rewrite Hunder.
    cbn [require bind]. rewrite Htok. cbn [require_token bind].
    rewrite checked_add_fits by done. reflexivity.
Qed.

(** What [executeClaim] leaves of the claim record: only the status
    changes, to [EXECUTED] when nothing is pending and to [PARTIAL]
    otherwise.  A claim with a pending remainder therefore still passes the
    three checks of [executeClaim] afterwards. *)
Lemma executeClaim_claim_record m cid (st st' : State L) :
  executeClaim m cid st = Ok st' ->
  let claim := claims st !!! cid in
  claims st' !!! cid =
    set_status (if pendingAmount claim =? 0 then EXECUTED else PARTIAL) claim /\
  0 < initiatedAt claim /\
  disputeDeadline claim < block_timestamp m.
Proof.
  intros H claim. unfold executeClaim in H. fold claim in H. inv_ok. bool_to_prop.
  match goal with H : _ = Ok ?s |- _ =>
    match type of H with (if 0 <? paidAmount _ then _ else _) = _ =>
      rename s into st1, H into Hpay end end.
  repeat apply conj; try done.
  destruct (pendingAmount claim =? 0); inv_ok; subst; simpl;
    by rewrite lookup_total_insert_eq.
Qed.

(** ** [disputeClaim] *)

(** What a successful [disputeClaim] does: the claim becomes [DISPUTED];
    no token moves, no balance, pool or compensation entry changes; and
    [totalLocked] drops by [P + penalty + fee] for the claim's current
    [paidAmount = P], or to zero if it holds less than that. *)
Lemma disputeClaim_effect m cid evidence (st st' : State L) :
  disputeClaim m cid evidence st = Ok st' ->
  let claim := claims st !!! cid in
  let P := paidAmount claim in
  let release := P + P * PENALTY_RATE / 10000 + P * PLATFORM_FEE_RATE / 10000 in
  provider claim = msg_sender m /\
  block_timestamp m <= disputeDeadline claim /\
  claims st' = <[cid := set_status DISPUTED claim]> (claims st) /\
  usdcToken st' = usdcToken st /\
  emergencyPool st' = emergencyPool st /\
  platformInsuranceFund st' = platformInsuranceFund st /\
  totalProviderPools st' = totalProviderPools st /\
  pendingCompensations st' = pendingCompensations st /\
  providerPendingCompensations st' = providerPendingCompensations st /\
  (forall a, poolBalance (providers st' !!! a) = poolBalance (providers st !!! a)) /\
  totalLocked (providers st' !!! msg_sender m) =
    if 0 <? P
    then Z.max 0 (totalLocked (providers st !!! msg_sender m) - release)
    else totalLocked (providers st !!! msg_sender m).
Proof.
  intros H claim P release. unfold disputeClaim in H. fold claim P in H.
  inv_ok. bool_to_prop.
  destruct (0 <? P) eqn:HP; [|inv_ok; subst; simpl; repeat split; done].
  inv_ok.
  match goal with H : required_for _ = Ok ?x |- _ =>
    apply required_for_Ok in H; fold release in H; subst x end.
  cbn [providers set_claims] in H.
  assert (forall (v : Z) (a : address),
            poolBalance (<[msg_sender m := set_totalLocked v (providers st !!! msg_sender m)]>
                           (providers st) !!! a)
            = poolBalance (providers st !!! a)) as Hpool.
  { intros v a. destruct (decide (a = msg_sender m)) as [->|?];
      [by rewrite lookup_total_insert_eq | by rewrite lookup_total_insert_ne]. }
  destruct (Z.leb_spec release (totalLocked (providers st !!! msg_sender m)));
    inv_ok; subst; simpl; rewrite ?lookup_total_insert_eq; simpl;
    repeat apply conj; try done; try lia; apply Hpool.
Qed.

(** ** Sums over the books *)

Lemma map_sum_empty {V : Type} (f : V -> Z) : map_sum f ∅ = 0.
Proof. unfold map_sum. apply map_fold_empty. Qed.

Lemma map_sum_insert_fresh {V : Type} (f : V -> Z) (m : gmap Z V) k v :
  m !! k = None -> map_sum f (<[k := v]> m) = f v + map_sum f m.
Proof.
  intros Hk. unfold map_sum. rewrite map_fold_insert_L; [done| |done].
  intros. lia.
Qed.

(** Writing [v] at [k] changes the sum by [f v] minus what [k] counted
    for before; an absent key counts as the default record. *)
Lemma map_sum_insert {V : Type} `{Inhabited V} (f : V -> Z) (m : gmap Z V) k v :
  f inhabitant = 0 ->
  map_sum f (<[k := v]> m) = map_sum f m + f v - f (m !!! k).
Proof.
  intros Hzero. rewrite lookup_total_alt.
  destruct (m !! k) as [old|] eqn:Hk; simpl.
  - rewrite <- (insert_delete_eq m k v).
    rewrite map_sum_insert_fresh by apply lookup_delete_eq.
    rewrite <- (insert_delete_id m k old) at 2 by done.
    rewrite map_sum_insert_fresh by apply lookup_delete_eq. lia.
  - rewrite map_sum_insert_fresh by done. lia.
Qed.

Lemma sum_pools_insert (m : gmap Z ProviderData) a p :
  sum_pools (<[a := p]> m) = sum_pools m + poolBalance p - poolBalance (m !!! a).
Proof. unfold sum_pools. by rewrite map_sum_insert. Qed.

(** [registerOrReactivate] and [depositAdditional] end with the
    distributor, which does nothing on an empty queue. *)
Lemma serve_queue_process prov (st : State L) :
  (if Nat.ltb 0 (length (providerPendingCompensations st !!! prov))
   then _processProportionalCompensations prov st else Ok st)
  = _processProportionalCompensations prov st.
Proof.
  unfold _processProportionalCompensations.
  by destruct (providerPendingCompensations st !!! prov).
Qed.

(** A property kept by every payment of the second loop and indifferent
    to the queue is kept by the distributor. *)
Lemma process_preserves (I : State L -> Prop) prov :
  (forall st cid p tok,
     I st ->
     0 < p ->
     p <= amount (pendingCompensations st !!! cid) ->
     p <= pendingAmount (claims st !!! cid) ->
     p <= poolBalance (providers st !!! prov) ->
     p <= totalProviderPools st ->
     p <= totalPendingCompensations st ->
     unsettled (pendingCompensations st !!! cid) = true ->
     transfer (client (claims st !!! cid)) p (usdcToken st) = Some tok ->
     I (paid_state prov cid p tok st)) ->
  (forall st q, I st -> I (set_providerPendingCompensations q st)) ->
  forall st st',
    I st -> _processProportionalCompensations prov st = Ok st' -> I st'.
Proof.
  intros Hpay Hqueue st st' HI H.
  apply process_Ok in H as [[-> _]|(_ & _ & _ & st1 & Hloop & ->)]; [done|].
  apply Hqueue.
  revert Hloop HI.
  generalize (available_of (providers st !!! prov)) as A.
  generalize (total_owed (pendingCompensations st)
                (providerPendingCompensations st !!! prov)) as T.
  generalize (providerPendingCompensations st !!! prov) as l.
  intros l. revert st. induction l as [|cid l IH]; simpl; intros st T A Hloop HI.
  - by injection Hloop as <-.
  - inv_ok. eapply IH; [eassumption|].
    match goal with H : pay_entry _ _ _ _ _ = Ok _ |- _ =>
      apply pay_entry_Ok in H
        as [[_ ->]|(Hp & _ & Hle & Hpend & Hpool & Htpp & Htpc & _ & _ & tok & Htr & ->)] end;
      [done|].
    apply Hpay; try done. by eapply share_unsettled.
Qed.

Lemma process_pools_total prov (st st' : State L) :
  pools_total_inv st -> _processProportionalCompensations prov st = Ok st' ->
  pools_total_inv st'.
Proof.
  apply process_preserves; [|done].
  clear. intros st cid p tok HI _ _ _ _ _ _ _ _.
  unfold pools_total_inv, paid_state in *. simpl.
  rewrite sum_pools_insert. simpl. lia.
Qed.

Lemma run_pools_total m c (st st' : State L) :
  pools_total_inv st -> run m c st = Ok st' -> pools_total_inv st'.
Proof.
  intros HI H. destruct c; simpl in H.
  - unfold registerOrReactivate in H. inv_ok. subst.
    cbv zeta in H. rewrite serve_queue_process in H. eapply process_pools_total; [|eassumption].
    unfold pools_total_inv in *. simpl. rewrite sum_pools_insert. simpl.
    split_ifs; simpl; lia.
  - unfold depositAdditional in H. inv_ok. subst.
    cbv zeta in H. rewrite serve_queue_process in H. eapply process_pools_total; [|eassumption].
    unfold pools_total_inv in *. simpl. rewrite sum_pools_insert. simpl. lia.
  - unfold withdraw in H. split_call. subst.
    unfold pools_total_inv in *. simpl. rewrite sum_pools_insert. simpl. lia.
  - unfold withdrawAllAndDeactivate in H. split_call; subst.
    all: unfold pools_total_inv in *; simpl; rewrite sum_pools_insert; simpl; lia.
  - unfold initiateClaim, _recordPendingCompensation in H. split_call; subst.
    all: unfold pools_total_inv in *; simpl.
    all: rewrite ?sum_pools_insert; simpl; lia.
  - unfold executeClaim in H. split_call; subst.
    all: unfold pools_total_inv in *; simpl.
    all: rewrite ?sum_pools_insert; simpl.
    all: rewrite ?lookup_total_insert_eq; simpl; lia.
  - unfold disputeClaim in H. split_call; subst.
    all: unfold pools_total_inv in *; simpl.
    all: rewrite ?sum_pools_insert; simpl; lia.
  - unfold fundEmergencyPool in H. split_call; subst. done.
  - unfold fundPlatformInsurance in H. split_call; subst. done.
Qed.

(** ** The books of deferred compensation *)

Lemma sum_amounts_insert (m : gmap Z PendingCompensation) k e :
  sum_amounts (<[k := e]> m) = sum_amounts m + amount e - amount (m !!! k).
Proof. unfold sum_amounts. by rewrite map_sum_insert. Qed.

(** A property kept by every payment is kept by the second loop. *)
Lemma pay_loop_preserves (I : State L -> Prop) prov A T l :
  (forall st cid p tok,
     I st ->
     cid ∈ l ->
     0 < p ->
     p <= amount (pendingCompensations st !!! cid) ->
     p <= pendingAmount (claims st !!! cid) ->
     transfer (client (claims st !!! cid)) p (usdcToken st) = Some tok ->
     I (paid_state prov cid p tok st)) ->
  forall st st', I st -> pay_loop prov A T l st = Ok st' -> I st'.
Proof.
  induction l as [|cid l IH]; simpl; intros Hpay st st' HI Hloop.
  - by injection Hloop as <-.
  - inv_ok. eapply IH; [| |eassumption].
    { intros. apply Hpay; try done. by apply list_elem_of_further. }
    match goal with H : pay_entry _ _ _ _ _ = Ok _ |- _ =>
      apply pay_entry_Ok in H
        as [[_ ->]|(Hp & _ & Hle & Hpend & _ & _ & _ & _ & _ & tok & Htr & ->)] end;
      [done|].
    apply Hpay; try done. apply list_elem_of_here.
Qed.

Lemma deferred_inv_loop prov (st : State L) : deferred_inv st -> deferred_loop_inv prov st.
Proof.
  intros (Ha & Hb & Hc & Hd). split; [done|]. split; [done|]. split; [done|].
  intros prov2 cid Hin. destruct (Hd prov2 cid Hin) as [Hprov Hu].
  split; [done|]. split; [|done].
  unfold unsettled in Hu. apply andb_true_iff in Hu as [_ Hu]. by apply Z.ltb_lt in Hu.
Qed.

Lemma paid_state_deferred_loop_inv prov cid p tok (st : State L) :
  deferred_loop_inv prov st ->
  cid ∈ providerPendingCompensations st !!! prov ->
  0 < p ->
  p <= amount (pendingCompensations st !!! cid) ->
  deferred_loop_inv prov (paid_state prov cid p tok st).
Proof.
  intros (Ha & Hb & Hc & Hd) Hin Hp Hle.
  unfold deferred_loop_inv, paid_state. simpl. repeat apply conj.
  - intros c. destruct (decide (c = cid)) as [->|Hne].
    + rewrite !lookup_total_insert_eq. rewrite <- Ha.
      by destruct (_ =? 0).
    + rewrite !lookup_total_insert_ne by done. apply Ha.
  - intros c. destruct (decide (c = cid)) as [->|Hne].
    + rewrite !lookup_total_insert_eq. simpl. intros H0.
      specialize (Hb _ H0). rewrite <- Ha in Hb. lia.
    + rewrite !lookup_total_insert_ne by done. apply Hb.
  - rewrite sum_amounts_insert. rewrite Hc.
    destruct (_ =? 0); simpl; lia.
  - intros prov2 c Hc2. destruct (Hd prov2 c Hc2) as (Hprov & Hpos & Hother).
    destruct (decide (c = cid)) as [->|Hne].
    + rewrite !lookup_total_insert_eq. simpl. repeat apply conj; [done| |].
      * destruct (Z.eqb_spec (amount (pendingCompensations st !!! cid) - p) 0);
          simpl; [done|]. intros _. lia.
      * intros Hne. destruct (Hd prov cid Hin) as (Hprov' & _). congruence.
    + rewrite !lookup_total_insert_ne by done. done.
Qed.

Lemma process_deferred_inv prov (st st' : State L) :
  deferred_inv st -> _processProportionalCompensations prov st = Ok st' ->
  deferred_inv st'.
Proof.
  intros HI H.
  apply process_Ok in H as [[-> _]|(_ & _ & _ & st1 & Hloop & ->)]; [done|].
  pose proof (pay_loop_frame _ _ _ _ _ _ Hloop) as [Hq _].
  assert (deferred_loop_inv prov st1 /\
          providerPendingCompensations st1 = providerPendingCompensations st)
    as [(Ha & Hb & Hc & Hd) _].
  { revert Hloop. apply (pay_loop_preserves
      (fun s => deferred_loop_inv prov s /\
                providerPendingCompensations s = providerPendingCompensations st)).
    - intros s cid p tok [Hs Hqs] Hin Hp Hle _ _. split; [|done].
      apply paid_state_deferred_loop_inv; try done. by rewrite Hqs.
    - split; [by apply deferred_inv_loop | done]. }
  unfold deferred_inv. simpl. repeat apply conj; try done.
  intros prov2 cid. destruct (decide (prov2 = prov)) as [->|Hne].
  - rewrite lookup_total_insert_eq, compact_filter. intros Hin.
    apply list_elem_of_filter in Hin as [Hpaid Hin]. rewrite <- Hq in Hin.
    destruct (Hd prov cid Hin) as (Hprov & Hpos & _). split; [done|].
    unfold unsettled. rewrite Hpaid. simpl. apply Z.ltb_lt. by apply Hpos.
  - rewrite lookup_total_insert_ne by done. intros Hin.
    destruct (Hd prov2 cid Hin) as (Hprov & _ & Hu). split; [done|]. by apply Hu.
Qed.

(** What [executeClaim] does to the claims and the compensation books. *)
Lemma executeClaim_books m cid (st st' : State L) :
  executeClaim m cid st = Ok st' ->
  let claim := claims st !!! cid in
  0 < initiatedAt claim /\ is_open (status claim) = true /\
  disputeDeadline claim < block_timestamp m /\
  claims st' =
    <[cid := set_status (if pendingAmount claim =? 0 then EXECUTED else PARTIAL) claim]>
      (claims st) /\
  pendingCompensations st' = pendingCompensations st /\
  providerPendingCompensations st' = providerPendingCompensations st /\
  totalPendingCompensations st' = totalPendingCompensations st /\
  owner st' = owner st.
Proof.
  intros H claim. unfold executeClaim in H. fold claim in H. inv_ok. bool_to_prop.
  match goal with H : _ = Ok ?s |- _ =>
    match type of H with (if 0 <? paidAmount _ then _ else _) = _ =>
      rename s into st1, H into Hpay end end.
  assert (claims st1 = claims st /\
          pendingCompensations st1 = pendingCompensations st /\
          providerPendingCompensations st1 = providerPendingCompensations st /\
          totalPendingCompensations st1 = totalPendingCompensations st /\
          owner st1 = owner st) as (Hc & Hp & Hq & Ht & Ho).
  { unfold bps in Hpay. split_call; by subst. }
  destruct (pendingAmount claim =? 0); inv_ok; subst; simpl;
    rewrite Hc; repeat apply conj; try done.
Qed.

(** What [initiateClaim] requires. *)
Lemma initiateClaim_requires m cid prov amt why (st st' : State L) :
  initiateClaim m cid prov amt why st = Ok st' ->
  MIN_CLAIM_AMOUNT <= amt <= MAX_CLAIM_AMOUNT /\
  initiatedAt (claims st !!! cid) = 0 /\
  isActive (providers st !!! prov) = true.
Proof.
  intros H. unfold initiateClaim in H.
  do 3 (apply bind_Ok in H as (? & ? & H)). inv_ok. bool_to_prop. done.
Qed.

Lemma MIN_CLAIM_AMOUNT_pos : 0 < MIN_CLAIM_AMOUNT.
Proof. reflexivity. Qed.

Lemma initiateClaim_deferred_inv m cid prov amt why (st st' : State L) :
  0 < block_timestamp m ->
  deferred_inv st -> initiateClaim m cid prov amt why st = Ok st' -> deferred_inv st'.
Proof.
  intros Hnow (Ha & Hb & Hc & Hd) H.
  pose proof (initiateClaim_requires _ _ _ _ _ _ _ H) as (Hamt & Hfresh & _).
  pose proof MIN_CLAIM_AMOUNT_pos as Hmin.
  assert (amount (pendingCompensations st !!! cid) = 0) as Hold.
  { rewrite Ha. by apply Hb. }
  assert (forall p, cid ∈ providerPendingCompensations st !!! p -> False) as Hnotin.
  { intros p Hin. destruct (Hd p cid Hin) as [_ Hu]. unfold unsettled in Hu.
    rewrite Hold in Hu. by rewrite andb_false_r in Hu. }
  apply initiateClaim_Ok in H as (paid & pending & s & Hcase & Hclaims).
  assert (0 <= pending /\
          (pending = 0 /\ no_entry_recorded st st' \/
           0 < pending /\
           entry_recorded (block_timestamp m) cid (msg_sender m) prov pending st st'))
    as [Hpending Hentry].
  { destruct Hcase as [(? & ? & -> & ? & ?)|[(? & ? & -> & ? & ?)|(? & ? & -> & ? & ?)]].
    - split; [lia|]. by left.
    - split; [lia|]. right. split; [lia|done].
    - split; [lia|]. right. split; [lia|done]. }
  clear Hcase.
  unfold deferred_inv. rewrite Hclaims.
  destruct Hentry as [[-> (Hp & Hq & Ht)]|[Hpos (Hp & Hq & Ht)]]; rewrite Hp, Hq, Ht.
  - repeat apply conj; try done.
    + intros c. destruct (decide (c = cid)) as [->|Hne].
      * rewrite lookup_total_insert_eq. simpl. done.
      * rewrite lookup_total_insert_ne by done. apply Ha.
    + intros c. destruct (decide (c = cid)) as [->|Hne].
      * rewrite lookup_total_insert_eq. done.
      * rewrite lookup_total_insert_ne by done. apply Hb.
    + intros p c Hin. destruct (decide (c = cid)) as [->|Hne].
      * destruct (Hnotin _ Hin).
      * rewrite lookup_total_insert_ne by done. by apply Hd.
  - repeat apply conj.
    + intros c. destruct (decide (c = cid)) as [->|Hne].
      * by rewrite !lookup_total_insert_eq.
      * rewrite !lookup_total_insert_ne by done. apply Ha.
    + intros c. destruct (decide (c = cid)) as [->|Hne].
      * rewrite lookup_total_insert_eq. simpl. lia.
      * rewrite lookup_total_insert_ne by done. apply Hb.
    + rewrite sum_amounts_insert. simpl. lia.
    + intros p c. destruct (decide (p = prov)) as [->|Hp'].
      * rewrite lookup_total_insert_eq. intros Hin.
        apply elem_of_app in Hin as [Hin|Hin].
        -- destruct (decide (c = cid)) as [->|Hne]; [destruct (Hnotin _ Hin)|].
           rewrite !lookup_total_insert_ne by done. by apply Hd.
        -- apply list_elem_of_singleton in Hin as ->.
           rewrite !lookup_total_insert_eq. simpl. split; [done|].
           unfold unsettled. simpl. by apply Z.ltb_lt.
      * rewrite lookup_total_insert_ne by done. intros Hin.
        destruct (decide (c = cid)) as [->|Hne]; [destruct (Hnotin _ Hin)|].
        rewrite !lookup_total_insert_ne by done. by apply Hd.
Qed.

Lemma disputeClaim_totals m cid evidence (st st' : State L) :
  disputeClaim m cid evidence st = Ok st' ->
  0 < initiatedAt (claims st !!! cid) /\ is_open (status (claims st !!! cid)) = true /\
  totalPendingCompensations st' = totalPendingCompensations st /\
  totalClaimsInitiated st' = totalClaimsInitiated st /\
  totalClaimsExecuted st' = totalClaimsExecuted st /\
  owner st' = owner st.
Proof.
  intros H. unfold disputeClaim, required_for, bps in H.
  split_call; subst; simpl; repeat apply conj; try done; by apply Z.ltb_lt.
Qed.

Lemma set_status_deferred_inv cid s (st st' : State L) :
  claims st' = <[cid := set_status s (claims st !!! cid)]> (claims st) ->
  pendingCompensations st' = pendingCompensations st ->
  providerPendingCompensations st' = providerPendingCompensations st ->
  totalPendingCompensations st' = totalPendingCompensations st ->
  deferred_inv st -> deferred_inv st'.
Proof.
  intros Hclaims Hp Hq Ht (Ha & Hb & Hc & Hd).
  assert (forall c, pendingAmount (claims st' !!! c) = pendingAmount (claims st !!! c) /\
                    initiatedAt (claims st' !!! c) = initiatedAt (claims st !!! c) /\
                    provider (claims st' !!! c) = provider (claims st !!! c)) as Hsame.
  { intros c. rewrite Hclaims. destruct (decide (c = cid)) as [->|Hne].
    - by rewrite lookup_total_insert_eq.
    - by rewrite lookup_total_insert_ne. }
  unfold deferred_inv. rewrite Hp, Hq, Ht. repeat apply conj; try done.
  - intros c. destruct (Hsame c) as (-> & _). apply Ha.
  - intros c. destruct (Hsame c) as (-> & -> & _). apply Hb.
  - intros p c Hin. destruct (Hsame c) as (_ & _ & ->). by apply Hd.
Qed.

Lemma same_books_deferred_inv (st st' : State L) :
  claims st' = claims st ->
  pendingCompensations st' = pendingCompensations st ->
  providerPendingCompensations st' = providerPendingCompensations st ->
  totalPendingCompensations st' = totalPendingCompensations st ->
  deferred_inv st -> deferred_inv st'.
Proof. unfold deferred_inv. by intros -> -> -> ->. Qed.

Lemma run_deferred_inv m c (st st' : State L) :
  0 < block_timestamp m ->
  deferred_inv st -> run m c st = Ok st' -> deferred_inv st'.
Proof.
  intros Hnow HI H. destruct c; simpl in H.
  - unfold registerOrReactivate in H. inv_ok. subst.
    cbv zeta in H. rewrite serve_queue_process in H.
    eapply process_deferred_inv; [|eassumption]. revert HI.
    by apply same_books_deferred_inv.
  - unfold depositAdditional in H. inv_ok. subst.
    cbv zeta in H. rewrite serve_queue_process in H.
    eapply process_deferred_inv; [|eassumption]. revert HI.
    by apply same_books_deferred_inv.
  - unfold withdraw in H. split_call. subst. revert HI.
    by apply same_books_deferred_inv.
  - unfold withdrawAllAndDeactivate in H. split_call; subst; revert HI.
    all: by apply same_books_deferred_inv.
  - by eapply initiateClaim_deferred_inv.
  - apply executeClaim_books in H as (_ & _ & _ & Hclaims & Hp & Hq & Ht & _).
    by eapply set_status_deferred_inv.
  - pose proof (disputeClaim_totals _ _ _ _ _ H) as (_ & _ & Ht & _).
    apply disputeClaim_effect in H
      as (_ & _ & Hclaims & _ & _ & _ & _ & Hp & Hq & _).
    by eapply set_status_deferred_inv.
  - unfold fundEmergencyPool in H. split_call; subst. revert HI.
    by apply same_books_deferred_inv.
  - unfold fundPlatformInsurance in H. split_call; subst. revert HI.
    by apply same_books_deferred_inv.
Qed.

(** ** The history of a claim record *)

Lemma claim_evolves_refl c : claim_evolves c c.
Proof. unfold claim_evolves. intros _. repeat apply conj; try done; lia. Qed.

Lemma claim_evolves_trans c1 c2 c3 :
  claim_evolves c1 c2 -> claim_evolves c2 c3 -> claim_evolves c1 c3.
Proof.
  unfold claim_evolves. intros H12 H23 Hpos.
  destruct (H12 Hpos) as (? & ? & ? & Hat & ? & ? & ? & ? & Hs).
  destruct H23 as (? & ? & ? & ? & ? & ? & ? & ? & Hs'); [lia|].
  repeat apply conj; try congruence; try lia.
  intros Hclosed. rewrite Hs' by (by rewrite Hs). by apply Hs.
Qed.

Lemma claim_evolves_same (cls cls' : gmap Z ClaimInfo) :
  cls' = cls -> forall cid, claim_evolves (cls !!! cid) (cls' !!! cid).
Proof. intros -> cid. apply claim_evolves_refl. Qed.

Lemma claim_evolves_insert (cls : gmap Z ClaimInfo) cid c' :
  claim_evolves (cls !!! cid) c' ->
  forall c, claim_evolves (cls !!! c) (<[cid := c']> cls !!! c).
Proof.
  intros H c. destruct (decide (c = cid)) as [->|Hne].
  - by rewrite lookup_total_insert_eq.
  - rewrite lookup_total_insert_ne by done. apply claim_evolves_refl.
Qed.

Lemma process_claim_evolves prov (st st' : State L) :
  _processProportionalCompensations prov st = Ok st' ->
  forall cid, claim_evolves (claims st !!! cid) (claims st' !!! cid).
Proof.
  intros H cid. revert H.
  apply (process_preserves (fun s => claim_evolves (claims st !!! cid) (claims s !!! cid)));
    [| done | apply claim_evolves_refl].
  intros s c p tok HI Hp _ _ _ _ _ _ _.
  eapply claim_evolves_trans; [exact HI|].
  unfold paid_state. simpl. apply claim_evolves_insert.
  unfold claim_evolves. simpl. intros _. repeat apply conj; try done; lia.
Qed.

Lemma run_claim_evolves m c (st st' : State L) :
  run m c st = Ok st' ->
  forall cid, claim_evolves (claims st !!! cid) (claims st' !!! cid).
Proof.
  intros H. destruct c; simpl in H.
  - unfold registerOrReactivate in H. inv_ok. subst.
    cbv zeta in H. rewrite serve_queue_process in H.
    intros cid. eapply claim_evolves_trans; [|eapply process_claim_evolves; eassumption].
    apply claim_evolves_refl.
  - unfold depositAdditional in H. inv_ok. subst.
    cbv zeta in H. rewrite serve_queue_process in H.
    intros cid. eapply claim_evolves_trans; [|eapply process_claim_evolves; eassumption].
    apply claim_evolves_refl.
  - unfold withdraw in H. split_call. subst. by apply claim_evolves_same.
  - unfold withdrawAllAndDeactivate in H. split_call; subst; by apply claim_evolves_same.
  - pose proof (initiateClaim_requires _ _ _ _ _ _ _ H) as (_ & Hfresh & _).
    apply initiateClaim_Ok in H as (paid & pending & s & _ & ->).
    apply claim_evolves_insert. unfold claim_evolves. lia.
  - apply executeClaim_books in H as (_ & Hopen & _ & -> & _).
    apply claim_evolves_insert. unfold claim_evolves. simpl. intros _.
    repeat apply conj; try done; try lia. congruence.
  - pose proof (disputeClaim_totals _ _ _ _ _ H) as (_ & Hopen & _).
    apply disputeClaim_effect in H as (_ & _ & -> & _).
    apply claim_evolves_insert. unfold claim_evolves. simpl. intros _.
    repeat apply conj; try done; try lia. congruence.
  - unfold fundEmergencyPool in H. split_call; subst. by apply claim_evolves_same.
  - unfold fundPlatformInsurance in H. split_call; subst. by apply claim_evolves_same.
Qed.

Lemma run_all_claim_evolves txs : forall (st st' : State L),
  run_all txs st = Ok st' ->
  forall cid, claim_evolves (claims st !!! cid) (claims st' !!! cid).
Proof.
  induction txs as [|[m c] txs IH]; simpl; intros st st' H cid.
  - injection H as <-. apply claim_evolves_refl.
  - inv_ok. eapply claim_evolves_trans.
    + eapply run_claim_evolves; eassumption.
    + by apply IH.
Qed.

(** ** Provider records *)

(** The distributor touches one field of one record. *)
Lemma process_provider_record prov (st st' : State L) :
  _processProportionalCompensations prov st = Ok st' ->
  forall a,
    same_but_pool (providers st !!! a) (providers st' !!! a) /\
    (a <> prov -> providers st' !!! a = providers st !!! a).
Proof.
  intros H a. revert H.
  apply (process_preserves (fun s =>
    same_but_pool (providers st !!! a) (providers s !!! a) /\
    (a <> prov -> providers s !!! a = providers st !!! a))); [|done|].
  - intros s c p tok (Hrec & Hother) Hp _ _ _ _ _ _ _.
    unfold paid_state. simpl. destruct (decide (a = prov)) as [->|Hne].
    + rewrite lookup_total_insert_eq. split; [|done].
      destruct Hrec as (? & ? & ? & ? & ? & ? & ?).
      unfold same_but_pool. simpl. repeat apply conj; try done; lia.
    + by rewrite lookup_total_insert_ne.
  - unfold same_but_pool. repeat apply conj; try done; lia.
Qed.

(** ** Tokens and books *)

Section Holdings.

(** The token balance of the contract itself, for a token that moves
    exactly the amount asked. *)
Variable holdings : L -> Z.
Hypothesis holdings_transferFrom : forall from amt tok tok',
  transferFrom from amt tok = Some tok' -> holdings tok' = holdings tok + amt.
Hypothesis holdings_transfer : forall to amt tok tok',
  transfer to amt tok = Some tok' -> holdings tok' = holdings tok - amt.

Lemma process_unbooked prov (st st' : State L) :
  _processProportionalCompensations prov st = Ok st' ->
  holdings (usdcToken st') - booked st' = holdings (usdcToken st) - booked st.
Proof.
  apply (process_preserves (fun s =>
    holdings (usdcToken s) - booked s = holdings (usdcToken st) - booked st));
    [|done|done].
  intros s c p tok HI _ _ _ _ _ _ _ Htr. apply holdings_transfer in Htr.
  unfold paid_state, booked in *. simpl. lia.
Qed.

Lemma executeClaim_unbooked m cid (st st' : State L) :
  0 <= poolBalance (providers st !!! provider (claims st !!! cid)) ->
  executeClaim m cid st = Ok st' ->
  let P := paidAmount (claims st !!! cid) in
  holdings (usdcToken st') - booked st'
    = holdings (usdcToken st) - booked st
      + (if 0 <? P then (P * PENALTY_RATE / 10000) mod 2 else 0).
Proof.
  intros Hpool H. cbv zeta. unfold executeClaim in H. inv_ok.
  match goal with H : _ = Ok ?s |- _ =>
    match type of H with (if 0 <? paidAmount _ then _ else _) = _ =>
      rename s into st1, H into Hpay end end.
  assert (holdings (usdcToken st') - booked st'
          = holdings (usdcToken st1) - booked st1) as ->.
  { destruct (pendingAmount (claims st !!! cid) =? 0); inv_ok; by subst. }
  set (P := paidAmount (claims st !!! cid)) in *.
  destruct (0 <? P) eqn:HP; [|injection Hpay as <-; lia].
  unfold bps in Hpay. split_call; subst.
  all: match goal with H : transfer _ _ _ = Some _ |- _ => apply holdings_transfer in H end.
  all: bool_to_prop; unfold booked; simpl in *.
  all: assert (0 <= P * PENALTY_RATE / 10000)
         by (apply Z.div_pos; [unfold PENALTY_RATE|]; lia).
  all: assert (0 <= P * PLATFORM_FEE_RATE / 10000)
         by (apply Z.div_pos; [unfold PLATFORM_FEE_RATE|]; lia).
  all: pose proof (Z.div_mod (P * PENALTY_RATE / 10000) 2 ltac:(lia)).
  all: split_ifs; bool_to_prop; lia.
Qed.

Lemma run_unbooked m c (st st' : State L) :
  pool_inv st -> run m c st = Ok st' ->
  holdings (usdcToken st') - booked st'
    = holdings (usdcToken st) - booked st
      + match c with
        | ExecuteClaim cid =>
            let P := paidAmount (claims st !!! cid) in
            if 0 <? P then (P * PENALTY_RATE / 10000) mod 2 else 0
        | _ => 0
        end.
Proof.
  intros Hinv H. destruct c; simpl in H.
  - unfold registerOrReactivate in H. inv_ok. subst.
    cbv zeta in H. rewrite serve_queue_process in H.
    apply process_unbooked in H. rewrite H.
    match goal with H : transferFrom _ _ _ = Some _ |- _ =>
      apply holdings_transferFrom in H end.
    unfold booked. simpl. lia.
  - unfold depositAdditional in H. inv_ok. subst.
    cbv zeta in H. rewrite serve_queue_process in H.
    apply process_unbooked in H. rewrite H.
    match goal with H : transferFrom _ _ _ = Some _ |- _ =>
      apply holdings_transferFrom in H end.
    unfold booked. simpl. lia.
  - unfold withdraw in H. split_call. subst.
    match goal with H : transfer _ _ _ = Some _ |- _ => apply holdings_transfer in H end.
    unfold booked. simpl. lia.
  - unfold withdrawAllAndDeactivate in H. split_call; subst.
    all: try match goal with H : transfer _ _ _ = Some _ |- _ =>
      apply holdings_transfer in H; simpl in H end.
    all: bool_to_prop; unfold booked; simpl.
    all: pose proof (Hinv (msg_sender m)) as [? _]; lia.
  - unfold initiateClaim, _recordPendingCompensation in H. split_call; subst.
    all: unfold booked; simpl; lia.
  - eapply executeClaim_unbooked; [apply (Hinv _) | eassumption].
  - apply disputeClaim_effect in H as (_ & _ & _ & -> & He & Hf & Hp & _).
    unfold booked. lia.
  - unfold fundEmergencyPool in H. split_call; subst.
    match goal with H : transferFrom _ _ _ = Some _ |- _ =>
      apply holdings_transferFrom in H end.
    unfold booked. simpl. lia.
  - unfold fundPlatformInsurance in H. split_call; subst.
    match goal with H : transferFrom _ _ _ = Some _ |- _ =>
      apply holdings_transferFrom in H end.
    unfold booked. simpl. lia.
Qed.

Lemma run_all_unbooked txs : forall st st' : State L,
  reachable st -> Forall (fun tx => well_typed tx.1 tx.2) txs ->
  run_all txs st = Ok st' ->
  let unbooked s := holdings (usdcToken s) - booked s in
  unbooked st <= unbooked st' <= unbooked st + Z.of_nat (length txs).
Proof.
  induction txs as [|[m c] txs IH]; simpl; intros st st' Hreach Hwt H.
  - injection H as <-. lia.
  - apply bind_Ok in H as (st1 & H1 & H).
    apply Forall_cons in Hwt as [Hwt1 Hwt].
    assert (reachable st1) as Hreach1 by (eapply reachable_step; eassumption).
    specialize (IH st1 st' Hreach1 Hwt H). simpl in IH.
    assert (pool_inv st) as Hinv.
    { clear -Hreach. induction Hreach as [tok o | s m c s' _ IHr Hw Hrun].
      - apply initial_pool_inv.
      - eapply run_pool_inv; eassumption. }
    pose proof (run_unbooked _ _ _ _ Hinv H1) as Hstep.
    assert (0 <= match c with
                 | ExecuteClaim cid =>
                     let P := paidAmount (claims st !!! cid) in
                     if 0 <? P then (P * PENALTY_RATE / 10000) mod 2 else 0
                 | _ => 0
                 end <= 1) as Hdust.
    { destruct c; try lia. cbv zeta.
      destruct (0 <? _); [|lia].
      pose proof (Z.mod_pos_bound (paidAmount (claims st !!! cid) * PENALTY_RATE / 10000) 2
                    ltac:(lia)). lia. }
    lia.
Qed.

(** X4. For a token that moves exactly the amounts asked: after any
    sequence of successful transactions from deployment, the tokens the
    contract has received on balance cover what it has on its books
    (provider pools, emergency pool and platform fund), and exceed it by
    at most one unit per transaction (the rounding of [penalty / 2]). *)
Theorem books_backed_by_tokens (tok : L) (_owner : address) txs (st : State L) :
  Forall (fun tx => well_typed tx.1 tx.2) txs ->
  run_all txs (initial_state tok _owner) = Ok st ->
  booked st <= holdings (usdcToken st) - holdings tok
            <= booked st + Z.of_nat (length txs).
Proof.
  intros Hwt Hrun.
  pose proof (run_all_unbooked txs _ _ (reachable_init tok _owner) Hwt Hrun) as H.
  unfold booked in *. simpl in H. lia.
Qed.

End Holdings.

(** What [executeClaim] does to a provider record. *)
Lemma executeClaim_provider m cid (st st' : State L) :
  executeClaim m cid st = Ok st' ->
  forall a,
    let p := providers st !!! a in
    let p' := providers st' !!! a in
    isActive p' = isActive p /\ tier p' = tier p /\ registeredAt p' = registeredAt p /\
    failedServices p' = failedServices p /\
    successfulServices p <= successfulServices p' /\
    poolBalance p' <= poolBalance p /\
    (a <> provider (claims st !!! cid) -> p' = p).
Proof.
  intros H a. cbv zeta. unfold executeClaim in H. inv_ok.
  match goal with H : _ = Ok ?s |- _ =>
    match type of H with (if 0 <? paidAmount _ then _ else _) = _ =>
      rename s into st1, H into Hpay end end.
  set (prov := provider (claims st !!! cid)) in *.
  assert (isActive (providers st1 !!! a) = isActive (providers st !!! a) /\
          tier (providers st1 !!! a) = tier (providers st !!! a) /\
          registeredAt (providers st1 !!! a) = registeredAt (providers st !!! a) /\
          failedServices (providers st1 !!! a) = failedServices (providers st !!! a) /\
          successfulServices (providers st1 !!! a) = successfulServices (providers st !!! a) /\
          poolBalance (providers st1 !!! a) <= poolBalance (providers st !!! a) /\
          (a <> prov -> providers st1 !!! a = providers st !!! a))
    as (Hact & Htier & Hreg & Hfail & Hsucc & Hpool & Hother).
  { unfold bps in Hpay. clearbody prov. split_call; subst; simpl.
    all: destruct (decide (a = prov)) as [->|Hne];
      [rewrite ?lookup_total_insert_eq | rewrite ?lookup_total_insert_ne by done].
    all: simpl; bool_to_prop; fields. }
  destruct (pendingAmount (claims st !!! cid) =? 0); inv_ok; subst; simpl;
    [|fields].
  destruct (decide (a = prov)) as [->|Hne].
  - rewrite lookup_total_insert_eq. simpl. fields.
  - rewrite lookup_total_insert_ne by done. fields.
Qed.

(** What one transaction does to a provider record. *)
Lemma run_provider m c (st st' : State L) :
  run m c st = Ok st' ->
  forall a,
    let p := providers st !!! a in
    let p' := providers st' !!! a in
    (registeredAt p <> 0 -> registeredAt p' = registeredAt p /\ tier p' = tier p) /\
    failedServices p' = failedServices p /\
    successfulServices p <= successfulServices p' /\
    (a <> msg_sender m ->
       isActive p' = isActive p /\ tier p' = tier p /\ registeredAt p' = registeredAt p /\
       poolBalance p' <= poolBalance p /\
       (poolBalance p' < poolBalance p ->
          exists cid, c = ExecuteClaim cid /\ provider (claims st !!! cid) = a)).
Proof.
  intros H a. cbv zeta. destruct c; simpl in H.
  - unfold registerOrReactivate in H. inv_ok. subst.
    cbv zeta in H. rewrite serve_queue_process in H.
    destruct (process_provider_record _ _ _ H a)
      as ((Hact & _ & Hsucc & Hfail & Htier & Hreg & Hpool) & Hother).
    simpl in *.
    destruct (decide (a = msg_sender m)) as [->|Hne].
    + rewrite Hact, Hsucc, Hfail, Htier, Hreg.
      rewrite lookup_total_insert_eq. simpl.
      destruct (Z.eqb_spec (registeredAt (providers st !!! msg_sender m)) 0);
        simpl; fields.
    + rewrite (Hother Hne). rewrite lookup_total_insert_ne by done. fields.
  - unfold depositAdditional in H. inv_ok. subst.
    cbv zeta in H. rewrite serve_queue_process in H.
    destruct (process_provider_record _ _ _ H a)
      as ((Hact & _ & Hsucc & Hfail & Htier & Hreg & Hpool) & Hother).
    simpl in *.
    destruct (decide (a = msg_sender m)) as [->|Hne].
    + rewrite Hact, Hsucc, Hfail, Htier, Hreg.
      rewrite lookup_total_insert_eq. simpl. fields.
    + rewrite (Hother Hne). rewrite lookup_total_insert_ne by done. fields.
  - unfold withdraw in H. split_call. subst. simpl.
    destruct (decide (a = msg_sender m)) as [->|Hne];
      [rewrite lookup_total_insert_eq | rewrite lookup_total_insert_ne by done];
      simpl; fields.
  - unfold withdrawAllAndDeactivate in H. split_call; subst; simpl.
    all: destruct (decide (a = msg_sender m)) as [->|Hne];
      [rewrite lookup_total_insert_eq | rewrite lookup_total_insert_ne by done];
      simpl; fields.
  - unfold initiateClaim, _recordPendingCompensation in H. split_call; subst; simpl.
    all: try (destruct (decide (a = prov)) as [->|Hne];
      [rewrite lookup_total_insert_eq | rewrite lookup_total_insert_ne by done]).
    all: simpl; fields.
  - destruct (executeClaim_provider _ _ _ _ H a)
      as (Hact & Htier & Hreg & Hfail & Hsucc & Hpool & Hother).
    fields.
    exists cid. split; [done|].
    destruct (decide (a = provider (claims st !!! cid))) as [->|Hne]; [done|].
    rewrite Hother in * by done. lia.
  - unfold disputeClaim, required_for, bps in H. split_call; subst; simpl.
    all: try (destruct (decide (a = msg_sender m)) as [->|Hne];
      [rewrite lookup_total_insert_eq | rewrite lookup_total_insert_ne by done]).
    all: simpl; fields.
  - unfold fundEmergencyPool in H. split_call; subst. simpl. fields.
  - unfold fundPlatformInsurance in H. split_call; subst. simpl. fields.
Qed.

(** ** The pending-compensation view *)

Lemma collect_loop_spec (pcs : gmap Z PendingCompensation) (rest : list Z) :
  forall (seen keptC keptA junkC junkA : list Z) (t : Z),
    length keptA = length keptC ->
    (length rest <= length junkC)%nat -> (length rest <= length junkA)%nat ->
    let live := filter (fun cid => unsettled (pcs !!! cid) = true) rest in
    exists cs az v,
      take v cs = keptC ++ live /\
      take v az = keptA ++ map (fun cid => amount (pcs !!! cid)) live /\
      collect_loop pcs (seen ++ rest) (length rest) (length seen)
        (keptC ++ junkC) (keptA ++ junkA) t (length keptC)
      = let* total := sum_pending pcs rest t in Ok (cs, az, total, v).
Proof.
  induction rest as [|c rest IH]; intros seen keptC keptA junkC junkA t Hlen HjC HjA; simpl.
  - exists (keptC ++ junkC), (keptA ++ junkA), (length keptC).
    rewrite take_app_length, <- Hlen, take_app_length. by rewrite !app_nil_r.
  - assert ((seen ++ c :: rest) !!! length seen = c) as ->.
    { apply list_lookup_total_correct. rewrite lookup_app_r by lia.
      by rewrite Nat.sub_diag. }
    simpl in HjC, HjA.
    replace (seen ++ c :: rest) with ((seen ++ [c]) ++ rest) by by rewrite <- app_assoc.
    replace (S (length seen)) with (length (seen ++ [c])) by (rewrite length_app; simpl; lia).
    destruct (unsettled (pcs !!! c)) eqn:Hu.
    + rewrite filter_cons_True by done.
      destruct junkC as [|jc junkC]; [simpl in HjC; lia|].
      destruct junkA as [|ja junkA]; [simpl in HjA; lia|].
      simpl in HjC, HjA.
      assert (<[length keptC := c]> (keptC ++ jc :: junkC) = (keptC ++ [c]) ++ junkC) as ->.
      { rewrite insert_app_r_alt by lia. rewrite Nat.sub_diag. simpl.
        by rewrite <- app_assoc. }
      assert (<[length keptC := amount (pcs !!! c)]> (keptA ++ ja :: junkA)
              = (keptA ++ [amount (pcs !!! c)]) ++ junkA) as ->.
      { rewrite <- Hlen. rewrite insert_app_r_alt by lia. rewrite Nat.sub_diag. simpl.
        by rewrite <- app_assoc. }
      replace (S (length keptC)) with (length (keptC ++ [c]))
        by (rewrite length_app; simpl; lia).
      destruct (checked_add t (amount (pcs !!! c))) as [t'|r] eqn:Ht; cbn [bind].
      * destruct (IH (seen ++ [c]) (keptC ++ [c]) (keptA ++ [amount (pcs !!! c)])
                    junkC junkA t') as (cs & az & v & HC & HA & Hrun); [|lia|lia|].
        { rewrite !length_app. simpl. lia. }
        exists cs, az, v. rewrite HC, HA, Hrun. simpl. by rewrite <- !app_assoc.
      * set (live := filter (fun cid => unsettled (pcs !!! cid) = true) rest).
        exists (keptC ++ c :: live),
               (keptA ++ map (fun cid => amount (pcs !!! cid)) (c :: live)),
               (length (keptC ++ c :: live)).
        split; [by rewrite firstn_all|]. split; [|done].
        rewrite <- (firstn_all (keptA ++ _)) at 2. f_equal.
        rewrite !length_app. simpl. rewrite length_map. lia.
    + rewrite filter_cons_False by (rewrite Hu; done).
      destruct (IH (seen ++ [c]) keptC keptA junkC junkA t)
        as (cs & az & v & HC & HA & Hrun); [done|lia|lia|].
      exists cs, az, v. by rewrite HC, HA, Hrun.
Qed.

(** ** Invariants of the reachable states *)

Lemma reachable_pool_inv (st : State L) : reachable st -> pool_inv st.
Proof.
  induction 1 as [tok o | s m c s' _ IH Hw Hrun].
  - apply initial_pool_inv.
  - eapply run_pool_inv; eassumption.
Qed.

Lemma initial_deferred_inv (tok : L) (_owner : address) :
  deferred_inv (initial_state tok _owner).
Proof.
  unfold deferred_inv. simpl. repeat apply conj.
  - intros cid. by rewrite !lookup_total_empty.
  - intros cid. by rewrite !lookup_total_empty.
  - unfold sum_amounts. by rewrite map_sum_empty.
  - intros prov cid. rewrite lookup_total_empty. intros Hin.
    by apply elem_of_nil in Hin.
Qed.

Lemma reachable_deferred_inv (st : State L) : reachable_after_epoch st -> deferred_inv st.
Proof.
  induction 1 as [tok o | s m c s' _ IH Hnow Hw Hrun].
  - apply initial_deferred_inv.
  - eapply run_deferred_inv; eassumption.
Qed.

(** X1. In every reachable state [totalProviderPools] is the sum of the
    pool balances of all provider records. *)
Theorem provider_pools_accounted (st : State L) :
  reachable st -> totalProviderPools st = sum_pools (providers st).
Proof.
  induction 1 as [tok o | s m c s' _ IH Hw Hrun].
  - simpl. unfold sum_pools. by rewrite map_sum_empty.
  - eapply run_pools_total; eassumption.
Qed.

(** X2. In every state reached through transactions at positive block
    times, each compensation entry carries the pending amount of its
    claim, a claim that does not exist has nothing pending, and
    [totalPendingCompensations] is the sum of the amounts of all
    entries. *)
Theorem deferred_books_consistent (st : State L) :
  reachable_after_epoch st ->
  (forall cid,
     amount (pendingCompensations st !!! cid) = pendingAmount (claims st !!! cid)) /\
  (forall cid,
     initiatedAt (claims st !!! cid) = 0 -> pendingAmount (claims st !!! cid) = 0) /\
  totalPendingCompensations st = sum_amounts (pendingCompensations st).
Proof.
  intros Hreach. destruct (reachable_deferred_inv st Hreach) as (Ha & Hb & Hc & _).
  done.
Qed.

(** X3. In every state reached through transactions at positive block
    times, each id in a provider's queue is that of an existing claim
    against that provider with a positive pending amount; no queue lists
    an id twice and no settled entry stays in a queue. *)
Theorem queue_entries_are_owed (st : State L) :
  reachable_after_epoch st ->
  forall prov,
    NoDup (providerPendingCompensations st !!! prov) /\
    forall cid,
      cid ∈ providerPendingCompensations st !!! prov ->
      provider (claims st !!! cid) = prov /\
      0 < initiatedAt (claims st !!! cid) /\
      0 < pendingAmount (claims st !!! cid) /\
      isPaid (pendingCompensations st !!! cid) = false.
Proof.
  intros Hreach prov.
  destruct (reachable_deferred_inv st Hreach) as (Ha & _ & _ & Hd).
  destruct (reachable_queue_inv st Hreach prov) as [Hnd Hex].
  split; [done|]. intros cid Hin.
  destruct (Hd prov cid Hin) as [Hprov Hu].
  unfold unsettled in Hu. apply andb_true_iff in Hu as [Hpaid Hpos].
  apply Z.ltb_lt in Hpos. rewrite Ha in Hpos.
  repeat apply conj; try done; [by apply Hex | by destruct (isPaid _)].
Qed.

(** ** The view returns *)

Lemma process_amounts_inv prov (st st' : State L) :
  amounts_inv st -> _processProportionalCompensations prov st = Ok st' -> amounts_inv st'.
Proof.
  apply process_preserves; [|done].
  intros s cid p tok [Hpos Hmax] Hp Hle _ _ _ _ _ _.
  unfold amounts_inv, paid_state. simpl. split; [|lia].
  intros c. destruct (decide (c = cid)) as [->|Hne].
  - rewrite lookup_total_insert_eq. destruct (_ =? 0); simpl; lia.
  - by rewrite lookup_total_insert_ne.
Qed.

Lemma run_amounts_inv m c (st st' : State L) :
  amounts_inv st -> run m c st = Ok st' -> amounts_inv st'.
Proof.
  intros HI H. destruct c; simpl in H.
  - unfold registerOrReactivate in H. inv_ok. subst.
    cbv zeta in H. rewrite serve_queue_process in H.
    eapply process_amounts_inv; [|eassumption]. exact HI.
  - unfold depositAdditional in H. inv_ok. subst.
    cbv zeta in H. rewrite serve_queue_process in H.
    eapply process_amounts_inv; [|eassumption]. exact HI.
  - unfold withdraw in H. split_call. by subst.
  - unfold withdrawAllAndDeactivate in H. split_call; by subst.
  - destruct HI as [Hpos Hmax]. pose proof MIN_CLAIM_AMOUNT_pos.
    unfold initiateClaim, _recordPendingCompensation in H.
    split_call; subst; bool_to_prop; unfold amounts_inv; simpl in *.
    all: split; [|lia].
    all: intros c; try done.
    all: destruct (decide (c = cid)) as [->|Hne];
      [rewrite lookup_total_insert_eq; simpl; lia | by rewrite lookup_total_insert_ne].
  - apply executeClaim_books in H as (_ & _ & _ & _ & Hp & _ & Ht & _).
    unfold amounts_inv. by rewrite Hp, Ht.
  - pose proof (disputeClaim_totals _ _ _ _ _ H) as (_ & _ & Ht & _).
    apply disputeClaim_effect in H as (_ & _ & _ & _ & _ & _ & _ & Hp & _).
    unfold amounts_inv. by rewrite Hp, Ht.
  - unfold fundEmergencyPool in H. split_call; by subst.
  - unfold fundPlatformInsurance in H. split_call; by subst.
Qed.

Lemma reachable_amounts_inv (st : State L) : reachable st -> amounts_inv st.
Proof.
  induction 1 as [tok o | s m c s' _ IH Hw Hrun].
  - split; simpl; [|done]. intros cid. by rewrite lookup_total_empty.
  - eapply run_amounts_inv; eassumption.
Qed.

Lemma map_sum_delete {V : Type} `{Inhabited V} (f : V -> Z) (m : gmap Z V) k :
  f inhabitant = 0 -> map_sum f m = f (m !!! k) + map_sum f (delete k m).
Proof.
  intros Hzero. rewrite lookup_total_alt.
  destruct (m !! k) as [v|] eqn:Hk; simpl.
  - rewrite <- (insert_delete_id m k v) at 1 by done.
    by rewrite map_sum_insert_fresh by apply lookup_delete_eq.
  - rewrite delete_id by done. lia.
Qed.

(** Along a queue of distinct ids the total owed is at most the sum of
    all amounts. *)
Lemma total_owed_le_sum_amounts (pcs : gmap Z PendingCompensation) l :
  NoDup l -> (forall cid, 0 <= amount (pcs !!! cid)) ->
  total_owed pcs l <= sum_amounts pcs.
Proof.
  revert pcs. induction l as [|c l IH]; intros pcs Hnd Hpos; simpl.
  - clear Hnd. unfold sum_amounts.
    induction pcs as [|k v m Hk IHm] using map_ind.
    + by rewrite map_sum_empty.
    + rewrite map_sum_insert_fresh by done.
      pose proof (Hpos k) as Hv. rewrite lookup_total_insert_eq in Hv.
      assert (0 <= map_sum amount m); [|lia].
      apply IHm. intros cid. destruct (decide (cid = k)) as [->|Hne].
      * by rewrite lookup_total_alt, Hk.
      * pose proof (Hpos cid) as Hc. by rewrite lookup_total_insert_ne in Hc.
  - apply NoDup_cons in Hnd as [Hc Hnd].
    unfold sum_amounts. rewrite (map_sum_delete amount pcs c) by done.
    assert (total_owed pcs l = total_owed (delete c pcs) l) as ->.
    { clear -Hc. induction l as [|d l IH]; simpl; [done|].
      apply not_elem_of_cons in Hc as [Hne Hc].
      rewrite IH by done. f_equal. f_equal.
      rewrite !lookup_total_alt. by rewrite lookup_delete_ne. }
    assert (total_owed (delete c pcs) l <= sum_amounts (delete c pcs)) as Hrest.
    { apply IH; [done|]. intros cid. rewrite lookup_total_alt.
      destruct (decide (cid = c)) as [->|Hne].
      - by rewrite lookup_delete_eq.
      - rewrite lookup_delete_ne by done. rewrite <- lookup_total_alt. apply Hpos. }
    unfold sum_amounts in Hrest.
    assert (owed (pcs !!! c) <= amount (pcs !!! c)); [|lia].
    unfold owed. specialize (Hpos c). destruct (unsettled _); lia.
Qed.

(** ** Claims over time *)

(** X5. Whatever transactions follow, an existing claim that is
    [EXECUTED], [DISPUTED] (or otherwise not open) keeps its status. *)
Theorem closed_claim_stays_closed txs (st st' : State L) (cid : bytes32) :
  run_all txs st = Ok st' ->
  0 < initiatedAt (claims st !!! cid) ->
  is_open (status (claims st !!! cid)) = false ->
  status (claims st' !!! cid) = status (claims st !!! cid).
Proof.
  intros Hrun Hpos Hclosed.
  destruct (run_all_claim_evolves txs st st' Hrun cid Hpos)
    as (_ & _ & _ & _ & _ & _ & _ & _ & Hs).
  by apply Hs.
Qed.

(** X6. Whatever transactions follow, an existing claim keeps its client,
    provider, requested amount, initiation time, dispute deadline and
    reason; its paid amount never decreases and its pending amount never
    increases. *)
Theorem claim_record_history txs (st st' : State L) (cid : bytes32) :
  run_all txs st = Ok st' ->
  0 < initiatedAt (claims st !!! cid) ->
  let c := claims st !!! cid in
  let c' := claims st' !!! cid in
  client c' = client c /\ provider c' = provider c /\
  requestedAmount c' = requestedAmount c /\
  initiatedAt c' = initiatedAt c /\ disputeDeadline c' = disputeDeadline c /\
  reason c' = reason c /\
  paidAmount c <= paidAmount c' /\ pendingAmount c' <= pendingAmount c.
Proof.
  intros Hrun Hpos. cbv zeta.
  destruct (run_all_claim_evolves txs st st' Hrun cid Hpos)
    as (? & ? & ? & ? & ? & ? & ? & ? & _).
  done.
Qed.

(** X7. A commitment is used once: after a successful [initiateClaim] at
    a positive block time, and whatever transactions follow, every
    [initiateClaim] with the same commitment and a valid amount reverts
    with "Claim already exists". *)
Theorem commitment_used_once m cid prov amt why txs (st st1 st2 : State L) :
  0 < block_timestamp m ->
  initiateClaim m cid prov amt why st = Ok st1 ->
  run_all txs st1 = Ok st2 ->
  forall m' prov' amt' why',
    MIN_CLAIM_AMOUNT <= amt' <= MAX_CLAIM_AMOUNT ->
    initiateClaim m' cid prov' amt' why' st2
      = Revert (Require_failed "Claim already exists").
Proof.
  intros Hnow Hinit Hrun m' prov' amt' why' Hamt.
  apply initiateClaim_Ok in Hinit as (paid & pending & s & _ & Hclaims).
  assert (initiatedAt (claims st1 !!! cid) = block_timestamp m) as Hat.
  { by rewrite Hclaims, lookup_total_insert_eq. }
  destruct (run_all_claim_evolves txs st1 st2 Hrun cid ltac:(lia))
    as (_ & _ & _ & Hat2 & _).
  unfold initiateClaim.
  rewrite require_holds by (apply andb_true_iff; split; apply Z.leb_le; lia).
  cbn [bind]. rewrite Hat2, Hat.
  destruct (Z.eqb_spec (block_timestamp m) 0); [lia|]. reflexivity.
Qed.

(** X8. A disputed claim is never paid out by [executeClaim]: after a
    successful [disputeClaim], and whatever transactions follow, every
    [executeClaim] of that claim reverts with "Invalid claim status". *)
Theorem disputed_claim_never_executed m cid evidence txs (st st1 st2 : State L) :
  disputeClaim m cid evidence st = Ok st1 ->
  run_all txs st1 = Ok st2 ->
  forall m', executeClaim m' cid st2 = Revert (Require_failed "Invalid claim status").
Proof.
  intros Hdisp Hrun m'.
  pose proof (disputeClaim_totals _ _ _ _ _ Hdisp) as (Hpos & _).
  apply disputeClaim_effect in Hdisp as (_ & _ & Hclaims & _).
  assert (claims st1 !!! cid = set_status DISPUTED (claims st !!! cid)) as Hc.
  { by rewrite Hclaims, lookup_total_insert_eq. }
  destruct (run_all_claim_evolves txs st1 st2 Hrun cid)
    as (_ & _ & _ & Hat & _ & _ & _ & _ & Hs); [by rewrite Hc|].
  rewrite Hc in Hat, Hs. simpl in Hat, Hs. specialize (Hs eq_refl).
  unfold executeClaim. rewrite Hat, Hs.
  rewrite require_holds by (by apply Z.ltb_lt). reflexivity.
Qed.

(** X9. A claim executed with nothing pending is final: whatever
    transactions follow, every further [executeClaim] of it reverts with
    "Invalid claim status", and every [disputeClaim] of it by its provider
    reverts with "Cannot dispute". *)
Theorem executed_claim_is_final m cid txs (st st1 st2 : State L) :
  executeClaim m cid st = Ok st1 ->
  pendingAmount (claims st !!! cid) = 0 ->
  run_all txs st1 = Ok st2 ->
  (forall m', executeClaim m' cid st2 = Revert (Require_failed "Invalid claim status")) /\
  (forall m' evidence,
     msg_sender m' = provider (claims st !!! cid) ->
     disputeClaim m' cid evidence st2 = Revert (Require_failed "Cannot dispute")).
Proof.
  intros Hexec Hpending Hrun.
  apply executeClaim_books in Hexec as (Hpos & _ & _ & Hclaims & _).
  rewrite Hpending in Hclaims. simpl in Hclaims.
  assert (claims st1 !!! cid = set_status EXECUTED (claims st !!! cid)) as Hc.
  { by rewrite Hclaims, lookup_total_insert_eq. }
  destruct (run_all_claim_evolves txs st1 st2 Hrun cid)
    as (_ & Hprov & _ & Hat & _ & _ & _ & _ & Hs); [by rewrite Hc|].
  rewrite Hc in Hat, Hs, Hprov. simpl in Hat, Hs, Hprov. specialize (Hs eq_refl).
  split.
  - intros m'. unfold executeClaim. rewrite Hat, Hs.
    rewrite require_holds by (by apply Z.ltb_lt). reflexivity.
  - intros m' evidence Hsender. unfold disputeClaim. rewrite Hat, Hs, Hprov.
    rewrite require_holds by (by apply Z.ltb_lt). cbn [bind].
    rewrite require_holds by (by apply Z.eqb_eq). reflexivity.
Qed.


(** ** Providers, owner and funds *)

(** X11. A transaction leaves the records of providers other than its
    sender alone, but for claims: it never changes their active flag,
    tier or registration time, never raises their pool balance, and lowers
    it only by executing a claim against them. *)
Theorem other_providers_protected m c (st st' : State L) (a : address) :
  run m c st = Ok st' ->
  a <> msg_sender m ->
  let p := providers st !!! a in
  let p' := providers st' !!! a in
  isActive p' = isActive p /\ tier p' = tier p /\ registeredAt p' = registeredAt p /\
  poolBalance p' <= poolBalance p /\
  (poolBalance p' < poolBalance p ->
     exists cid, c = ExecuteClaim cid /\ provider (claims st !!! cid) = a).
Proof.
  intros Hrun Hne. destruct (run_provider m c st st' Hrun a) as (_ & _ & _ & H).
  by apply H.
Qed.

(** X12. A provider's history survives deactivation and reactivation:
    once a record has a registration time, no sequence of transactions
    changes that time or the tier, lowers the count of successful
    services, or changes the count of failed services. *)
Theorem provider_history_kept txs : forall (st st' : State L) (a : address),
  run_all txs st = Ok st' ->
  registeredAt (providers st !!! a) <> 0 ->
  let p := providers st !!! a in
  let p' := providers st' !!! a in
  registeredAt p' = registeredAt p /\ tier p' = tier p /\
  successfulServices p <= successfulServices p' /\
  failedServices p' = failedServices p.
Proof.
  induction txs as [|[m c] txs IH]; simpl; intros st st' a Hrun Hreg.
  - injection Hrun as <-. fields.
  - apply bind_Ok in Hrun as (st1 & H1 & Hrun).
    destruct (run_provider m c st st1 H1 a) as (Hkeep & Hfail & Hsucc & _).
    destruct (Hkeep Hreg) as [Hr Ht].
    destruct (IH st1 st' a Hrun) as (Hr' & Ht' & Hsucc' & Hfail'); [congruence|].
    repeat apply conj; try congruence; lia.
Qed.

(** X13. After a successful [withdrawAllAndDeactivate] the provider has
    an empty pool and is inactive; until it registers again, its deposits
    and withdrawals and every valid new claim against it revert with
    "Provider not active". *)
Theorem deactivated_provider_is_closed m (st st1 : State L) :
  withdrawAllAndDeactivate m st = Ok st1 ->
  let a := msg_sender m in
  poolBalance (providers st1 !!! a) = 0 /\
  isActive (providers st1 !!! a) = false /\
  totalProviderPools st1 = totalProviderPools st - poolBalance (providers st !!! a) /\
  (forall m' amt,
     msg_sender m' = a ->
     depositAdditional m' amt st1 = Revert (Require_failed "Provider not active") /\
     withdraw m' amt st1 = Revert (Require_failed "Provider not active") /\
     withdrawAllAndDeactivate m' st1 = Revert (Require_failed "Provider not active")) /\
  (forall m' cid amt why,
     MIN_CLAIM_AMOUNT <= amt <= MAX_CLAIM_AMOUNT ->
     initiatedAt (claims st1 !!! cid) = 0 ->
     initiateClaim m' cid a amt why st1 = Revert (Require_failed "Provider not active")).
Proof.
  intros H. cbv zeta.
  assert (providers st1 !!! msg_sender m
            = set_poolBalance 0 (set_isActive false (providers st !!! msg_sender m)) /\
          totalProviderPools st1
            = totalProviderPools st - poolBalance (providers st !!! msg_sender m))
    as [Hrec Htotal].
  { unfold withdrawAllAndDeactivate in H. split_call; subst; simpl.
    all: by rewrite lookup_total_insert_eq. }
  rewrite Hrec. simpl. repeat apply conj; try done.
  - intros m' amt Hsender.
    unfold depositAdditional, withdraw, withdrawAllAndDeactivate.
    by rewrite Hsender, Hrec.
  - intros m' cid amt why Hamt Hfresh. unfold initiateClaim.
    rewrite require_holds by (apply andb_true_iff; split; apply Z.leb_le; lia).
    cbn [bind]. rewrite require_holds by (by apply Z.eqb_eq). cbn [bind].
    by rewrite Hrec.
Qed.

(** X14. The owner never changes.  Only the owner can fund the
    emergency pool and the platform fund: the funding functions revert
    for every other sender, and a transaction of another sender changes
    the two funds only by executing a claim. *)
Theorem only_owner_funds m c (st : State L) :
  msg_sender m <> owner st ->
  (forall amt,
     fundEmergencyPool m amt st = Revert OwnableUnauthorizedAccount /\
     fundPlatformInsurance m amt st = Revert OwnableUnauthorizedAccount) /\
  (forall st',
     run m c st = Ok st' ->
     owner st' = owner st /\
     ((forall cid, c <> ExecuteClaim cid) ->
      emergencyPool st' = emergencyPool st /\
      platformInsuranceFund st' = platformInsuranceFund st)).
Proof.
  intros Hne. split.
  - intros amt. unfold fundEmergencyPool, fundPlatformInsurance, onlyOwner.
    destruct (Z.eqb_spec (msg_sender m) (owner st)); done.
  - intros st' H. destruct c; simpl in H.
    + unfold registerOrReactivate in H. inv_ok. subst.
      cbv zeta in H. rewrite serve_queue_process in H. revert H.
      apply (process_preserves (fun s =>
        owner s = owner st /\
        (_ -> emergencyPool s = emergencyPool st /\
              platformInsuranceFund s = platformInsuranceFund st))); done.
    + unfold depositAdditional in H. inv_ok. subst.
      cbv zeta in H. rewrite serve_queue_process in H. revert H.
      apply (process_preserves (fun s =>
        owner s = owner st /\
        (_ -> emergencyPool s = emergencyPool st /\
              platformInsuranceFund s = platformInsuranceFund st))); done.
    + unfold withdraw in H. split_call. by subst.
    + unfold withdrawAllAndDeactivate in H. split_call; by subst.
    + unfold initiateClaim, _recordPendingCompensation in H. split_call; by subst.
    + apply executeClaim_books in H as (_ & _ & _ & _ & _ & _ & _ & Ho).
      split; [done|]. intros Hno. by destruct (Hno cid).
    + pose proof (disputeClaim_totals _ _ _ _ _ H) as (_ & _ & _ & _ & _ & Ho).
      by apply disputeClaim_effect in H as (_ & _ & _ & _ & He & Hf & _).
    + unfold fundEmergencyPool, onlyOwner in H.
      destruct (Z.eqb_spec (msg_sender m) (owner st)); done.
    + unfold fundPlatformInsurance, onlyOwner in H.
      destruct (Z.eqb_spec (msg_sender m) (owner st)); done.
Qed.

(** ** Views *)

Lemma getProviderPendingCompensations_spec (prov : address) (st : State L) :
  let l := providerPendingCompensations st !!! prov in
  let pcs := pendingCompensations st in
  let live := filter (fun cid => unsettled (pcs !!! cid) = true) l in
  getProviderPendingCompensations prov st =
    let* total := sum_pending pcs l 0 in
    Ok (live, map (fun cid => amount (pcs !!! cid)) live, total).
Proof.
  intros l pcs live. unfold getProviderPendingCompensations. fold l pcs.
  destruct (collect_loop_spec pcs l [] [] [] (replicate (length l) 0)
              (replicate (length l) 0) 0)
    as (cs & az & v & HC & HA & Hrun);
    [done | by rewrite length_replicate | by rewrite length_replicate |].
  simpl in HC, HA, Hrun. rewrite Hrun.
  destruct (sum_pending pcs l 0) as [total|r]; [|done].
  cbn [bind]. by rewrite HC, HA.
Qed.

(** X15. [getProviderPendingCompensations] returns the ids of the
    provider's queue that are still owed something, in queue order, with
    their amounts, and the total the distributor computes in its first
    loop; it reverts exactly when that loop does.  In every state reached
    through transactions at positive block times it does return: it lists
    the whole queue, the amounts are the pending amounts of the claims,
    and their total is at most [totalPendingCompensations]. *)
Theorem pending_view_matches_distributor (prov : address) (st : State L) :
  let l := providerPendingCompensations st !!! prov in
  let pcs := pendingCompensations st in
  let live := filter (fun cid => unsettled (pcs !!! cid) = true) l in
  getProviderPendingCompensations prov st =
    (let* total := sum_pending pcs l 0 in
     Ok (live, map (fun cid => amount (pcs !!! cid)) live, total)) /\
  (reachable_after_epoch st ->
   getProviderPendingCompensations prov st =
     Ok (l, map (fun cid => pendingAmount (claims st !!! cid)) l, total_owed pcs l) /\
   total_owed pcs l <= totalPendingCompensations st).
Proof.
  intros l pcs live. split; [apply getProviderPendingCompensations_spec|].
  intros Hreach. rewrite getProviderPendingCompensations_spec. fold l pcs.
  destruct (reachable_deferred_inv st Hreach) as (Ha & _ & Hc & Hd).
  destruct (reachable_queue_inv st Hreach prov) as [Hnd _].
  destruct (reachable_amounts_inv st (reachable_after_epoch_reachable st Hreach))
    as [Hpos Hmax].
  fold l in Hnd. fold pcs in Hpos, Hc.
  pose proof (total_owed_le_sum_amounts pcs l Hnd Hpos) as Hle.
  rewrite <- Hc in Hle. split; [|done].
  assert (filter (fun cid => unsettled (pcs !!! cid) = true) l = l) as ->.
  { specialize (Hd prov). fold l in Hd. clearbody l. clear -Hd.
    induction l as [|c l IH]; [done|].
    rewrite filter_cons_True by (apply Hd; left).
    f_equal. apply IH. intros cid Hin. apply Hd. by right. }
  rewrite (sum_pending_returns pcs l 0) by lia. cbn [bind]. do 3 f_equal.
  apply map_ext. intros cid. apply Ha.
Qed.

(** X16. What [canAcceptService] tells about a claim of the same
    amount.  It answers [false] only for a provider against which every
    [initiateClaim] reverts.  When it answers "OK" or "Near exposure
    limit", a successful [initiateClaim] schedules the whole amount for
    payment.  When the emergency pool and the platform fund are empty, "No
    funds available" means the whole amount is deferred and "Partial
    payment possible" that exactly the available collateral is scheduled
    and the rest deferred. *)
Theorem canAcceptService_predicts_schedule prov amt (st : State L) ok msg :
  0 <= emergencyPool st -> 0 <= platformInsuranceFund st ->
  canAcceptService prov amt st = Ok (ok, msg) ->
  (ok = false ->
   forall m cid why, exists r, initiateClaim m cid prov amt why st = Revert r) /\
  (forall m cid why st',
     initiateClaim m cid prov amt why st = Ok st' ->
     let c := claims st' !!! cid in
     ok = true /\
     (msg = "OK" \/ msg = "Warning: Near exposure limit, partial payment likely" ->
      paidAmount c = amt /\ pendingAmount c = 0 /\ status c = INITIATED) /\
     (emergencyPool st = 0 -> platformInsuranceFund st = 0 ->
      (msg = "Warning: No funds available, claim will be deferred" ->
       paidAmount c = 0 /\ pendingAmount c = amt /\ status c = PARTIAL) /\
      (msg = "Warning: Partial payment possible, remainder will be deferred" ->
       paidAmount c = available_of (providers st !!! prov) /\
       pendingAmount c = amt - available_of (providers st !!! prov) /\
       status c = PARTIAL))).
Proof.
  intros HE HF Hview. split.
  - intros -> m cid why.
    assert (isActive (providers st !!! prov) = false) as Hoff.
    { unfold canAcceptService in Hview.
      destruct (isActive (providers st !!! prov)); [|done].
      simpl in Hview. split_call; discriminate. }
    destruct (initiateClaim m cid prov amt why st) as [st'|r] eqn:H; [|by exists r].
    apply initiateClaim_requires in H as (_ & _ & Hon). congruence.
  - intros m cid why st' H. cbv zeta.
    pose proof (initiateClaim_requires _ _ _ _ _ _ _ H) as (Hamt & _ & Hon).
    pose proof MIN_CLAIM_AMOUNT_pos as Hmin.
    apply initiateClaim_Ok in H as (paid & pending & s & Hcase & Hclaims).
    rewrite Hclaims, lookup_total_insert_eq. simpl.
    unfold total_available in Hcase.
    pose proof (available_of_spec (providers st !!! prov)) as Hav.
    unfold canAcceptService in Hview. rewrite Hon in Hview. simpl in Hview.
    split_call; bool_to_prop; subst.
    all: split; [done|]; split.
    all: try (intros [?|?]; try discriminate).
    all: try (intros HE0 HF0; split; intros ?; try discriminate).
    all: destruct Hcase as [(? & ? & ? & ? & _)|[(? & ? & ? & ? & _)|(? & ? & ? & ? & _)]];
      subst; fields.
Qed.

(** ** More on the distributor *)

(** Rounding down loses less than one unit per entry still owed. *)
Lemma total_share_lower A T (pcs : gmap Z PendingCompensation) l :
  0 <= A < T ->
  A * total_owed pcs l
    - (T - 1) * Z.of_nat (length (filter (fun cid => unsettled (pcs !!! cid) = true) l))
  <= T * total_share A T pcs l.
Proof.
  intros HAT. induction l as [|c l IH]; simpl; [lia|].
  unfold owed at 1. destruct (unsettled (pcs !!! c)) eqn:Hu.
  - rewrite filter_cons_True by done. simpl length.
    destruct (share_floor A T (pcs !!! c) HAT Hu) as [-> _].
    pose proof (Z.div_mod (A * amount (pcs !!! c)) T ltac:(lia)).
    pose proof (Z.mod_pos_bound (A * amount (pcs !!! c)) T ltac:(lia)).
    nia.
  - rewrite filter_cons_False by (rewrite Hu; done).
    unfold share at 1. rewrite Hu. lia.
Qed.

(** X17. Rounding in one distribution with [0 < A < T] over a queue of
    distinct entries: the pool pays out at most [A], and what it keeps
    back of [A] is less than one unit per entry still owed. *)
Theorem distribution_dust_bound prov (st st' : State L) :
  let l := providerPendingCompensations st !!! prov in
  let pcs := pendingCompensations st in
  let A := available_of (providers st !!! prov) in
  let T := total_owed pcs l in
  let paid := poolBalance (providers st !!! prov) - poolBalance (providers st' !!! prov) in
  NoDup l ->
  0 < A < T ->
  _processProportionalCompensations prov st = Ok st' ->
  A - Z.of_nat (length (filter (fun cid => unsettled (pcs !!! cid) = true) l)) < paid <= A.
Proof.
  intros l pcs A T paid Hnd HAT H.
  apply process_Ok in H. fold l pcs A T in H.
  destruct H as [[-> [Hl|[HA|HT]]]|(_ & _ & _ & st1 & Hloop & ->)]; try lia.
  { subst T. rewrite Hl in HAT. simpl in HAT. lia. }
  destruct (pay_loop_NoDup prov A T l st st1 ltac:(lia) ltac:(lia) Hnd Hloop)
    as (_ & _ & Hpool & _).
  subst paid. simpl. rewrite Hpool. fold pcs.
  pose proof (total_share_lower A T pcs l ltac:(lia)) as Hlow.
  pose proof (total_share_le A T pcs l ltac:(lia) ltac:(lia)) as Hup.
  fold T in Hlow, Hup.
  set (k := Z.of_nat (length (filter (fun cid => unsettled (pcs !!! cid) = true) l))) in *.
  assert (0 < k).
  { assert (0 <= k) by (subst k; lia).
    destruct (Z.eq_dec k 0) as [Hk|]; [|lia].
    assert (T = 0); [|lia]. subst T. apply total_owed_settled.
    intros cid Hin. destruct (unsettled (pcs !!! cid)) eqn:Hu; [|done].
    assert (cid ∈ filter (fun cid => unsettled (pcs !!! cid) = true) l) as Hf
      by (by apply list_elem_of_filter).
    subst k. destruct (filter _ l); [by apply elem_of_nil in Hf | simpl in Hk; lia]. }
  split; nia.
Qed.

Lemma total_share_full A T (pcs : gmap Z PendingCompensation) l :
  0 < T <= A -> total_share A T pcs l = total_owed pcs l.
Proof.
  intros HTA. induction l as [|c l IH]; simpl; [done|]. rewrite IH. f_equal.
  unfold owed. destruct (unsettled (pcs !!! c)) eqn:Hu; [by apply share_full|].
  unfold share. by rewrite Hu.
Qed.

(** When the available collateral covers the total owed, one
    distribution over a queue of distinct, unsettled entries pays every
    claim its whole pending amount, takes exactly the total owed out of
    the pool, and leaves the queue empty. *)
Lemma process_settles_when_funded prov (st st' : State L) :
  let l := providerPendingCompensations st !!! prov in
  let pcs := pendingCompensations st in
  let A := available_of (providers st !!! prov) in
  let T := total_owed pcs l in
  NoDup l ->
  (forall cid, cid ∈ l -> unsettled (pcs !!! cid) = true) ->
  0 < T <= A ->
  _processProportionalCompensations prov st = Ok st' ->
  providerPendingCompensations st' !!! prov = [] /\
  poolBalance (providers st' !!! prov) = poolBalance (providers st !!! prov) - T /\
  forall cid, cid ∈ l ->
    let r := amount (pcs !!! cid) in
    isPaid (pendingCompensations st' !!! cid) = true /\
    amount (pendingCompensations st' !!! cid) = 0 /\
    paidAmount (claims st' !!! cid) = paidAmount (claims st !!! cid) + r /\
    pendingAmount (claims st' !!! cid) = pendingAmount (claims st !!! cid) - r.
Proof.
  intros l pcs A T Hnd Hlive HTA H.
  apply process_Ok in H. fold l pcs A T in H.
  destruct H as [[-> [Hl|[HA|HT]]]|(_ & _ & _ & st1 & Hloop & ->)]; try lia.
  { subst T. rewrite Hl in HTA. simpl in HTA. lia. }
  destruct (pay_loop_NoDup prov A T l st st1 ltac:(lia) ltac:(lia) Hnd Hloop)
    as (Hcomp & Hclaim & Hpool & _).
  fold pcs in Hcomp, Hpool, Hclaim.
  assert (forall cid, cid ∈ l -> share A T (pcs !!! cid) = amount (pcs !!! cid) /\
                                  0 < amount (pcs !!! cid)) as Hfull.
  { intros cid Hin. specialize (Hlive cid Hin). split; [by apply share_full|].
    unfold unsettled in Hlive. apply andb_true_iff in Hlive as [_ Hpos].
    by apply Z.ltb_lt. }
  assert (forall cid, cid ∈ l ->
            isPaid (pendingCompensations st1 !!! cid) = true /\
            amount (pendingCompensations st1 !!! cid) = 0) as Hsettled.
  { intros cid Hin. destruct (Hfull cid Hin) as [Hs Hpos].
    rewrite Hcomp. destruct (decide (cid ∈ l)); [|done].
    rewrite Hs. unfold comp_after.
    destruct (Z.ltb_spec 0 (amount (pcs !!! cid))); [|lia].
    rewrite Z.sub_diag. simpl. split; [done|lia]. }
  simpl. repeat apply conj.
  - rewrite lookup_total_insert_eq, compact_filter.
    clear -Hsettled. induction l as [|c l IH]; [done|].
    rewrite filter_cons_False.
    + apply IH. intros cid Hin. apply Hsettled. by right.
    + destruct (Hsettled c) as [-> _]; [left|done].
  - rewrite Hpool. f_equal. by apply total_share_full.
  - intros cid Hin. cbv zeta. destruct (Hsettled cid Hin) as [Hp Ha].
    destruct (Hfull cid Hin) as [Hs Hpos].
    repeat apply conj; try done.
    + rewrite Hclaim. destruct (decide (cid ∈ l)); [|done]. rewrite Hs.
      apply amounts_claim_after. lia.
    + rewrite Hclaim. destruct (decide (cid ∈ l)); [|done]. rewrite Hs.
      apply amounts_claim_after. lia.
Qed.

(** ** A second distribution right after the first *)

Lemma set_providerPendingCompensations_same (s : State L) :
  set_providerPendingCompensations (providerPendingCompensations s) s = s.
Proof. by destruct s. Qed.

Lemma available_of_nonneg (p : ProviderData) : 0 <= available_of p.
Proof. rewrite available_of_spec. lia. Qed.

Lemma sum_pending_fits (pcs : gmap Z PendingCompensation) l : forall acc t,
  sum_pending pcs l acc = Ok t -> acc <= MAX_UINT256 -> t <= MAX_UINT256.
Proof.
  induction l as [|c l IH]; simpl; intros acc t H Hacc.
  - by injection H as <-.
  - destruct (unsettled (pcs !!! c)).
    + inv_ok. subst. eapply IH; [eassumption|done].
    + eapply IH; eassumption.
Qed.

(** The first loop of a distribution that went on to pay found a total
    that fits a word. *)
Lemma process_total_fits prov (st st' : State L) :
  _processProportionalCompensations prov st = Ok st' ->
  providerPendingCompensations st !!! prov <> [] ->
  available_of (providers st !!! prov) <> 0 ->
  total_owed (pendingCompensations st) (providerPendingCompensations st !!! prov)
    <= MAX_UINT256.
Proof.
  unfold _processProportionalCompensations. intros H Hl HA.
  destruct (Nat.eqb_spec (length (providerPendingCompensations st !!! prov)) 0) as [Hlen|_].
  { by apply nil_length_inv in Hlen. }
  destruct (Z.eqb_spec (available_of (providers st !!! prov)) 0); [done|].
  apply bind_Ok in H as (t & Hsum & _).
  assert (0 <= MAX_UINT256) as Hmax by (by vm_compute).
  pose proof (sum_pending_fits _ _ _ _ Hsum Hmax) as Hfit.
  apply sum_pending_spec in Hsum. lia.
Qed.

Lemma total_owed_filter (pcs : gmap Z PendingCompensation) (P : Z -> Prop)
    `{!forall x, Decision (P x)} l :
  total_owed pcs (filter P l) <= total_owed pcs l.
Proof.
  induction l as [|c l IH]; [done|].
  pose proof (owed_nonneg (pcs !!! c)).
  destruct (decide (P c)).
  - rewrite filter_cons_True by done. simpl. lia.
  - rewrite filter_cons_False by done. simpl. lia.
Qed.

Lemma pay_loop_owed prov A T l l0 : forall st st' : State L,
  pay_loop prov A T l st = Ok st' ->
  total_owed (pendingCompensations st') l0 <= total_owed (pendingCompensations st) l0.
Proof.
  induction l as [|c l IH]; simpl; intros st st' H.
  - injection H as <-. lia.
  - inv_ok. eapply Z.le_trans; [eapply IH; eassumption|].
    eapply pay_entry_owed; eassumption.
Qed.

(** An entry still owed after a payment was owed before it, and for at
    least as much. *)
Lemma pay_entry_mono prov A T cid (st st' : State L) :
  pay_entry prov A T cid st = Ok st' ->
  forall c, unsettled (pendingCompensations st' !!! c) = true ->
    unsettled (pendingCompensations st !!! c) = true /\
    amount (pendingCompensations st' !!! c) <= amount (pendingCompensations st !!! c).
Proof.
  intros H c Hc.
  apply pay_entry_Ok in H as [[_ ->]|(Hp & _ & Hle & _ & _ & _ & _ & _ & _ & tok & _ & ->)];
    [split; [done|lia]|].
  simpl in Hc |- *. destruct (decide (cid = c)) as [->|Hne].
  - rewrite lookup_total_insert_eq in Hc |- *. split; [by eapply share_unsettled|].
    destruct (_ =? 0); simpl; lia.
  - rewrite lookup_total_insert_ne in Hc |- * by done. split; [done|lia].
Qed.

Lemma pay_loop_mono prov A T l : forall st st' : State L,
  pay_loop prov A T l st = Ok st' ->
  forall c, unsettled (pendingCompensations st' !!! c) = true ->
    unsettled (pendingCompensations st !!! c) = true /\
    amount (pendingCompensations st' !!! c) <= amount (pendingCompensations st !!! c).
Proof.
  induction l as [|cid l IH]; simpl; intros st st' H c Hc.
  - injection H as <-. split; [done|lia].
  - inv_ok.
    match goal with H1 : pay_entry _ _ _ _ _ = Ok ?s |- _ =>
      rename s into st1, H1 into Hentry end.
    destruct (IH _ _ H c Hc) as [Hc1 Hle1].
    destruct (pay_entry_mono _ _ _ _ _ _ Hentry c Hc1) as [Hc0 Hle0].
    split; [done|lia].
Qed.

(** The product the loop forms for an entry it finds unsettled fits a
    word, so it still fits for whatever is left of the entry afterwards. *)
Lemma pay_entry_mul_fits prov A T cid (st st' : State L) :
  pay_entry prov A T cid st = Ok st' ->
  unsettled (pendingCompensations st !!! cid) = true ->
  A * amount (pendingCompensations st !!! cid) <= MAX_UINT256.
Proof.
  unfold pay_entry. intros H Hu. rewrite Hu in H.
  apply bind_Ok in H as (x & Hx & _). by apply checked_mul_Ok in Hx as [_ ?].
Qed.

Lemma pay_loop_mul_fits prov A T l : forall st st' : State L,
  0 <= A ->
  pay_loop prov A T l st = Ok st' ->
  forall cid, cid ∈ l -> unsettled (pendingCompensations st' !!! cid) = true ->
    A * amount (pendingCompensations st' !!! cid) <= MAX_UINT256.
Proof.
  induction l as [|c l IH]; simpl; intros st st' HA H cid Hin Hu.
  - by apply elem_of_nil in Hin.
  - inv_ok.
    match goal with H1 : pay_entry _ _ _ _ _ = Ok ?s |- _ =>
      rename s into st1, H1 into Hentry end.
    apply elem_of_cons in Hin as [->|Hin]; [|by eapply IH].
    destruct (pay_loop_mono _ _ _ _ _ _ H c Hu) as [Hu1 Hle1].
    destruct (pay_entry_mono _ _ _ _ _ _ Hentry c Hu1) as [Hu0 Hle0].
    pose proof (pay_entry_mul_fits _ _ _ _ _ _ Hentry Hu0). nia.
Qed.

(** With no entry due a whole unit, the payment loop leaves the state as
    it is. *)
Lemma pay_loop_idle prov A T l (st : State L) :
  T <> 0 ->
  (forall cid, cid ∈ l -> unsettled (pendingCompensations st !!! cid) = true ->
     A * amount (pendingCompensations st !!! cid) <= MAX_UINT256) ->
  (forall cid, cid ∈ l -> share A T (pendingCompensations st !!! cid) <= 0) ->
  pay_loop prov A T l st = Ok st.
Proof.
  intros HT. induction l as [|c l IH]; simpl; intros Hfit Hidle; [done|].
  assert (pay_entry prov A T c st = Ok st) as ->.
  { unfold pay_entry. pose proof (Hidle c ltac:(left)) as Hc. unfold share in Hc.
    destruct (unsettled (pendingCompensations st !!! c)) eqn:Hu; [|done].
    rewrite checked_mul_fits by (apply Hfit; [left|done]). cbn [bind].
    unfold checked_div. destruct (Z.eqb_spec T 0); [done|]. cbn [bind].
    cbv zeta in Hc |- *.
    match goal with |- (if 0 <? ?p then _ else _) = _ =>
      destruct (Z.ltb_spec 0 p); [lia|done] end. }
  cbn [bind]. apply IH; intros cid Hin; [apply Hfit | apply Hidle]; by right.
Qed.

(** A distribution that finds no entry due a whole unit of the funds a
    first distribution left changes nothing. *)
Lemma process_idle_again prov (st st' : State L) :
  _processProportionalCompensations prov st = Ok st' ->
  let l' := providerPendingCompensations st' !!! prov in
  let A' := available_of (providers st' !!! prov) in
  let T' := total_owed (pendingCompensations st') l' in
  (forall cid, cid ∈ l' -> share A' T' (pendingCompensations st' !!! cid) <= 0) ->
  _processProportionalCompensations prov st' = Ok st'.
Proof.
  intros H l' A' T' Hidle. pose proof H as H0.
  apply process_Ok in H0 as [[-> _]|(Hl & HA & HT & st1 & Hloop & Hst')]; [done|].
  set (l := providerPendingCompensations st !!! prov) in *.
  set (A := available_of (providers st !!! prov)) in *.
  set (T := total_owed (pendingCompensations st) l) in *.
  pose proof (process_total_fits _ _ _ H Hl HA) as HTfit. fold l T in HTfit.
  pose proof (available_of_nonneg (providers st !!! prov)) as HA0. fold A in HA0.
  pose proof (total_owed_nonneg (pendingCompensations st) l) as HT0. fold T in HT0.
  destruct (pay_loop_providers prov A T l st st1 ltac:(lia) ltac:(lia) Hloop)
    as (paid & Hpaid & _ & Hpool & _ & Hlock & _).
  assert (pendingCompensations st' = pendingCompensations st1) as Hpcs by (by rewrite Hst').
  assert (providers st' = providers st1) as Hprov by (by rewrite Hst').
  assert (providerPendingCompensations st' !! prov = Some l') as Hlook.
  { unfold l'. rewrite Hst'. simpl.
    by rewrite lookup_total_insert_eq, lookup_insert_eq. }
  assert (l' = filter (fun cid => isPaid (pendingCompensations st1 !!! cid) = false) l)
    as Hl'.
  { unfold l'. rewrite Hst'. simpl. rewrite lookup_total_insert_eq. apply compact_filter. }
  assert (0 <= A' <= A) as HA'.
  { unfold A', A. rewrite Hprov, !available_of_spec, Hpool, Hlock. lia. }
  assert (T' <= MAX_UINT256) as HT'fit.
  { unfold T'. rewrite Hpcs, Hl'. eapply Z.le_trans; [apply total_owed_filter|].
    eapply Z.le_trans; [eapply pay_loop_owed; exact Hloop|]. done. }
  pose proof (total_owed_nonneg (pendingCompensations st') l') as HT'0. fold T' in HT'0.
  unfold _processProportionalCompensations. fold l' A'.
  destruct (Nat.eqb _ _); [done|]. destruct (Z.eqb_spec A' 0); [done|].
  rewrite sum_pending_returns by (fold T'; lia). fold T'. rewrite Z.add_0_l. cbn [bind].
  destruct (Z.eqb_spec T' 0); [done|].
  rewrite pay_loop_idle; [|done| |exact Hidle].
  - cbn [bind]. f_equal.
    assert (compact (pendingCompensations st') l' = l') as ->.
    { rewrite compact_filter, Hpcs, Hl'. by apply list_filter_filter_l. }
    rewrite insert_id by done. apply set_providerPendingCompensations_same.
  - intros cid Hin Hu. rewrite Hpcs in Hu |- *.
    rewrite Hl' in Hin. apply list_elem_of_filter in Hin as [_ Hin].
    pose proof (pay_loop_mul_fits prov A T l st st1 HA0 Hloop cid Hin Hu).
    unfold unsettled in Hu. bool_to_prop. nia.
Qed.

Lemma share_no_funds A T comp : A = 0 \/ T = 0 -> share A T comp = 0.
Proof.
  intros HAT. unfold share, unsettled. destruct (isPaid comp); simpl; [done|].
  destruct (Z.ltb_spec 0 (amount comp)); [|done].
  assert (A * amount comp / T = 0) as ->.
  { destruct HAT as [-> | ->]; [by rewrite Z.mul_0_l | apply Z.div_0_r]. }
  destruct (Z.ltb_spec (amount comp) 0); [lia|done].
Qed.

Lemma total_share_zero A T (pcs : gmap Z PendingCompensation) l :
  (forall cid, cid ∈ l -> share A T (pcs !!! cid) = 0) -> total_share A T pcs l = 0.
Proof.
  induction l as [|c l IH]; simpl; intros Hzero; [done|].
  rewrite Hzero by (left; done). rewrite IH; [done|].
  intros cid Hin. apply Hzero. by right.
Qed.

Lemma total_share_nonneg A T (pcs : gmap Z PendingCompensation) l :
  0 <= A -> 0 < T -> 0 <= total_share A T pcs l.
Proof.
  intros HA HT. induction l as [|c l IH]; simpl; [lia|].
  pose proof (share_nonneg A T (pcs !!! c) HA HT). lia.
Qed.

(** What one distribution over a queue of distinct entries pays: each
    entry its share, together no more than the available funds. *)
Lemma process_pays_shares prov (st st' : State L) :
  let l := providerPendingCompensations st !!! prov in
  let pcs := pendingCompensations st in
  let A := available_of (providers st !!! prov) in
  let T := total_owed pcs l in
  NoDup l ->
  _processProportionalCompensations prov st = Ok st' ->
  poolBalance (providers st' !!! prov)
    = poolBalance (providers st !!! prov) - total_share A T pcs l /\
  0 <= total_share A T pcs l <= A /\
  forall cid, cid ∈ l ->
    paidAmount (claims st' !!! cid)
      = paidAmount (claims st !!! cid) + share A T (pcs !!! cid) /\
    pendingAmount (claims st' !!! cid)
      = pendingAmount (claims st !!! cid) - share A T (pcs !!! cid).
Proof.
  intros l pcs A T Hnd H.
  pose proof (available_of_nonneg (providers st !!! prov)) as HA0. fold A in HA0.
  pose proof (total_owed_nonneg pcs l) as HT0. fold T in HT0.
  apply process_Ok in H. fold l pcs A T in H.
  destruct H as [[-> Hcase]|(_ & HA & HT & st1 & Hloop & ->)].
  - assert (forall cid, share A T (pcs !!! cid) = 0) as Hzero.
    { intros cid. destruct Hcase as [Hl|[HA|HT]]; [|by apply share_no_funds; auto..].
      destruct (Z.eq_dec T 0) as [HT|HT]; [by apply share_no_funds; auto|].
      exfalso. apply HT. unfold T. by rewrite Hl. }
    rewrite (total_share_zero A T pcs l) by (intros cid _; apply Hzero).
    repeat apply conj; try lia. intros cid _. rewrite Hzero. lia.
  - destruct (pay_loop_NoDup prov A T l st st1 ltac:(lia) ltac:(lia) Hnd Hloop)
      as (_ & Hclaim & Hpool & _).
    fold pcs in Hclaim, Hpool.
    pose proof (total_share_nonneg A T pcs l ltac:(lia) ltac:(lia)).
    pose proof (total_share_le A T pcs l ltac:(lia) ltac:(lia)) as Hup. fold T in Hup.
    simpl. repeat apply conj; try done; try nia.
    intros cid Hin. rewrite Hclaim. rewrite decide_True by done.
    apply amounts_claim_after. apply share_nonneg; lia.
Qed.

(** After a distribution with [0 < A < T] over distinct entries, the
    funds still available are less than one unit per entry that was
    owed. *)
Lemma process_leftover prov (st st' : State L) :
  let l := providerPendingCompensations st !!! prov in
  let pcs := pendingCompensations st in
  let A := available_of (providers st !!! prov) in
  let T := total_owed pcs l in
  NoDup l ->
  0 < A < T ->
  _processProportionalCompensations prov st = Ok st' ->
  available_of (providers st' !!! prov)
    < Z.of_nat (length (filter (fun cid => unsettled (pcs !!! cid) = true) l)).
Proof.
  intros l pcs A T Hnd HAT H.
  apply process_Ok in H. fold l pcs A T in H.
  destruct H as [[-> [Hl|[HA|HT]]]|(_ & _ & _ & st1 & Hloop & ->)]; try lia.
  { subst T. rewrite Hl in HAT. simpl in HAT. lia. }
  destruct (pay_loop_NoDup prov A T l st st1 ltac:(lia) ltac:(lia) Hnd Hloop)
    as (_ & _ & Hpool & _).
  destruct (pay_loop_providers prov A T l st st1 ltac:(lia) ltac:(lia) Hloop)
    as (_ & _ & _ & _ & _ & Hlock & _).
  fold pcs in Hpool.
  pose proof (total_share_lower A T pcs l ltac:(lia)) as Hlow.
  pose proof (total_share_le A T pcs l ltac:(lia) ltac:(lia)) as Hup.
  fold T in Hlow, Hup.
  simpl. rewrite available_of_spec, Hpool, Hlock.
  assert (A = Z.max 0 (poolBalance (providers st !!! prov)
                       - totalLocked (providers st !!! prov))) as HAeq
    by apply available_of_spec.
  set (k := Z.of_nat (length (filter (fun cid => unsettled (pcs !!! cid) = true) l))) in *.
  assert (0 < k).
  { assert (0 <= k) by (subst k; lia).
    destruct (Z.eq_dec k 0) as [Hk|]; [|lia].
    assert (T = 0); [|lia]. subst T. apply total_owed_settled.
    intros cid Hin. destruct (unsettled (pcs !!! cid)) eqn:Hu; [|done].
    assert (cid ∈ filter (fun cid => unsettled (pcs !!! cid) = true) l) as Hf
      by (by apply list_elem_of_filter).
    subst k. destruct (filter _ l); [by apply elem_of_nil in Hf | simpl in Hk; lia]. }
  assert (A - total_share A T pcs l < k) by nia.
  lia.
Qed.

(** C5 (amended).  The distributor changes nothing when the queue is
    empty, when no funds are available, or when every queued entry is
    settled.  A second invocation right after a first one changes nothing
    when the first was made with available funds covering the total
    owed, and more generally whenever the funds [A'] the first one left
    give no entry left in the queue a whole unit, that is, whenever
    [A' * r / T'] rounds down to zero for each of them.  Over a queue of
    distinct entries the second invocation otherwise pays each entry that
    share of the leftover and nothing else: together no more than [A'],
    which after a first invocation with [0 < A < T] is less than one unit
    per entry that was owed. *)
Theorem distributor_idempotent_when_funded prov (st : State L) :
  let l := providerPendingCompensations st !!! prov in
  let A := available_of (providers st !!! prov) in
  (l = [] \/ A = 0 \/ (forall cid, cid ∈ l -> unsettled (pendingCompensations st !!! cid) = false) ->
   _processProportionalCompensations prov st = Ok st) /\
  (forall st',
     _processProportionalCompensations prov st = Ok st' ->
     let pcs' := pendingCompensations st' in
     let l' := providerPendingCompensations st' !!! prov in
     let A' := available_of (providers st' !!! prov) in
     let T' := total_owed pcs' l' in
     (total_owed (pendingCompensations st) l <= A ->
      _processProportionalCompensations prov st' = Ok st') /\
     ((forall cid, cid ∈ l' -> share A' T' (pcs' !!! cid) = 0) ->
      _processProportionalCompensations prov st' = Ok st') /\
     (NoDup l ->
      (0 < A < total_owed (pendingCompensations st) l ->
       A' < Z.of_nat (length (filter
                 (fun cid => unsettled (pendingCompensations st !!! cid) = true) l))) /\
      forall st'',
        _processProportionalCompensations prov st' = Ok st'' ->
        poolBalance (providers st'' !!! prov)
          = poolBalance (providers st' !!! prov) - total_share A' T' pcs' l' /\
        0 <= total_share A' T' pcs' l' <= A' /\
        forall cid, cid ∈ l' ->
          paidAmount (claims st'' !!! cid)
            = paidAmount (claims st' !!! cid) + share A' T' (pcs' !!! cid) /\
          pendingAmount (claims st'' !!! cid)
            = pendingAmount (claims st' !!! cid) - share A' T' (pcs' !!! cid))).
Proof.
  intros l A. split.
  - intros Hcase. unfold _processProportionalCompensations. fold l A.
    destruct Hcase as [->|[->|Hall]]; [done| |].
    + by destruct (Nat.eqb _ _).
    + destruct (Nat.eqb _ _); [done|]. destruct (A =? 0); [done|].
      rewrite sum_pending_settled by done. done.
  - intros st' H pcs' l' A' T'. repeat apply conj.
    + intros Hfunded. pose proof H as H0.
      apply process_Ok in H0 as [[-> _]|(Hl & HA & HT & st1 & Hloop & ->)]; [done|].
      fold l A in HT, Hloop, Hfunded.
      pose proof (total_owed_nonneg (pendingCompensations st) l).
      destruct (pay_loop_settles _ _ _ _ _ _ ltac:(split; [|exact Hfunded]; lia) Hloop)
        as [_ Hall].
      unfold _processProportionalCompensations. simpl.
      rewrite lookup_total_insert_eq.
      destruct (Nat.eqb _ _); [done|]. destruct (_ =? 0); [done|].
      rewrite sum_pending_settled; [done|].
      intros cid Hin. rewrite compact_filter in Hin.
      apply list_elem_of_filter in Hin as [_ Hin]. by apply Hall.
    + intros Hidle. apply (process_idle_again prov st st' H).
      intros cid Hin. exact (Z.eq_le_incl _ _ (Hidle cid Hin)).
    + intros Hnd. split; [intros HAT; by apply (process_leftover prov st st')|].
      intros st'' H2.
      assert (NoDup l') as Hnd'.
      { pose proof H as H0.
        apply process_Ok in H0 as [[-> _]|(_ & _ & _ & st1 & _ & ->)]; [done|].
        unfold l'. simpl. rewrite lookup_total_insert_eq, compact_filter.
        by apply NoDup_filter. }
      exact (process_pays_shares prov st' st'' Hnd' H2).
Qed.

Lemma reachable_claims_inv (st : State L) : reachable st -> claims_inv st.
Proof.
  induction 1 as [tok o | s m c s' _ IH Hw Hrun].
  - intros cid. simpl. rewrite lookup_total_empty. reflexivity.
  - eapply run_claims_inv; eassumption.
Qed.

(** X18. A top-up that covers everything owed settles the queue.  In a
    state reached through transactions at positive block times, when a
    successful [depositAdditional] or [registerOrReactivate] of [amt]
    leaves the sender with available collateral of at least the total
    owed along its queue, every queued claim ends with nothing pending and
    its whole requested amount paid, the queue is empty, and the pool
    holds the deposit less the total owed. *)
Theorem top_up_settles_deferred_claims m c amt (st st' : State L) :
  let prov := msg_sender m in
  let l := providerPendingCompensations st !!! prov in
  let T := total_owed (pendingCompensations st) l in
  let p0 := providers st !!! prov in
  reachable_after_epoch st ->
  c = DepositAdditional amt \/ c = RegisterOrReactivate amt ->
  run m c st = Ok st' ->
  0 < T <= poolBalance p0 + amt - totalLocked p0 ->
  providerPendingCompensations st' !!! prov = [] /\
  poolBalance (providers st' !!! prov) = poolBalance p0 + amt - T /\
  forall cid, cid ∈ l ->
    pendingAmount (claims st' !!! cid) = 0 /\
    paidAmount (claims st' !!! cid) = requestedAmount (claims st !!! cid) /\
    requestedAmount (claims st' !!! cid) = requestedAmount (claims st !!! cid).
Proof.
  intros prov l T p0 Hreach Hc Hrun HT.
  destruct (reachable_deferred_inv st Hreach) as (Ha & _ & _ & Hd).
  destruct (reachable_queue_inv st Hreach prov) as [Hnd Hex].
  pose proof (reachable_claims_inv st (reachable_after_epoch_reachable st Hreach)) as Hclaims.
  assert (exists p1 tok,
            poolBalance p1 = poolBalance p0 + amt /\ totalLocked p1 = totalLocked p0 /\
            _processProportionalCompensations prov
              (set_totalProviderPools (totalProviderPools st + amt)
                 (set_providers (<[prov := p1]> (providers st)) (set_usdcToken tok st)))
            = Ok st') as (p1 & tok & Hpool & Hlocked & Hprocess).
  { destruct Hc as [-> | ->]; simpl in Hrun.
    - unfold depositAdditional in Hrun. fold prov p0 in Hrun. inv_ok. subst.
      cbv zeta in Hrun. rewrite serve_queue_process in Hrun.
      eexists _, _. split; [|split; [|exact Hrun]]; done.
    - unfold registerOrReactivate in Hrun. fold prov p0 in Hrun. inv_ok. subst.
      cbv zeta in Hrun. rewrite serve_queue_process in Hrun.
      eexists _, _. split; [|split; [|exact Hrun]]; simpl.
      + by destruct (registeredAt p0 =? 0).
      + by destruct (registeredAt p0 =? 0). }
  set (st1 := set_totalProviderPools (totalProviderPools st + amt)
                (set_providers (<[prov := p1]> (providers st)) (set_usdcToken tok st)))
    in Hprocess.
  destruct (process_settles_when_funded prov st1 st') as (Hempty & Hpaid & Hall).
  - exact Hnd.
  - intros cid Hin. by apply (Hd prov).
  - subst st1. simpl. rewrite lookup_total_insert_eq.
    unfold available_of. rewrite Hpool, Hlocked. fold l T.
    destruct (Z.ltb_spec (totalLocked p0) (poolBalance p0 + amt)); lia.
  - exact Hprocess.
  - split; [exact Hempty|]. split.
    + rewrite Hpaid. subst st1. simpl. rewrite lookup_total_insert_eq. by rewrite Hpool.
    + intros cid Hin. destruct (Hall cid Hin) as (_ & _ & Hp & Hq).
      simpl in Hp, Hq. specialize (Hclaims cid). unfold claim_ok in Hclaims.
      specialize (Ha cid).
      assert (requestedAmount (claims st' !!! cid) = requestedAmount (claims st !!! cid))
        as Hreq.
      { destruct (process_claim_evolves prov st1 st' Hprocess cid)
          as (_ & _ & Hr & _); [|done]. subst st1. simpl. by apply Hex. }
      repeat apply conj; [lia | lia | done].
Qed.

(** ** Edge behaviour of deposits and disputes *)

(** X19. [registerOrReactivate] does not check the pool ceiling: for a
    provider registered before, with an empty queue, any amount between
    the minimum deposit and [MAX_POOL_BALANCE] that the token transfers
    is added to the pool and the record made active, its history kept.
    This also holds where [depositAdditional] rejects the same amount
    with "Exceeds maximum" because the pool would pass
    [MAX_POOL_BALANCE]. *)
Theorem registerOrReactivate_ignores_pool_ceiling m amt tok (st : State L) :
  let a := msg_sender m in
  let p0 := providers st !!! a in
  MIN_POOL_BALANCE <= amt <= MAX_POOL_BALANCE ->
  registeredAt p0 <> 0 ->
  providerPendingCompensations st !!! a = [] ->
  transferFrom a amt (usdcToken st) = Some tok ->
  poolBalance p0 + amt <= MAX_UINT256 ->
  totalProviderPools st + amt <= MAX_UINT256 ->
  registerOrReactivate m amt st =
    Ok (set_totalProviderPools (totalProviderPools st + amt)
          (set_providers
             (<[a := set_poolBalance (poolBalance p0 + amt) (set_isActive true p0)]>
                (providers st))
             (set_usdcToken tok st))) /\
  (isActive p0 = true -> MAX_POOL_BALANCE < poolBalance p0 + amt ->
   depositAdditional m amt st = Revert (Require_failed "Exceeds maximum")).
Proof.
  intros a p0 Hamt Hreg Hqueue Htr Hpool Htotal. split.
  - unfold registerOrReactivate. fold a p0.
    rewrite require_holds by (apply Z.leb_le; lia). cbn [bind].
    rewrite require_holds by (apply Z.leb_le; lia). cbn [bind].
    destruct (Z.eqb_spec (registeredAt p0) 0); [done|].
    rewrite Htr. cbn [require_token bind].
    rewrite checked_add_fits by lia. cbn [bind].
    rewrite checked_add_fits by lia. cbn [bind].
    simpl. by rewrite Hqueue.
  - intros Hactive Hover. unfold depositAdditional. fold a p0.
    rewrite Hactive. cbn [require bind].
    rewrite checked_add_fits by lia. cbn [bind].
    destruct (Z.leb_spec (poolBalance p0 + amt) MAX_POOL_BALANCE); [lia|done].
Qed.

Lemma disputeClaim_others m cid evidence (st st' : State L) :
  disputeClaim m cid evidence st = Ok st' ->
  forall a, a <> msg_sender m -> providers st' !!! a = providers st !!! a.
Proof.
  intros H a Ha. unfold disputeClaim in H.
  split_call; subst; simpl; rewrite ?lookup_total_insert_ne by done; done.
Qed.

(** More available funds never lower an entry's share. *)
Lemma share_mono A A' T comp :
  A <= A' -> 0 <= T -> share A T comp <= share A' T comp.
Proof.
  intros HA HT. unfold share. destruct (unsettled comp) eqn:Hu; [|lia].
  unfold unsettled in Hu. bool_to_prop.
  destruct (Z.eq_dec T 0) as [->|HT0].
  { rewrite !Z.div_0_r. lia. }
  assert (A * amount comp / T <= A' * amount comp / T) by (apply Z.div_le_mono; nia).
  destruct (Z.ltb_spec (amount comp) (A * amount comp / T)),
           (Z.ltb_spec (amount comp) (A' * amount comp / T)); lia.
Qed.

(** X20. A dispute does not cancel the deferred part of a claim, and does
    not lower what the distributor has to pay it from.  [disputeClaim]
    leaves the claim's pending amount, the compensation entries, the
    queues and their total as they are, moves no pool balance, and can
    only release collateral of the disputing provider.  So for every
    provider the total owed along its queue is unchanged, the available
    funds the distributor computes do not shrink (and are unchanged for
    every provider but the sender), and the share it computes for any
    entry, the disputed claim's included, is at least what it was before
    the dispute. *)
Theorem dispute_keeps_deferred_compensation m cid evidence (st st' : State L) :
  disputeClaim m cid evidence st = Ok st' ->
  0 <= totalLocked (providers st !!! msg_sender m) ->
  status (claims st' !!! cid) = DISPUTED /\
  pendingAmount (claims st' !!! cid) = pendingAmount (claims st !!! cid) /\
  pendingCompensations st' = pendingCompensations st /\
  providerPendingCompensations st' = providerPendingCompensations st /\
  totalPendingCompensations st' = totalPendingCompensations st /\
  forall a,
    let T := total_owed (pendingCompensations st) (providerPendingCompensations st !!! a) in
    let A := available_of (providers st !!! a) in
    let A' := available_of (providers st' !!! a) in
    total_owed (pendingCompensations st') (providerPendingCompensations st' !!! a) = T /\
    poolBalance (providers st' !!! a) = poolBalance (providers st !!! a) /\
    A <= A' /\
    (a <> msg_sender m -> A' = A) /\
    forall c,
      share A T (pendingCompensations st !!! c) <= share A' T (pendingCompensations st' !!! c).
Proof.
  intros H Hlock.
  pose proof (disputeClaim_totals _ _ _ _ _ H) as (_ & _ & Ht & _).
  pose proof (disputeClaim_others _ _ _ _ _ H) as Hothers.
  apply disputeClaim_effect in H
    as (_ & _ & Hclaims & _ & _ & _ & _ & Hp & Hq & Hpool & Hlocked).
  rewrite Hclaims, Hp, Hq, lookup_total_insert_eq. simpl.
  repeat apply conj; try done.
  intros a.
  set (T := total_owed (pendingCompensations st) (providerPendingCompensations st !!! a)).
  set (A := available_of (providers st !!! a)).
  set (A' := available_of (providers st' !!! a)).
  assert (A <= A') as HAA'.
  { unfold A, A'. rewrite !available_of_spec, Hpool.
    destruct (decide (a = msg_sender m)) as [->|Ha]; [|rewrite Hothers by done; lia].
    rewrite Hlocked.
    destruct (Z.ltb_spec 0 (paidAmount (claims st !!! cid))) as [HP|HP]; [|lia].
    assert (0 <= paidAmount (claims st !!! cid) * PENALTY_RATE / 10000)
      by (apply Z.div_pos; [unfold PENALTY_RATE; lia | lia]).
    assert (0 <= paidAmount (claims st !!! cid) * PLATFORM_FEE_RATE / 10000)
      by (apply Z.div_pos; [unfold PLATFORM_FEE_RATE; lia | lia]).
    lia. }
  repeat apply conj; try done.
  - intros Ha. unfold A', A. by rewrite Hothers.
  - intros c. apply share_mono; [done | apply total_owed_nonneg].
Qed.

End Proofs.

(** * The payment contract: proofs *)

(** ** [uint2str] *)

Section Uint2str.
Local Open Scope N_scope.

Lemma count_digits_zero len : Payment.count_digits 0 len = len.
Proof. by simp count_digits. Qed.

Lemma count_digits_step j len :
  j <> 0 -> Payment.count_digits j len = Payment.count_digits (j / 10) (S len).
Proof.
  intros Hne. rewrite Payment.count_digits_equation_1.
  destruct (N.eq_dec j 0); [done|]. by rewrite Payment.count_digits_clause_1_equation_2.
Qed.

Lemma count_digits_acc j : forall len,
  Payment.count_digits j len = (len + Payment.count_digits j 0)%nat.
Proof.
  induction (N.lt_wf_0 j) as [j _ IH]. intros len.
  destruct (N.eq_dec j 0) as [->|Hne].
  - rewrite !count_digits_zero. lia.
  - rewrite (count_digits_step j len), (count_digits_step j 0%nat) by done.
    assert (j / 10 < j) as Hlt by (apply N.div_lt; lia).
    rewrite (IH _ Hlt (S len)), (IH _ Hlt 1%nat). lia.
Qed.

Lemma write_digits_zero k bstr : Payment.write_digits 0 k bstr = Ok bstr.
Proof. by simp write_digits. Qed.

Lemma write_digits_step _i k bstr :
  _i <> 0 -> (k < length bstr)%nat ->
  Payment.write_digits _i (S k) bstr =
  Payment.write_digits (_i / 10) k (<[k := Ascii.ascii_of_N (48 + _i mod 10)]> bstr).
Proof.
  intros Hne Hk. rewrite Payment.write_digits_equation_1.
  destruct (N.eq_dec _i 0); [done|]. simp write_digits. cbv zeta.
  assert (10 <> 0) as H10 by done.
  pose proof (N.div_mod _i 10 H10) as Hdm. pose proof (N.mod_lt _i 10 H10) as Hd.
  assert (_i - _i / 10 * 10 = _i mod 10) as ->.
  { revert Hdm. generalize (_i / 10) (_i mod 10). intros a r Hdm. lia. }
  rewrite (N.mod_small (_i mod 10) 256).
  2:{ revert Hd. generalize (_i mod 10). intros r Hd. lia. }
  destruct (N.ltb_spec 255 (48 + _i mod 10)) as [Hbig|_].
  { revert Hd Hbig. generalize (_i mod 10). intros r Hd Hbig. lia. }
  destruct (decide (k < length bstr)%nat); [|lia].
  by rewrite (Payment.write_digits_equation_1 (_i / 10)).
Qed.

Lemma decimal_value_snoc ds d :
  Payment.decimal_value (ds ++ [d])
  = 10 * Payment.decimal_value ds + (Ascii.N_of_ascii d - 48).
Proof. unfold Payment.decimal_value. by rewrite fold_left_app. Qed.

(** The second loop writes the digits of [_i] in front of [suf]. *)
Lemma write_digits_spec _i : forall (pre suf : list Ascii.ascii),
  length pre = Payment.count_digits _i 0 ->
  exists ds,
    Payment.write_digits _i (length pre) (pre ++ suf) = Ok (ds ++ suf) /\
    length ds = length pre /\
    Forall Payment.is_decimal_digit ds /\
    Payment.decimal_value ds = _i /\
    (_i <> 0 -> exists d rest, ds = d :: rest /\ Ascii.N_of_ascii d <> 48).
Proof.
  induction (N.lt_wf_0 _i) as [_i _ IH]. intros pre suf Hlen.
  destruct (N.eq_dec _i 0) as [->|Hne].
  - rewrite count_digits_zero in Hlen. apply nil_length_inv in Hlen as ->.
    exists []. simpl. rewrite write_digits_zero. repeat apply conj; try done.
  - rewrite count_digits_step, count_digits_acc in Hlen by done. simpl in Hlen.
    induction pre as [|x pre' _] using rev_ind; [done|].
    rewrite length_app in Hlen. simpl in Hlen.
    assert (length pre' = Payment.count_digits (_i / 10) 0) as Hlen' by lia.
    assert (_i / 10 < _i) as Hlt by (apply N.div_lt; lia).
    destruct (IH _ Hlt pre' (Ascii.ascii_of_N (48 + _i mod 10) :: suf) Hlen')
      as (ds & Hrun & Hds & Hdigits & Hvalue & Hlead).
    assert (10 <> 0) as H10 by done.
    pose proof (N.div_mod _i 10 H10) as Hdm. pose proof (N.mod_lt _i 10 H10) as Hd.
    assert (Ascii.N_of_ascii (Ascii.ascii_of_N (48 + _i mod 10)) = 48 + _i mod 10) as Hd'.
    { apply Ascii.N_ascii_embedding.
      revert Hd. generalize (_i mod 10). intros r Hd. lia. }
    exists (ds ++ [Ascii.ascii_of_N (48 + _i mod 10)]).
    repeat apply conj.
    + rewrite length_app. simpl. rewrite Nat.add_1_r.
      rewrite write_digits_step; [|done|rewrite !length_app; simpl; lia].
      rewrite <- app_assoc. simpl.
      rewrite insert_app_r_alt by lia. rewrite Nat.sub_diag. simpl.
      rewrite Hrun. by rewrite <- app_assoc.
    + rewrite !length_app. simpl. lia.
    + apply Forall_app. split; [done|]. apply Forall_singleton.
      unfold Payment.is_decimal_digit. rewrite Hd'.
      revert Hd. generalize (_i mod 10). intros r Hd. lia.
    + rewrite decimal_value_snoc, Hvalue, Hd'.
      revert Hdm. generalize (_i / 10) (_i mod 10). intros a r Hdm. lia.
    + intros _. destruct (N.eq_dec (_i / 10) 0) as [Hz|Hnz].
      * rewrite Hz, count_digits_zero in Hlen'. rewrite Hlen' in Hds.
        apply nil_length_inv in Hds as ->. simpl. eexists _, []. split; [done|].
        rewrite Hd'. rewrite Hz in Hdm.
        revert Hdm. generalize (_i mod 10). intros r Hdm. lia.
      * destruct (Hlead Hnz) as (d & rest & -> & Hd0).
        exists d, (rest ++ [Ascii.ascii_of_N (48 + _i mod 10)]). done.
Qed.

(** X21. [uint2str] returns for every number, with its decimal
    representation: a string of digits that reads back as the number,
    "0" for zero and without a leading zero otherwise. *)
Theorem uint2str_decimal (n : N) :
  exists s,
    Payment.uint2str n = Ok s /\
    Forall Payment.is_decimal_digit (String.list_ascii_of_string s) /\
    Payment.decimal_value (String.list_ascii_of_string s) = n /\
    (n = 0 -> s = "0"%string) /\
    (n <> 0 -> exists d rest,
       String.list_ascii_of_string s = d :: rest /\ Ascii.N_of_ascii d <> 48).
Proof.
  unfold Payment.uint2str. destruct (N.eqb_spec n 0) as [->|Hne].
  - exists "0"%string. repeat apply conj; try done.
    apply Forall_singleton. unfold Payment.is_decimal_digit. simpl. lia.
  - set (len := Payment.count_digits n 0).
    destruct (write_digits_spec n (replicate len Ascii.zero) [])
      as (ds & Hrun & _ & Hdigits & Hvalue & Hlead).
    { by rewrite length_replicate. }
    rewrite length_replicate, !app_nil_r in Hrun. rewrite Hrun. cbn [bind].
    eexists. split; [reflexivity|].
    rewrite String.list_ascii_of_string_of_list_ascii.
    repeat apply conj; done.
Qed.

End Uint2str.

(** ** [toHexString] *)

Lemma byte_at_spec (data : Z) (i : nat) :
  (i < 32)%nat ->
  Payment.byte_at data i = (data / 2 ^ (8 * (31 - Z.of_nat i))) mod 256.
Proof.
  intros Hi. unfold Payment.byte_at.
  rewrite Z.shiftr_div_pow2 by lia.
  change 255 with (Z.ones 8). rewrite Z.land_ones by lia. reflexivity.
Qed.

Lemma hex_digit_nth (v : Z) :
  0 <= v < 16 ->
  Payment.hex_digit_value (nth (Z.to_nat v) Payment.alphabet Ascii.zero) = v /\
  nth (Z.to_nat v) Payment.alphabet Ascii.zero ∈ Payment.alphabet.
Proof.
  intros Hv.
  assert (v = 0 \/ v = 1 \/ v = 2 \/ v = 3 \/ v = 4 \/ v = 5 \/ v = 6 \/ v = 7 \/
          v = 8 \/ v = 9 \/ v = 10 \/ v = 11 \/ v = 12 \/ v = 13 \/ v = 14 \/ v = 15)
    as Hcases by lia.
  repeat (destruct Hcases as [->|Hcases]); try subst v;
    (split; [reflexivity | apply (bool_decide_unpack _); vm_compute; exact I]).
Qed.

(** The loop writes two digits per byte; read back from [acc], the
    digits of the last [n] bytes append those bytes to [acc]. *)
Lemma hex_loop_spec (data : Z) (n : nat) : forall (i : nat) (pre suf : list Ascii.ascii),
  (i + n = 32)%nat -> length pre = (i * 2)%nat -> length suf = (n * 2)%nat ->
  exists ds,
    Payment.hex_loop data n i (pre ++ suf) = pre ++ ds /\
    length ds = (n * 2)%nat /\
    Forall (fun c => c ∈ Payment.alphabet) ds /\
    forall acc,
      fold_left (fun acc c => 16 * acc + Payment.hex_digit_value c) ds acc
      = acc * 2 ^ (8 * Z.of_nat n) + data mod 2 ^ (8 * Z.of_nat n).
Proof.
  induction n as [|n IH]; intros i pre suf Hin Hpre Hsuf.
  - apply nil_length_inv in Hsuf as ->. exists []. simpl.
    repeat apply conj; try done. intros acc. rewrite Z.mod_1_r. lia.
  - destruct suf as [|c1 [|c2 suf]]; simpl in Hsuf; try lia.
    cbn [Payment.hex_loop].
    set (b := Payment.byte_at data i).
    assert (b = (data / 2 ^ (8 * Z.of_nat n)) mod 256) as Hb.
    { subst b. rewrite byte_at_spec by lia. do 3 f_equal. lia. }
    assert (0 <= b < 256) as Hrange by (rewrite Hb; apply Z.mod_pos_bound; lia).
    assert (Z.shiftr b 4 = b / 16) as Hhi by (by rewrite Z.shiftr_div_pow2).
    assert (Z.land b 15 = b mod 16) as Hlo.
    { change 15 with (Z.ones 4). by rewrite Z.land_ones. }
    rewrite Hhi, Hlo.
    assert (0 <= b / 16 < 16) as Hhr.
    { split; [apply Z.div_pos; lia | apply Z.div_lt_upper_bound; lia]. }
    assert (0 <= b mod 16 < 16) as Hlr by (apply Z.mod_pos_bound; lia).
    destruct (hex_digit_nth (b / 16) Hhr) as [Hhv Hhin].
    destruct (hex_digit_nth (b mod 16) Hlr) as [Hlv Hlin].
    set (hi := nth (Z.to_nat (b / 16)) Payment.alphabet Ascii.zero) in *.
    set (lo := nth (Z.to_nat (b mod 16)) Payment.alphabet Ascii.zero) in *.
    assert (<[(1 + i * 2)%nat := lo]> (<[(i * 2)%nat := hi]> (pre ++ c1 :: c2 :: suf))
            = (pre ++ [hi; lo]) ++ suf) as ->.
    { rewrite (insert_app_r_alt pre _ (i * 2)) by lia.
      replace (i * 2 - length pre)%nat with 0%nat by lia. simpl.
      rewrite (insert_app_r_alt pre _ (S (i * 2))) by lia.
      replace (S (i * 2) - length pre)%nat with 1%nat by lia. simpl.
      by rewrite <- app_assoc. }
    destruct (IH (S i) (pre ++ [hi; lo]) suf) as (ds & Hrun & Hlen & Hall & Hfold);
      [lia | rewrite length_app; simpl; lia | lia |].
    exists (hi :: lo :: ds). repeat apply conj.
    + rewrite Hrun. by rewrite <- app_assoc.
    + simpl. lia.
    + apply Forall_cons. split; [done|]. apply Forall_cons. by split.
    + intros acc. simpl. rewrite Hfold, Hhv, Hlv.
      replace (8 * Z.of_nat (S n)) with (8 * Z.of_nat n + 8) by lia.
      rewrite Z.pow_add_r by lia.
      rewrite (Z.rem_mul_r data (2 ^ (8 * Z.of_nat n)) (2 ^ 8)) by lia.
      change (2 ^ 8) with 256. rewrite <- Hb.
      pose proof (Z.div_mod b 16 ltac:(lia)) as Hdm.
      set (q := 2 ^ (8 * Z.of_nat n)). lia.
Qed.

(** X22. [toHexString] writes a [bytes32] as 64 hexadecimal digits,
    most significant first, that read back as the value. *)
Theorem toHexString_hex (data : Z) :
  0 <= data < 2 ^ 256 ->
  let digits := String.list_ascii_of_string (Payment.toHexString data) in
  length digits = 64%nat /\
  Forall (fun c => c ∈ Payment.alphabet) digits /\
  Payment.hex_value digits = data.
Proof.
  intros Hdata digits. subst digits. unfold Payment.toHexString.
  rewrite String.list_ascii_of_string_of_list_ascii.
  destruct (hex_loop_spec data 32 0 [] (replicate 64 Ascii.zero))
    as (ds & Hrun & Hlen & Hall & Hfold); [done..|].
  rewrite !app_nil_l in Hrun. rewrite Hrun.
  repeat apply conj; [done|done|].
  unfold Payment.hex_value. rewrite Hfold.
  change (8 * Z.of_nat 32) with 256. rewrite Z.mod_small by lia. lia.
Qed.

(** ** The order book *)

Lemma payment_onlyOwner_Ok m s u :
  Payment.onlyOwner m s = Ok u <-> msg_sender m = Payment.owner s.
Proof.
  unfold Payment.onlyOwner. rewrite require_Ok. apply Z.eqb_eq.
Qed.

(** An order as it may differ from an earlier state of the same order. *)
Lemma deliver_loop_order now ids : forall s id,
  Payment.owner (Payment.deliver_loop now ids s) = Payment.owner s /\
  Payment.insuranceEnabled (Payment.deliver_loop now ids s) = Payment.insuranceEnabled s /\
  Payment.orderList (Payment.deliver_loop now ids s) = Payment.orderList s /\
  let o := Payment.orders s !!! id in
  let o' := Payment.orders (Payment.deliver_loop now ids s) !!! id in
  Payment.client o' = Payment.client o /\ Payment.amount o' = Payment.amount o /\
  Payment.createdAt o' = Payment.createdAt o /\ Payment.refunded o' = Payment.refunded o /\
  (Payment.delivered o = true -> o' = o) /\
  (Payment.delivered o' = true -> Payment.delivered o = false ->
   Payment.deliveredAt o' = now).
Proof.
  induction ids as [|x ids IH]; intros s id; simpl.
  - repeat apply conj; try done. congruence.
  - destruct (negb (Payment.client (Payment.orders s !!! x) =? 0)
              && negb (Payment.delivered (Payment.orders s !!! x))) eqn:Hc.
    + apply andb_true_iff in Hc as [_ Hnd]. apply negb_true_iff in Hnd.
      destruct (IH (Payment.set_orders
                      (<[x := Payment.mark_delivered now (Payment.orders s !!! x)]>
                         (Payment.orders s)) s) id)
        as (Ho & He & Hl & Hc1 & Ha & Hcr & Hr & Hkeep & Hat).
      simpl in *. repeat apply conj; try done.
      all: destruct (decide (id = x)) as [->|Hne];
        [rewrite lookup_total_insert_eq in * | rewrite lookup_total_insert_ne in * by done];
        simpl in *; try done.
      * congruence.
      * intros _ _. by rewrite Hkeep.
    + apply IH.
Qed.

(** What one transaction on the order book does to an order. *)
Lemma payment_run_order m c s s' id :
  Payment.run m c s = Ok s' ->
  msg_sender m = Payment.owner s /\
  Payment.owner s' = Payment.owner s /\
  Payment.insuranceEnabled s' = Payment.insuranceEnabled s /\
  let o := Payment.orders s !!! id in
  let o' := Payment.orders s' !!! id in
  (Payment.client o <> 0 ->
   Payment.client o' = Payment.client o /\ Payment.amount o' = Payment.amount o /\
   Payment.createdAt o' = Payment.createdAt o /\ Payment.refunded o' = Payment.refunded o /\
   (Payment.delivered o = true -> o' = o) /\
   (Payment.delivered o' = true -> Payment.delivered o = false ->
    Payment.deliveredAt o' = block_timestamp m)).
Proof.
  intros H. destruct c; simpl in H.
  - unfold Payment.createOrder in H. inv_ok.
    match goal with H : Payment.onlyOwner _ _ = Ok _ |- _ =>
      apply payment_onlyOwner_Ok in H end.
    subst. simpl. repeat apply conj; try done. intros Hex.
    bool_to_prop.
    destruct (decide (id = orderId)) as [->|Hne]; [done|].
    rewrite lookup_total_insert_ne by done. repeat apply conj; try done. congruence.
  - unfold Payment.deliverOrder in H. inv_ok.
    match goal with H : Payment.onlyOwner _ _ = Ok _ |- _ =>
      apply payment_onlyOwner_Ok in H end.
    subst. simpl. repeat apply conj; try done. intros Hex.
    destruct (decide (id = orderId)) as [->|Hne].
    + rewrite lookup_total_insert_eq. simpl.
      match goal with H : negb (Payment.delivered _) = true |- _ =>
        apply negb_true_iff in H; rewrite H end.
      repeat apply conj; done.
    + rewrite lookup_total_insert_ne by done. repeat apply conj; try done. congruence.
  - unfold Payment.batchDeliverOrders in H. inv_ok.
    match goal with H : Payment.onlyOwner _ _ = Ok _ |- _ =>
      apply payment_onlyOwner_Ok in H end.
    subst.
    destruct (deliver_loop_order (block_timestamp m) orderIds s id)
      as (Ho & He & Hl & Hrest).
    repeat apply conj; try done.
Qed.

(** X23. An order that exists keeps its client, amount and creation time
    through every sequence of transactions on the order book, and once it
    is delivered it never changes again: neither its delivery time nor
    any other field.  The owner never changes. *)
Theorem delivered_order_is_final txs : forall (s s' : Payment.Contract) (id : bytes32),
  Payment.run_all txs s = Ok s' ->
  Payment.client (Payment.orders s !!! id) <> 0 ->
  let o := Payment.orders s !!! id in
  let o' := Payment.orders s' !!! id in
  Payment.owner s' = Payment.owner s /\
  Payment.client o' = Payment.client o /\ Payment.amount o' = Payment.amount o /\
  Payment.createdAt o' = Payment.createdAt o /\
  (Payment.delivered o = true -> o' = o).
Proof.
  induction txs as [|[m c] txs IH]; simpl; intros s s' id H Hex.
  - injection H as <-. done.
  - apply bind_Ok in H as (s1 & H1 & H).
    destruct (payment_run_order m c s s1 id H1) as (_ & Ho & _ & Hstep).
    destruct (Hstep Hex) as (Hc & Ha & Hcr & _ & Hkeep & _).
    destruct (IH s1 s' id H) as (Ho' & Hc' & Ha' & Hcr' & Hkeep'); [congruence|].
    repeat apply conj; try congruence.
    intros Hd. rewrite Hkeep'; [by apply Hkeep|]. by rewrite Hkeep.
Qed.

(** X24. [batchDeliverOrders] is [deliverOrder] on each id in turn, the
    ids it would revert on skipped; it only reverts for a sender who is
    not the owner. *)
Theorem batchDeliverOrders_as_deliverOrder m ids (s : Payment.Contract) :
  (msg_sender m = Payment.owner s ->
   Payment.batchDeliverOrders m ids s =
     Ok (foldl (fun s id => match Payment.deliverOrder m id s with
                            | Ok s' => s'
                            | Revert _ => s
                            end) s ids)) /\
  (msg_sender m <> Payment.owner s ->
   Payment.batchDeliverOrders m ids s = Revert (Require_failed "Only owner")).
Proof.
  unfold Payment.batchDeliverOrders, Payment.onlyOwner. split.
  - intros Hown. rewrite require_holds by (by apply Z.eqb_eq). cbn [bind]. f_equal.
    revert s Hown. induction ids as [|id ids IH]; intros s Hown; simpl; [done|].
    unfold Payment.deliverOrder at 2. unfold Payment.onlyOwner.
    rewrite require_holds by (by apply Z.eqb_eq). cbn [bind].
    destruct (Payment.client (Payment.orders s !!! id) =? 0); simpl; [by apply IH|].
    destruct (Payment.delivered (Payment.orders s !!! id)); simpl; by apply IH.
  - intros Hne. destruct (Z.eqb_spec (msg_sender m) (Payment.owner s)); done.
Qed.

(** The order list names the orders that exist, each once. *)
Lemma payment_run_listed m c (s s' : Payment.Contract) :
  (forall orderId _client _amount, c = Payment.CreateOrder orderId _client _amount ->
     _client <> 0) ->
  Payment.run m c s = Ok s' ->
  NoDup (Payment.orderList s) /\
  (forall id, id ∈ Payment.orderList s <-> Payment.client (Payment.orders s !!! id) <> 0) ->
  NoDup (Payment.orderList s') /\
  (forall id, id ∈ Payment.orderList s' <-> Payment.client (Payment.orders s' !!! id) <> 0).
Proof.
  intros Hgiven H [Hnd Hlist]. destruct c; simpl in H.
  - specialize (Hgiven orderId _client _amount eq_refl).
    unfold Payment.createOrder in H. inv_ok. subst. bool_to_prop. simpl. split.
    + apply NoDup_app. repeat apply conj; [done| |apply NoDup_singleton].
      intros y Hy Hin. apply list_elem_of_singleton in Hin as ->.
      by apply Hlist in Hy.
    + intros id. rewrite elem_of_app, list_elem_of_singleton.
      destruct (decide (id = orderId)) as [->|Hne].
      * rewrite lookup_total_insert_eq. simpl. split; [done|]. by right.
      * rewrite lookup_total_insert_ne by done. rewrite Hlist. split; [|by left].
        by intros [?|?].
  - unfold Payment.deliverOrder in H. inv_ok. subst. simpl. split; [done|].
    intros id. rewrite Hlist. destruct (decide (id = orderId)) as [->|Hne].
    + by rewrite lookup_total_insert_eq.
    + by rewrite lookup_total_insert_ne.
  - unfold Payment.batchDeliverOrders in H. inv_ok. subst.
    destruct (deliver_loop_order (block_timestamp m) orderIds s 0) as (_ & _ & Hl & _).
    rewrite Hl. split; [done|]. intros id. rewrite Hlist.
    destruct (deliver_loop_order (block_timestamp m) orderIds s id)
      as (_ & _ & _ & Hc & _).
    by rewrite Hc.
Qed.

(** X25. As long as every order is created with a client, the order
    list names each existing order exactly once.  An order created with
    the zero address as client counts as absent: it can be created again,
    and its id is then listed twice. *)
Theorem order_list_names_orders :
  (forall txs m0 s,
     Payment.clients_given txs ->
     Payment.run_all txs (Payment.initial m0) = Ok s ->
     NoDup (Payment.orderList s) /\
     forall id, id ∈ Payment.orderList s <-> Payment.client (Payment.orders s !!! id) <> 0) /\
  (forall m id amt1 amt2 s,
     msg_sender m = Payment.owner s ->
     Payment.client (Payment.orders s !!! id) = 0 ->
     exists s1 s2,
       Payment.createOrder m id 0 amt1 s = Ok s1 /\
       Payment.createOrder m id 0 amt2 s1 = Ok s2 /\
       Payment.orderList s2 = Payment.orderList s ++ [id; id] /\
       Payment.amount (Payment.orders s2 !!! id) = amt2).
Proof.
  split.
  - intros txs m0 s Hgiven Hrun.
    assert (forall s0,
      NoDup (Payment.orderList s0) /\
      (forall id, id ∈ Payment.orderList s0 <->
                  Payment.client (Payment.orders s0 !!! id) <> 0) ->
      Payment.run_all txs s0 = Ok s ->
      NoDup (Payment.orderList s) /\
      (forall id, id ∈ Payment.orderList s <->
                  Payment.client (Payment.orders s !!! id) <> 0)) as Hall.
    { clear Hrun. induction txs as [|[m c] txs IH]; simpl; intros s0 Hinv H.
      - by injection H as <-.
      - apply bind_Ok in H as (s1 & H1 & H).
        apply (IH (fun m' o cl a Hin => Hgiven m' o cl a (list_elem_of_further _ _ _ Hin)) s1);
          [|done].
        eapply payment_run_listed; [|exact H1|exact Hinv].
        intros o cl a ->. apply (Hgiven m o cl a). apply list_elem_of_here. }
    apply (Hall (Payment.initial m0)); [|done]. simpl. split; [apply NoDup_nil_2|].
    intros id. rewrite lookup_total_empty. simpl. split; [|done].
    intros Hin. by apply elem_of_nil in Hin.
  - intros m id amt1 amt2 s Hown Hfree.
    unfold Payment.createOrder, Payment.onlyOwner.
    rewrite require_holds by (by apply Z.eqb_eq). cbn [bind].
    rewrite require_holds by (by apply Z.eqb_eq). cbn [bind].
    eexists _, _. split; [reflexivity|]. simpl.
    rewrite require_holds by (by apply Z.eqb_eq). cbn [bind].
    rewrite lookup_total_insert_eq. simpl.
    split; [reflexivity|]. simpl. rewrite lookup_total_insert_eq. simpl.
    by rewrite <- app_assoc.
Qed.

(** ** Claims handled by the payment contract *)

Section PaymentInsurance.
Context {L : Type} {token : IERC20 L}.

Lemma delivery_evidence_returns (orderId : bytes32) (order : Payment.Order) :
  exists evidence, Payment.delivery_evidence orderId order = Ok evidence.
Proof.
  unfold Payment.delivery_evidence.
  destruct (uint2str_decimal (Z.to_N (Payment.deliveredAt order))) as (s & -> & _).
  cbn [bind]. by eexists.
Qed.

(** X26. [handleClaim] by the owner, for an existing order, with the
    insurance enabled: for an order not delivered it does nothing; for a
    delivered order it is a [disputeClaim] by the payment contract, so it
    succeeds only for an open claim against the contract within the
    dispute period, the claim is then [DISPUTED], and whatever the
    insurance does afterwards, every [executeClaim] of it reverts.  The
    order book is never changed. *)
Theorem handleClaim_disputes_delivered self m claimCommitment orderId
    (s : Payment.Contract) (ins : State L) :
  msg_sender m = Payment.owner s ->
  Payment.insuranceEnabled s = true ->
  Payment.client (Payment.orders s !!! orderId) <> 0 ->
  let order := Payment.orders s !!! orderId in
  (Payment.delivered order = false ->
   Payment.handleClaim self m claimCommitment orderId s ins = Ok (s, ins)) /\
  (Payment.delivered order = true ->
   exists evidence,
     Payment.handleClaim self m claimCommitment orderId s ins =
       (let* ins' := disputeClaim (Payment.as_self self m) claimCommitment evidence ins in
        Ok (s, ins')) /\
     forall s' ins',
       Payment.handleClaim self m claimCommitment orderId s ins = Ok (s', ins') ->
       s' = s /\
       provider (claims ins !!! claimCommitment) = self /\
       block_timestamp m <= disputeDeadline (claims ins !!! claimCommitment) /\
       status (claims ins' !!! claimCommitment) = DISPUTED /\
       forall txs ins2 m',
         run_all txs ins' = Ok ins2 ->
         executeClaim m' claimCommitment ins2 = Revert (Require_failed "Invalid claim status")).
Proof.
  intros Hown Hon Hex order. unfold Payment.handleClaim, Payment.onlyOwner.
  rewrite require_holds by (by apply Z.eqb_eq). cbn [bind].
  rewrite Hon. cbn [require bind]. fold order.
  rewrite require_holds by (apply negb_true_iff; by apply Z.eqb_neq). cbn [bind].
  split; intros ->; [done|].
  destruct (delivery_evidence_returns orderId order) as [evidence ->]. cbn [bind].
  exists evidence. split; [done|].
  intros s' ins' H. apply bind_Ok in H as (ins1 & Hdisp & H). injection H as <- <-.
  pose proof (disputeClaim_totals _ _ _ _ _ Hdisp) as (Hpos & _).
  pose proof (disputeClaim_effect _ _ _ _ _ Hdisp) as (Hprov & Htime & Hclaims & _).
  assert (claims ins1 !!! claimCommitment
          = set_status DISPUTED (claims ins !!! claimCommitment)) as Hc.
  { by rewrite Hclaims, lookup_total_insert_eq. }
  repeat apply conj; try done.
  - by rewrite Hc.
  - intros txs ins2 m' Hrun.
    destruct (run_all_claim_evolves txs ins1 ins2 Hrun claimCommitment)
      as (_ & _ & _ & Hat & _ & _ & _ & _ & Hs); [by rewrite Hc|].
    rewrite Hc in Hat, Hs. simpl in Hat, Hs. specialize (Hs eq_refl).
    unfold executeClaim. rewrite Hat, Hs.
    rewrite require_holds by (by apply Z.ltb_lt). reflexivity.
Qed.

Lemma handle_loop_claim_evolves self m pairs (s : Payment.Contract) :
  forall (ins ins' : State L),
    Payment.handle_loop self m pairs s ins = Ok ins' ->
    forall cid, claim_evolves (claims ins !!! cid) (claims ins' !!! cid).
Proof.
  induction pairs as [|[c o] pairs IH]; simpl; intros ins ins' H cid.
  - injection H as <-. apply claim_evolves_refl.
  - destruct (_ && _).
    + apply bind_Ok in H as (at_ & _ & H). apply bind_Ok in H as (ins1 & Hdisp & H).
      eapply claim_evolves_trans; [|by apply IH].
      exact (run_claim_evolves (Payment.as_self self m) (DisputeClaim c _) ins ins1 Hdisp cid).
    + by apply IH.
Qed.

(** X27. A successful [batchHandleClaims] leaves the order book as it
    is, and every listed claim whose order exists and is delivered ends
    [DISPUTED] and is a claim against the payment contract; pairs whose
    order is missing or not delivered are skipped.  Only the owner can
    call it. *)
Theorem batchHandleClaims_disputes_delivered self m pairs
    (s s' : Payment.Contract) (ins ins' : State L) :
  Payment.batchHandleClaims self m pairs s ins = Ok (s', ins') ->
  s' = s /\ msg_sender m = Payment.owner s /\
  (forall c o,
     (c, o) ∈ pairs ->
     Payment.client (Payment.orders s !!! o) <> 0 ->
     Payment.delivered (Payment.orders s !!! o) = true ->
     status (claims ins' !!! c) = DISPUTED /\ provider (claims ins' !!! c) = self) /\
  ((forall c o,
      (c, o) ∈ pairs ->
      Payment.client (Payment.orders s !!! o) = 0 \/
      Payment.delivered (Payment.orders s !!! o) = false) ->
   ins' = ins).
Proof.
  intros H. unfold Payment.batchHandleClaims in H.
  apply bind_Ok in H as (u & Hown & H). apply payment_onlyOwner_Ok in Hown.
  apply bind_Ok in H as (ins1 & Hloop & H). injection H as <- <-.
  split; [done|]. split; [done|]. clear Hown u. split.
  - revert ins Hloop. induction pairs as [|[c0 o0] pairs IH]; intros ins Hloop c o Hin Hex Hdel.
    { by apply elem_of_nil in Hin. }
    simpl in Hloop.
    destruct (negb (Payment.client (Payment.orders s !!! o0) =? 0)
              && Payment.delivered (Payment.orders s !!! o0)) eqn:Hc.
    + apply bind_Ok in Hloop as (at_ & _ & Hloop).
      apply bind_Ok in Hloop as (ins2 & Hdisp & Hloop).
      apply elem_of_cons in Hin as [[= -> ->]|Hin]; [|by eapply IH].
      pose proof (disputeClaim_totals _ _ _ _ _ Hdisp) as (Hpos & _).
      pose proof (disputeClaim_effect _ _ _ _ _ Hdisp) as (Hprov & _ & Hclaims & _).
      assert (claims ins2 !!! c0 = set_status DISPUTED (claims ins !!! c0)) as Hrec.
      { by rewrite Hclaims, lookup_total_insert_eq. }
      destruct (handle_loop_claim_evolves _ _ _ _ _ _ Hloop c0)
        as (_ & Hp & _ & _ & _ & _ & _ & _ & Hs); [by rewrite Hrec|].
      rewrite Hrec in Hp, Hs. simpl in Hp, Hs. split; [by apply Hs|]. by rewrite Hp.
    + apply elem_of_cons in Hin as [[= -> ->]|Hin]; [|by eapply IH].
      apply andb_false_iff in Hc as [Hc|Hc]; [|congruence].
      apply negb_false_iff, Z.eqb_eq in Hc. done.
  - revert ins Hloop. induction pairs as [|[c0 o0] pairs IH]; intros ins Hloop Hskip.
    { by injection Hloop as <-. }
    simpl in Hloop.
    assert (negb (Payment.client (Payment.orders s !!! o0) =? 0)
            && Payment.delivered (Payment.orders s !!! o0) = false) as Hc.
    { destruct (Hskip c0 o0) as [Hz| ->]; [left| |by rewrite andb_false_r].
      apply Z.eqb_eq in Hz. by rewrite Hz. }
    rewrite Hc in Hloop. apply IH; [done|].
    intros c o Hin. apply (Hskip c o). by right.
Qed.

End PaymentInsurance.

(** * The provider contract: proofs *)

Section SimpleProviderProofs.
Context {L : Type} {token : IERC20 L}.

(** X28. What the provider contract records as disputed is disputed:
    in every state of the pair reached after the deployment of the
    provider contract, whatever transactions anyone sends to the
    insurance in between, each commitment with [claimDisputes] set is a
    [DISPUTED] claim against the contract in the insurance. *)
Theorem recorded_disputes_are_disputed self (s : SimpleProvider.Contract) (ins : State L) :
  SimpleProvider.reachable self s ins ->
  forall commitment,
    SimpleProvider.disputed s commitment = true ->
    0 < initiatedAt (claims ins !!! commitment) /\
    status (claims ins !!! commitment) = DISPUTED /\
    provider (claims ins !!! commitment) = self.
Proof.
  induction 1 as [m ins | s ins m t s' ins' _ IH Hrun]; intros c Hc.
  - unfold SimpleProvider.disputed in Hc. simpl in Hc. by rewrite lookup_empty in Hc.
  - assert (forall (ins1 : State L),
      (forall cid, claim_evolves (claims ins !!! cid) (claims ins1 !!! cid)) ->
      0 < initiatedAt (claims ins !!! c) /\ status (claims ins !!! c) = DISPUTED /\
        provider (claims ins !!! c) = self ->
      0 < initiatedAt (claims ins1 !!! c) /\ status (claims ins1 !!! c) = DISPUTED /\
        provider (claims ins1 !!! c) = self) as Hkeep.
    { intros ins1 Hev (Hpos & Hs & Hp).
      destruct (Hev c Hpos) as (_ & Hp' & _ & Hat & _ & _ & _ & _ & Hs').
      rewrite Hat, Hp', Hs' by (by rewrite Hs). by rewrite Hs. }
    destruct t as [c0|newOwner|cm evidence|wamt]; simpl in Hrun.
    + apply bind_Ok in Hrun as (ins1 & Hins & Hrun). injection Hrun as <- <-.
      apply (Hkeep ins1); [|by apply IH].
      by apply (run_claim_evolves m c0 ins ins1).
    + apply bind_Ok in Hrun as (s1 & Hs1 & Hrun). injection Hrun as <- <-.
      apply IH. unfold SimpleProvider.transferOwnership in Hs1. inv_ok. by subst.
    + unfold SimpleProvider.disputeClaim in Hrun.
      apply bind_Ok in Hrun as (u & _ & Hrun).
      apply bind_Ok in Hrun as (ins1 & Hdisp & Hrun). injection Hrun as <- <-.
      unfold SimpleProvider.disputed in Hc. simpl in Hc.
      destruct (decide (c = cm)) as [->|Hne].
      * pose proof (disputeClaim_totals _ _ _ _ _ Hdisp) as (Hpos & _).
        apply disputeClaim_effect in Hdisp as (Hprov & _ & Hclaims & _).
        rewrite Hclaims, lookup_total_insert_eq. simpl. done.
      * rewrite lookup_insert_ne in Hc by done.
        apply (Hkeep ins1); [|by apply IH].
        exact (run_claim_evolves (mkMsg self (block_timestamp m))
                 (DisputeClaim cm evidence) ins ins1 Hdisp).
    + unfold SimpleProvider.withdrawInsurance in Hrun.
      apply bind_Ok in Hrun as (u & _ & Hrun).
      apply bind_Ok in Hrun as (ins1 & Hw & Hrun). injection Hrun as <- <-.
      apply (Hkeep ins1); [|by apply IH].
      exact (run_claim_evolves (mkMsg self (block_timestamp m))
               (Withdraw wamt) ins ins1 Hw).
Qed.

End SimpleProviderProofs.

(** * The scenarios, run *)

Lemma run_all_reachable {L : Type} {token : IERC20 L} (txs : list (Msg * Call)) :
  forall st st' : State L,
    reachable st ->
    Forall (fun tx => well_typed tx.1 tx.2) txs ->
    run_all txs st = Ok st' ->
    reachable st'.
Proof.
  induction txs as [|[m c] txs IH]; simpl; intros st st' Hreach Hwt H.
  - by injection H as <-.
  - apply bind_Ok in H as (st1 & H1 & H).
    apply Forall_cons in Hwt as [Hwt1 Hwt].
    eapply IH; [|exact Hwt|exact H].
    eapply reachable_step; [exact Hreach|exact Hwt1|exact H1].
Qed.

Lemma well_typedb_sound (txs : list (Msg * Call)) :
  forallb well_typedb txs = true -> Forall (fun tx => well_typed tx.1 tx.2) txs.
Proof.
  intros H. apply Forall_forall. intros [m c] Hin.
  rewrite forallb_forall in H. specialize (H (m, c)).
  rewrite <- list_elem_of_In in H. specialize (H Hin).
  unfold well_typedb, well_typed, is_uint256 in *. simpl in *.
  apply andb_true_iff in H as [H Hc].
  bool_to_prop. split; [lia|].
  destruct c; try exact I; bool_to_prop; lia.
Qed.

Lemma scenario_dust_well_typed :
  Forall (fun tx => well_typed tx.1 tx.2)
    (scenario_dust ++ [(mkMsg provider_account 1005, DepositAdditional 50000)]).
Proof. apply well_typedb_sound. vm_compute. reflexivity. Qed.

(** C6, on the code. In Scenario B the three claims of 4.00 against a
    pool of 10.00 are scheduled first come, first served: 4.00, 4.00 and
    1.12 (pending 0, 0 and 2.88), not 3.33 each. *)
Theorem scenario_B_first_come_first_served :
  exists st0 st : State Ledger,
    run_all register_10 genesis = Ok st0 /\
    total_available st0 provider_account = 10000000 /\
    emergencyPool st0 = 0 /\ platformInsuranceFund st0 = 0 /\
    run_all scenario_B genesis = Ok st /\
    schedule_of st 1 = (4000000, 0, INITIATED) /\
    schedule_of st 2 = (4000000, 0, INITIATED) /\
    schedule_of st 3 = (1120000, 2880000, PARTIAL).
Proof.
  exists (result_state (run_all register_10 genesis)),
         (result_state (run_all scenario_B genesis)).
  repeat apply conj; vm_compute; reflexivity.
Qed.

(** C10, on the code. A claim left [PARTIAL] by [executeClaim] can be
    executed again: each call transfers the scheduled 0.01 to the client. *)
Theorem executeClaim_pays_partial_claim_again :
  exists st1 st2 st3 : State Ledger,
    run_all scenario_partial genesis = Ok st1 /\
    executeClaim (mkMsg client_account 2000) 2 st1 = Ok st2 /\
    executeClaim (mkMsg client_account 2001) 2 st2 = Ok st3 /\
    schedule_of st1 2 = (10000, 990000, PARTIAL) /\
    balanceOf (usdcToken st1) client_account = 0 /\
    balanceOf (usdcToken st2) client_account = 10000 /\
    balanceOf (usdcToken st3) client_account = 20000.
Proof.
  set (st1 := result_state (run_all scenario_partial genesis)).
  set (st2 := result_state (executeClaim (mkMsg client_account 2000) 2 st1)).
  set (st3 := result_state (executeClaim (mkMsg client_account 2001) 2 st2)).
  exists st1, st2, st3. repeat apply conj; vm_compute; reflexivity.
Qed.

(** C8, on the code. The second claim locked 0.01 when it was initiated;
    disputing it lowers [totalLocked] by 0.0111, and moves nothing else. *)
Theorem disputeClaim_releases_more_than_locked :
  exists st0 st1 st2 : State Ledger,
    run_all scenario_locked genesis = Ok st0 /\
    initiateClaim (mkMsg client_account 1002) 2 provider_account 1000000 NOT_DELIVERED st0
      = Ok st1 /\
    disputeClaim (mkMsg provider_account 1003) 2 "delivered" st1 = Ok st2 /\
    totalLocked (providers st1 !!! provider_account)
      - totalLocked (providers st0 !!! provider_account) = 10000 /\
    totalLocked (providers st1 !!! provider_account)
      - totalLocked (providers st2 !!! provider_account) = 11100 /\
    status (claims st2 !!! 2) = DISPUTED /\
    poolBalance (providers st2 !!! provider_account)
      = poolBalance (providers st1 !!! provider_account) /\
    usdcToken st2 = usdcToken st1 /\
    pendingCompensations st2 = pendingCompensations st1.
Proof.
  set (st0 := result_state (run_all scenario_locked genesis)).
  set (st1 := result_state (initiateClaim (mkMsg client_account 1002) 2 provider_account
                              1000000 NOT_DELIVERED st0)).
  set (st2 := result_state (disputeClaim (mkMsg provider_account 1003) 2 "delivered" st1)).
  exists st0, st1, st2. repeat apply conj; vm_compute; reflexivity.
Qed.

(** C9, on the code: an active provider deposits 0.000001, far below the
    floor of 10.00, and the deposit is accepted. *)
Lemma depositAdditional_below_floor_accepted :
  exists st st' : State Ledger,
    run_all register_10 genesis = Ok st /\
    isActive (providers st !!! provider_account) = true /\
    1 < MIN_POOL_BALANCE /\
    depositAdditional (mkMsg provider_account 1001) 1 st = Ok st' /\
    poolBalance (providers st' !!! provider_account) = 10000001.
Proof.
  set (st := result_state (run_all register_10 genesis)).
  exists st, (result_state (depositAdditional (mkMsg provider_account 1001) 1 st)).
  repeat apply conj; vm_compute; reflexivity.
Qed.

(** C5, on the code: after a deposit of 0.05 the distributor pays the
    first claim 49998 units and leaves 2 units unlocked; invoked again with
    no funds added, it pays that claim one more unit. *)
Lemma distributor_second_call_pays_again :
  exists st0 st1 st2 : State Ledger,
    run_all scenario_dust genesis = Ok st0 /\
    _processProportionalCompensations provider_account (deposited provider_account 50000 st0)
      = Ok st1 /\
    depositAdditional (mkMsg provider_account 1005) 50000 st0 = Ok st1 /\
    _processProportionalCompensations provider_account st1 = Ok st2 /\
    paidAmount (claims st1 !!! 1) = 10049998 /\
    paidAmount (claims st2 !!! 1) = 10049999 /\
    poolBalance (providers st1 !!! provider_account) = 10000002 /\
    poolBalance (providers st2 !!! provider_account) = 10000001.
Proof.
  set (st0 := result_state (run_all scenario_dust genesis)).
  set (st1 := result_state (depositAdditional (mkMsg provider_account 1005) 50000 st0)).
  set (st2 := result_state (_processProportionalCompensations provider_account st1)).
  exists st0, st1, st2. repeat apply conj; vm_compute; reflexivity.
Qed.

(** ** Instances of the theorems on the scenarios *)

Lemma pool_invariant_witness :
  let st := result_state
              (run_all (scenario_dust ++ [(mkMsg provider_account 1005, DepositAdditional 50000)])
                 genesis) in
  reachable st /\
  0 <= poolBalance (providers st !!! provider_account) /\
  totalLocked (providers st !!! provider_account)
    <= poolBalance (providers st !!! provider_account).
Proof.
  intros st.
  assert (reachable st) as Hreach.
  { apply (run_all_reachable
             (scenario_dust ++ [(mkMsg provider_account 1005, DepositAdditional 50000)])
             genesis st);
      [apply reachable_init | apply scenario_dust_well_typed | vm_compute; reflexivity]. }
  split; [exact Hreach|].
  exact (proj1 pool_invariant st Hreach provider_account).
Defined.

Lemma initiateClaim_decision_rule_witness :
  let st := result_state (run_all scenario_B_two genesis) in
  exists st',
    initiateClaim (mkMsg client_account 1003) 3 provider_account 4000000 NOT_DELIVERED st
      = Ok st' /\
    total_available st provider_account = 1120000 /\
    schedule_of st' 3 = (1120000, 4000000 - 1120000, PARTIAL).
Proof.
  intros st.
  assert (MIN_CLAIM_AMOUNT <= 4000000 <= MAX_CLAIM_AMOUNT) as Hamt
    by (split; vm_compute; discriminate).
  assert (initiatedAt (claims st !!! 3) = 0) as Hfresh by (vm_compute; reflexivity).
  assert (isActive (providers st !!! provider_account) = true) as Hactive
    by (vm_compute; reflexivity).
  assert (total_available st provider_account = 1120000) as Hav by (vm_compute; reflexivity).
  destruct (initiateClaim_decision_rule (mkMsg client_account 1003) 3 provider_account
              4000000 NOT_DELIVERED st Hamt Hfresh Hactive) as [Hrule Hreturns].
  destruct Hreturns as [st' Hst'].
  { repeat apply conj; vm_compute; discriminate. }
  exists st'. split; [exact Hst'|]. split; [exact Hav|].
  destruct (Hrule st' Hst') as (_ & _ & Hpartial & _).
  rewrite Hav in Hpartial.
  destruct Hpartial as (Hpaid & Hpending & Hstatus & _); [split; reflexivity|].
  unfold schedule_of. rewrite Hpaid, Hpending, Hstatus. reflexivity.
Defined.

Lemma executeClaim_settlement_witness :
  let st := result_state (run_all scenario_partial genesis) in
  exists st',
    executeClaim (mkMsg client_account 2000) 2 st = Ok st' /\
    poolBalance (providers st' !!! provider_account) = 10000000 - 11100 /\
    emergencyPool st' = 500 /\
    platformInsuranceFund st' = 600 /\
    transfer client_account 10000 (usdcToken st) = Some (usdcToken st').
Proof.
  intros st.
  set (st' := result_state (executeClaim (mkMsg client_account 2000) 2 st)).
  assert (executeClaim (mkMsg client_account 2000) 2 st = Ok st') as Hrun
    by (vm_compute; reflexivity).
  exists st'. split; [exact Hrun|].
  destruct (executeClaim_settlement (mkMsg client_account 2000) 2 st st' Hrun)
    as (Hpool & _ & Hemergency & Hfund & Htransfer & _).
  - vm_compute. reflexivity.
  - vm_compute. discriminate.
  - vm_compute. discriminate.
  - repeat apply conj.
    + etransitivity; [exact Hpool | vm_compute; reflexivity].
    + etransitivity; [exact Hemergency | vm_compute; reflexivity].
    + etransitivity; [exact Hfund | vm_compute; reflexivity].
    + exact Htransfer.
Defined.

Lemma depositAdditional_ceiling_only_witness :
  let st := result_state (run_all register_10 genesis) in
  depositAdditional (mkMsg provider_account 1001) 1 st
    = Ok (deposited provider_account 1 st).
Proof.
  intros st.
  destruct (depositAdditional_ceiling_only (mkMsg provider_account 1001) 1 st)
    as [_ Haccepted].
  - vm_compute. reflexivity.
  - discriminate.
  - vm_compute. discriminate.
  - etransitivity.
    + apply (Haccepted ltac:(vm_compute; discriminate)
               (result_ledger (ledger_transferFrom provider_account 1 (usdcToken st)))).
      * vm_compute. reflexivity.
      * vm_compute. discriminate.
    + vm_compute. reflexivity.
Defined.

Lemma proportional_distribution_witness :
  let st := deposited provider_account 10000000
              (result_state (run_all scenario_queue genesis)) in
  let st' := result_state (_processProportionalCompensations provider_account st) in
  _processProportionalCompensations provider_account st = Ok st' /\
  providerPendingCompensations st !!! provider_account = [2; 3; 4] /\
  paidAmount (claims st' !!! 2) = 10000000 * 4000000 / 12000000 /\
  paidAmount (claims st' !!! 3) = 10000000 * 6000000 / 12000000 /\
  paidAmount (claims st' !!! 4) = 10000000 * 2000000 / 12000000 /\
  total_share 10000000 12000000 (pendingCompensations st) [2; 3; 4] <= 10000000 /\
  distribution_headroom provider_account 10000000 12000000 [2; 3; 4] st.
Proof.
  intros st st'.
  assert (_processProportionalCompensations provider_account st = Ok st') as Hrun
    by (vm_compute; reflexivity).
  assert (providerPendingCompensations st !!! provider_account = [2; 3; 4]) as Hqueue
    by (vm_compute; reflexivity).
  destruct (proportional_distribution provider_account st) as [Hrule _].
  - apply (bool_decide_unpack _). vm_compute. exact I.
  - split; vm_compute; reflexivity.
  - destruct (Hrule st' Hrun) as (Hpaid & _ & Hsum & _).
    split; [exact Hrun|]. split; [exact Hqueue|].
    repeat apply conj.
    + destruct (Hpaid 2) as (_ & _ & H & _);
        [apply (bool_decide_unpack _); vm_compute; exact I | vm_compute; reflexivity |].
      etransitivity; [exact H | vm_compute; reflexivity].
    + destruct (Hpaid 3) as (_ & _ & H & _);
        [apply (bool_decide_unpack _); vm_compute; exact I | vm_compute; reflexivity |].
      etransitivity; [exact H | vm_compute; reflexivity].
    + destruct (Hpaid 4) as (_ & _ & H & _);
        [apply (bool_decide_unpack _); vm_compute; exact I | vm_compute; reflexivity |].
      etransitivity; [exact H | vm_compute; reflexivity].
    + etransitivity; [exact Hsum | vm_compute; discriminate].
    + intros cid Hin. cbv zeta. intros _.
      apply elem_of_cons in Hin as [->|Hin]; [repeat apply conj; vm_compute; discriminate|].
      apply elem_of_cons in Hin as [->|Hin]; [repeat apply conj; vm_compute; discriminate|].
      apply elem_of_cons in Hin as [->|Hin]; [repeat apply conj; vm_compute; discriminate|].
      apply elem_of_nil in Hin. destruct Hin.
    + vm_compute. discriminate.
    + vm_compute. discriminate.
    + vm_compute. discriminate.
    + vm_compute. eexists. reflexivity.
Defined.

Lemma distributor_idempotent_when_funded_witness :
  let q := result_state (run_all scenario_queue genesis) in
  let st := deposited provider_account 12000000 q in
  let st' := result_state (_processProportionalCompensations provider_account st) in
  let sq := deposited provider_account 10000000 q in
  let sq' := result_state (_processProportionalCompensations provider_account sq) in
  (_processProportionalCompensations provider_account st = Ok st' /\
   schedule_of st' 3 = (6000000, 0, PARTIAL) /\
   _processProportionalCompensations provider_account st' = Ok st') /\
  (_processProportionalCompensations provider_account sq = Ok sq' /\
   available_of (providers sq !!! provider_account) = 10000000 /\
   total_owed (pendingCompensations sq) (providerPendingCompensations sq !!! provider_account)
     = 12000000 /\
   providerPendingCompensations sq' !!! provider_account = [2; 3; 4] /\
   available_of (providers sq' !!! provider_account) = 1 /\
   available_of (providers sq' !!! provider_account) < 3 /\
   _processProportionalCompensations provider_account sq' = Ok sq').
Proof.
  intros q st st' sq sq'.
  assert (_processProportionalCompensations provider_account st = Ok st') as Hrun
    by (vm_compute; reflexivity).
  assert (_processProportionalCompensations provider_account sq = Ok sq') as Hrunq
    by (vm_compute; reflexivity).
  destruct (distributor_idempotent_when_funded provider_account st) as [_ Hst].
  destruct (Hst st' Hrun) as (Hfunded & _).
  destruct (distributor_idempotent_when_funded provider_account sq) as [_ Hsq].
  destruct (Hsq sq' Hrunq) as (_ & Hidle & Hdistinct).
  assert (NoDup (providerPendingCompensations sq !!! provider_account)) as Hnd
    by (apply (bool_decide_unpack _); vm_compute; exact I).
  destruct (Hdistinct Hnd) as [Hdust _].
  assert (0 < available_of (providers sq !!! provider_account)
            < total_owed (pendingCompensations sq)
                (providerPendingCompensations sq !!! provider_account)) as HAT
    by (apply conj; vm_compute; reflexivity).
  split.
  - refine (conj Hrun (conj _ (Hfunded _))).
    + vm_compute. reflexivity.
    + vm_compute. discriminate.
  - refine (conj Hrunq (conj _ (conj _ (conj _ (conj _ (conj _ (Hidle _))))))).
    + vm_compute. reflexivity.
    + vm_compute. reflexivity.
    + vm_compute. reflexivity.
    + vm_compute. reflexivity.
    + eapply Z.lt_le_trans; [exact (Hdust HAT)|]. vm_compute. discriminate.
    + intros cid Hin.
      assert (providerPendingCompensations sq' !!! provider_account = [2; 3; 4]) as Hqueue
        by (vm_compute; reflexivity).
      rewrite Hqueue in Hin.
      apply elem_of_cons in Hin as [->|Hin]; [vm_compute; reflexivity|].
      apply elem_of_cons in Hin as [->|Hin]; [vm_compute; reflexivity|].
      apply elem_of_cons in Hin as [->|Hin]; [vm_compute; reflexivity|].
      apply elem_of_nil in Hin. destruct Hin.
Defined.

(** ** Instances of the further properties on the scenarios *)

Lemma run_all_reachable_after_epoch {L : Type} {token : IERC20 L}
    (txs : list (Msg * Call)) :
  forall st st' : State L,
    reachable_after_epoch st ->
    forallb after_epochb txs = true ->
    Forall (fun tx => well_typed tx.1 tx.2) txs ->
    run_all txs st = Ok st' ->
    reachable_after_epoch st'.
Proof.
  induction txs as [|[m c] txs IH]; simpl; intros st st' Hreach Hpos Hwt H.
  - by injection H as <-.
  - apply bind_Ok in H as (st1 & H1 & H).
    apply Forall_cons in Hwt as [Hwt1 Hwt].
    apply andb_true_iff in Hpos as [Hpos1 Hpos].
    eapply IH; [|exact Hpos|exact Hwt|exact H].
    eapply after_epoch_step; [exact Hreach| |exact Hwt1|exact H1].
    by apply Z.ltb_lt.
Qed.

(** The scenarios are sequences of well-typed transactions at positive
    block times, so the states they end in are reachable. *)
Lemma scenario_reachable_after_epoch (txs : list (Msg * Call)) (st : State Ledger) :
  forallb after_epochb txs = true ->
  forallb well_typedb txs = true ->
  run_all txs genesis = Ok st ->
  reachable_after_epoch st.
Proof.
  intros Hpos Hwt Hrun.
  apply (run_all_reachable_after_epoch txs genesis st);
    [apply after_epoch_init | exact Hpos | by apply well_typedb_sound | exact Hrun].
Qed.

Lemma ledger_holdings_transferFrom (from : address) (amt : Z) (tok tok' : Ledger) :
  transferFrom from amt tok = Some tok' -> held tok' = held tok + amt.
Proof.
  simpl. unfold ledger_transferFrom. destruct (_ && _); [|done]. by intros [= <-].
Qed.

Lemma ledger_holdings_transfer (to : address) (amt : Z) (tok tok' : Ledger) :
  transfer to amt tok = Some tok' -> held tok' = held tok - amt.
Proof.
  simpl. unfold ledger_transfer. destruct (_ && _); [|done]. by intros [= <-].
Qed.

Lemma provider_pools_accounted_witness :
  let st := result_state (run_all (scenario_queue ++ top_up_20) genesis) in
  reachable st /\
  totalProviderPools st = sum_pools (providers st).
Proof.
  intros st.
  assert (reachable st) as Hreach.
  { apply (run_all_reachable (scenario_queue ++ top_up_20) genesis st);
      [apply reachable_init | apply well_typedb_sound; vm_compute; reflexivity
      | vm_compute; reflexivity]. }
  exact (conj Hreach (provider_pools_accounted st Hreach)).
Defined.

Lemma deferred_books_consistent_witness :
  let st := result_state (run_all scenario_partial genesis) in
  reachable_after_epoch st /\
  amount (pendingCompensations st !!! 2) = pendingAmount (claims st !!! 2) /\
  totalPendingCompensations st = sum_amounts (pendingCompensations st).
Proof.
  intros st.
  assert (reachable_after_epoch st) as Hreach.
  { apply (scenario_reachable_after_epoch scenario_partial st); vm_compute; reflexivity. }
  destruct (deferred_books_consistent st Hreach) as (Hentry & _ & Htotal).
  exact (conj Hreach (conj (Hentry 2) Htotal)).
Defined.

Lemma queue_entries_are_owed_witness :
  let st := result_state (run_all scenario_queue genesis) in
  reachable_after_epoch st /\
  NoDup (providerPendingCompensations st !!! provider_account) /\
  forall cid,
    cid ∈ providerPendingCompensations st !!! provider_account ->
    provider (claims st !!! cid) = provider_account /\
    0 < initiatedAt (claims st !!! cid) /\
    0 < pendingAmount (claims st !!! cid) /\
    isPaid (pendingCompensations st !!! cid) = false.
Proof.
  intros st.
  assert (reachable_after_epoch st) as Hreach.
  { apply (scenario_reachable_after_epoch scenario_queue st); vm_compute; reflexivity. }
  exact (conj Hreach (queue_entries_are_owed st Hreach provider_account)).
Defined.

Lemma books_backed_by_tokens_witness :
  let st := result_state (run_all (scenario_executed ++ top_up_20) genesis) in
  booked st <= held (usdcToken st) - 0 <= booked st + 4.
Proof.
  intros st.
  apply (books_backed_by_tokens held ledger_holdings_transferFrom ledger_holdings_transfer
           (mkLedger 0 {[provider_account := 1000000000]}) deployer
           (scenario_executed ++ top_up_20) st).
  - apply well_typedb_sound. vm_compute. reflexivity.
  - vm_compute. reflexivity.
Defined.

Lemma closed_claim_stays_closed_witness :
  let st := result_state (run_all scenario_executed genesis) in
  let st' := result_state (run_all top_up_20 st) in
  run_all top_up_20 st = Ok st' /\
  status (claims st !!! 1) = EXECUTED /\
  status (claims st' !!! 1) = status (claims st !!! 1).
Proof.
  intros st st'.
  assert (run_all top_up_20 st = Ok st') as Hrun by (vm_compute; reflexivity).
  refine (conj Hrun (conj _ (closed_claim_stays_closed top_up_20 st st' 1 Hrun _ _))).
  - vm_compute. reflexivity.
  - vm_compute. reflexivity.
  - vm_compute. reflexivity.
Defined.

Lemma claim_record_history_witness :
  let st := result_state (run_all scenario_queue genesis) in
  let st' := result_state (run_all top_up_20 st) in
  let c := claims st !!! 2 in
  let c' := claims st' !!! 2 in
  run_all top_up_20 st = Ok st' /\
  client c' = client c /\ provider c' = provider c /\
  requestedAmount c' = requestedAmount c /\
  initiatedAt c' = initiatedAt c /\ disputeDeadline c' = disputeDeadline c /\
  reason c' = reason c /\
  paidAmount c <= paidAmount c' /\ pendingAmount c' <= pendingAmount c.
Proof.
  intros st st'.
  assert (run_all top_up_20 st = Ok st') as Hrun by (vm_compute; reflexivity).
  refine (conj Hrun (claim_record_history top_up_20 st st' 2 Hrun _)).
  vm_compute. reflexivity.
Defined.

Lemma commitment_used_once_witness :
  let st := result_state (run_all register_10 genesis) in
  let m := mkMsg client_account 1001 in
  let st1 := result_state (initiateClaim m 1 provider_account 4000000 NOT_DELIVERED st) in
  let st2 := result_state (run_all top_up_20 st1) in
  initiateClaim m 1 provider_account 4000000 NOT_DELIVERED st = Ok st1 /\
  run_all top_up_20 st1 = Ok st2 /\
  initiateClaim (mkMsg client_account 3000) 1 provider_account 5000000 SERVICE_TIMEOUT st2
    = Revert (Require_failed "Claim already exists").
Proof.
  intros st m st1 st2.
  assert (initiateClaim m 1 provider_account 4000000 NOT_DELIVERED st = Ok st1) as Hinit
    by (vm_compute; reflexivity).
  assert (run_all top_up_20 st1 = Ok st2) as Hrun by (vm_compute; reflexivity).
  refine (conj Hinit (conj Hrun
    (commitment_used_once m 1 provider_account 4000000 NOT_DELIVERED top_up_20 st st1 st2
       _ Hinit Hrun (mkMsg client_account 3000) provider_account 5000000 SERVICE_TIMEOUT _))).
  - vm_compute. reflexivity.
  - vm_compute. apply conj; discriminate.
Defined.

Lemma disputed_claim_never_executed_witness :
  let st := result_state
              (run_all (register_10 ++
                 [(mkMsg client_account 1001,
                   InitiateClaim 1 provider_account 4000000 NOT_DELIVERED)]) genesis) in
  let m := mkMsg provider_account 1002 in
  let st1 := result_state (disputeClaim m 1 "delivered" st) in
  let st2 := result_state (run_all top_up_20 st1) in
  disputeClaim m 1 "delivered" st = Ok st1 /\
  run_all top_up_20 st1 = Ok st2 /\
  executeClaim (mkMsg client_account 3000) 1 st2
    = Revert (Require_failed "Invalid claim status").
Proof.
  intros st m st1 st2.
  assert (disputeClaim m 1 "delivered" st = Ok st1) as Hdisp by (vm_compute; reflexivity).
  assert (run_all top_up_20 st1 = Ok st2) as Hrun by (vm_compute; reflexivity).
  exact (conj Hdisp (conj Hrun
    (disputed_claim_never_executed m 1 "delivered" top_up_20 st st1 st2 Hdisp Hrun
       (mkMsg client_account 3000)))).
Defined.

Lemma executed_claim_is_final_witness :
  let st := result_state
              (run_all (register_10 ++
                 [(mkMsg client_account 1001,
                   InitiateClaim 1 provider_account 4000000 NOT_DELIVERED)]) genesis) in
  let m := mkMsg client_account 1100 in
  let st1 := result_state (executeClaim m 1 st) in
  let st2 := result_state (run_all top_up_20 st1) in
  executeClaim m 1 st = Ok st1 /\
  run_all top_up_20 st1 = Ok st2 /\
  executeClaim (mkMsg client_account 3000) 1 st2
    = Revert (Require_failed "Invalid claim status") /\
  disputeClaim (mkMsg provider_account 3001) 1 "delivered" st2
    = Revert (Require_failed "Cannot dispute").
Proof.
  intros st m st1 st2.
  assert (executeClaim m 1 st = Ok st1) as Hexec by (vm_compute; reflexivity).
  assert (run_all top_up_20 st1 = Ok st2) as Hrun by (vm_compute; reflexivity).
  assert (pendingAmount (claims st !!! 1) = 0) as Hpending by (vm_compute; reflexivity).
  destruct (executed_claim_is_final m 1 top_up_20 st st1 st2 Hexec Hpending Hrun)
    as [Hagain Hdispute].
  refine (conj Hexec (conj Hrun (conj (Hagain (mkMsg client_account 3000))
            (Hdispute (mkMsg provider_account 3001) "delivered" _)))).
  vm_compute. reflexivity.
Defined.


Lemma other_providers_protected_witness :
  let st := result_state (run_all register_10 genesis) in
  let m := mkMsg client_account 1001 in
  let c := InitiateClaim 1 provider_account 4000000 NOT_DELIVERED in
  let st' := result_state (run m c st) in
  let p := providers st !!! provider_account in
  let p' := providers st' !!! provider_account in
  run m c st = Ok st' /\
  isActive p' = isActive p /\ tier p' = tier p /\ registeredAt p' = registeredAt p /\
  poolBalance p' <= poolBalance p /\
  (poolBalance p' < poolBalance p ->
     exists cid, c = ExecuteClaim cid /\ provider (claims st !!! cid) = provider_account).
Proof.
  intros st m c st'.
  assert (run m c st = Ok st') as Hrun by (vm_compute; reflexivity).
  refine (conj Hrun (other_providers_protected m c st st' provider_account Hrun _)).
  vm_compute. discriminate.
Defined.

Lemma provider_history_kept_witness :
  let st := result_state (run_all scenario_executed genesis) in
  let txs := [(mkMsg provider_account 2000, WithdrawAllAndDeactivate);
              (mkMsg provider_account 3000, RegisterOrReactivate 20000000)] in
  let st' := result_state (run_all txs st) in
  let p := providers st !!! provider_account in
  let p' := providers st' !!! provider_account in
  run_all txs st = Ok st' /\
  successfulServices p = 1 /\
  registeredAt p' = registeredAt p /\ tier p' = tier p /\
  successfulServices p <= successfulServices p' /\
  failedServices p' = failedServices p.
Proof.
  intros st txs st'.
  assert (run_all txs st = Ok st') as Hrun by (vm_compute; reflexivity).
  refine (conj Hrun (conj _ (provider_history_kept txs st st' provider_account Hrun _))).
  - vm_compute. reflexivity.
  - vm_compute. discriminate.
Defined.

Lemma deactivated_provider_is_closed_witness :
  let st := result_state (run_all register_10 genesis) in
  let m := mkMsg provider_account 1001 in
  let st1 := result_state (withdrawAllAndDeactivate m st) in
  withdrawAllAndDeactivate m st = Ok st1 /\
  poolBalance (providers st1 !!! provider_account) = 0 /\
  depositAdditional (mkMsg provider_account 1002) 5000000 st1
    = Revert (Require_failed "Provider not active") /\
  initiateClaim (mkMsg client_account 1003) 1 provider_account 4000000 NOT_DELIVERED st1
    = Revert (Require_failed "Provider not active").
Proof.
  intros st m st1.
  assert (withdrawAllAndDeactivate m st = Ok st1) as Hout by (vm_compute; reflexivity).
  destruct (deactivated_provider_is_closed m st st1 Hout)
    as (Hpool & _ & _ & Hprovider & Hclaim).
  refine (conj Hout (conj Hpool
            (conj (proj1 (Hprovider (mkMsg provider_account 1002) 5000000 _))
                  (Hclaim (mkMsg client_account 1003) 1 4000000 NOT_DELIVERED _ _)))).
  - vm_compute. reflexivity.
  - vm_compute. apply conj; discriminate.
  - vm_compute. reflexivity.
Defined.

Lemma only_owner_funds_witness :
  let m := mkMsg provider_account 1000 in
  let c := RegisterOrReactivate 10000000 in
  let st' := result_state (run m c genesis) in
  run m c genesis = Ok st' /\
  fundEmergencyPool m 5000000 genesis = Revert OwnableUnauthorizedAccount /\
  owner st' = owner genesis /\
  emergencyPool st' = emergencyPool genesis.
Proof.
  intros m c st'.
  assert (run m c genesis = Ok st') as Hrun by (vm_compute; reflexivity).
  assert (msg_sender m <> owner genesis) as Hne by (vm_compute; discriminate).
  destruct (only_owner_funds m c genesis Hne) as [Hfund Hother].
  destruct (Hother st' Hrun) as [Howner Hfunds].
  refine (conj Hrun (conj (proj1 (Hfund 5000000)) (conj Howner (proj1 (Hfunds _))))).
  intros cid. discriminate.
Defined.

Lemma pending_view_matches_distributor_witness :
  let st := result_state (run_all scenario_queue genesis) in
  reachable_after_epoch st /\
  getProviderPendingCompensations provider_account st
    = Ok ([2; 3; 4], [4000000; 6000000; 2000000], 12000000) /\
  12000000 <= totalPendingCompensations st.
Proof.
  intros st.
  assert (reachable_after_epoch st) as Hreach.
  { apply (scenario_reachable_after_epoch scenario_queue st); vm_compute; reflexivity. }
  destruct (pending_view_matches_distributor provider_account st) as [_ Hview].
  destruct (Hview Hreach) as [Hreturns Hle].
  refine (conj Hreach (conj _ _)).
  - etransitivity; [exact Hreturns | vm_compute; reflexivity].
  - etransitivity; [|exact Hle]. vm_compute. discriminate.
Defined.

Lemma canAcceptService_predicts_schedule_witness :
  let st := result_state (run_all register_10 genesis) in
  let m := mkMsg client_account 1001 in
  let st' := result_state (initiateClaim m 1 provider_account 4000000 NOT_DELIVERED st) in
  canAcceptService provider_account 4000000 st = Ok (true, "OK") /\
  initiateClaim m 1 provider_account 4000000 NOT_DELIVERED st = Ok st' /\
  paidAmount (claims st' !!! 1) = 4000000 /\
  pendingAmount (claims st' !!! 1) = 0 /\
  status (claims st' !!! 1) = INITIATED.
Proof.
  intros st m st'.
  assert (canAcceptService provider_account 4000000 st = Ok (true, "OK")) as Hview
    by (vm_compute; reflexivity).
  assert (initiateClaim m 1 provider_account 4000000 NOT_DELIVERED st = Ok st') as Hinit
    by (vm_compute; reflexivity).
  assert (0 <= emergencyPool st) as HE by (vm_compute; discriminate).
  assert (0 <= platformInsuranceFund st) as HF by (vm_compute; discriminate).
  destruct (canAcceptService_predicts_schedule provider_account 4000000 st true "OK"
              HE HF Hview) as [_ Hschedule].
  destruct (Hschedule m 1 NOT_DELIVERED st' Hinit) as (_ & Hfull & _).
  exact (conj Hview (conj Hinit (Hfull (or_introl eq_refl)))).
Defined.

Lemma distribution_dust_bound_witness :
  let st := deposited provider_account 50000 (result_state (run_all scenario_dust genesis)) in
  let st' := result_state (_processProportionalCompensations provider_account st) in
  let paid := poolBalance (providers st !!! provider_account)
              - poolBalance (providers st' !!! provider_account) in
  _processProportionalCompensations provider_account st = Ok st' /\
  providerPendingCompensations st !!! provider_account = [1; 2; 3; 4] /\
  available_of (providers st !!! provider_account) = 50000 /\
  50000 - 4 < paid <= 50000.
Proof.
  intros st st' paid.
  assert (_processProportionalCompensations provider_account st = Ok st') as Hrun
    by (vm_compute; reflexivity).
  assert (providerPendingCompensations st !!! provider_account = [1; 2; 3; 4]) as Hqueue
    by (vm_compute; reflexivity).
  assert (available_of (providers st !!! provider_account) = 50000) as HA
    by (vm_compute; reflexivity).
  assert (NoDup (providerPendingCompensations st !!! provider_account)) as Hnd
    by (apply (bool_decide_unpack _); vm_compute; exact I).
  assert (0 < available_of (providers st !!! provider_account)
            < total_owed (pendingCompensations st)
                (providerPendingCompensations st !!! provider_account)) as HAT
    by (apply conj; vm_compute; reflexivity).
  pose proof (distribution_dust_bound provider_account st st' Hnd HAT Hrun) as [Hlow Hup].
  refine (conj Hrun (conj Hqueue (conj HA (conj _ _)))).
  - eapply Z.le_lt_trans; [|exact Hlow]. vm_compute. discriminate.
  - etransitivity; [exact Hup|]. vm_compute. discriminate.
Defined.

Lemma top_up_settles_deferred_claims_witness :
  let st := result_state (run_all scenario_queue genesis) in
  let m := mkMsg provider_account 1005 in
  let st' := result_state (depositAdditional m 12000000 st) in
  run m (DepositAdditional 12000000) st = Ok st' /\
  providerPendingCompensations st !!! provider_account = [2; 3; 4] /\
  providerPendingCompensations st' !!! provider_account = [] /\
  poolBalance (providers st' !!! provider_account) = 10000000 /\
  pendingAmount (claims st' !!! 3) = 0 /\
  paidAmount (claims st' !!! 3) = 6000000.
Proof.
  intros st m st'.
  assert (run m (DepositAdditional 12000000) st = Ok st') as Hrun
    by (vm_compute; reflexivity).
  assert (providerPendingCompensations st !!! provider_account = [2; 3; 4]) as Hqueue
    by (vm_compute; reflexivity).
  assert (reachable_after_epoch st) as Hreach.
  { apply (scenario_reachable_after_epoch scenario_queue st); vm_compute; reflexivity. }
  destruct (top_up_settles_deferred_claims m (DepositAdditional 12000000) 12000000 st st'
              Hreach (or_introl eq_refl) Hrun) as (Hempty & Hpool & Hpaid).
  { apply conj; [vm_compute; reflexivity | vm_compute; discriminate]. }
  destruct (Hpaid 3) as (Hpending & Hfull & _).
  { apply (bool_decide_unpack _). vm_compute. exact I. }
  refine (conj Hrun (conj Hqueue (conj Hempty (conj _ (conj Hpending _))))).
  - etransitivity; [exact Hpool | vm_compute; reflexivity].
  - etransitivity; [exact Hfull | vm_compute; reflexivity].
Defined.

Lemma registerOrReactivate_ignores_pool_ceiling_witness :
  let st := result_state (run_all register_max genesis_rich) in
  let m := mkMsg provider_account 1001 in
  let st' := result_state (registerOrReactivate m 10000000 st) in
  registerOrReactivate m 10000000 st = Ok st' /\
  poolBalance (providers st' !!! provider_account) = MAX_POOL_BALANCE + 10000000 /\
  depositAdditional m 10000000 st = Revert (Require_failed "Exceeds maximum").
Proof.
  intros st m st'.
  destruct (registerOrReactivate_ignores_pool_ceiling m 10000000
              (result_ledger (ledger_transferFrom provider_account 10000000 (usdcToken st)))
              st) as [Hregister Hdeposit].
  - apply conj; vm_compute; discriminate.
  - vm_compute. discriminate.
  - vm_compute. reflexivity.
  - vm_compute. reflexivity.
  - vm_compute. discriminate.
  - vm_compute. discriminate.
  - refine (conj _ (conj _ (Hdeposit _ _))).
    + etransitivity; [exact Hregister | vm_compute; reflexivity].
    + vm_compute. reflexivity.
    + vm_compute. reflexivity.
    + vm_compute. reflexivity.
Defined.

Lemma dispute_keeps_deferred_compensation_witness :
  let st := result_state
              (run_all (register_10 ++
                 [(mkMsg client_account 1001,
                   InitiateClaim 1 provider_account 10000000 NOT_DELIVERED);
                  (mkMsg client_account 1002,
                   InitiateClaim 2 provider_account 4000000 NOT_DELIVERED)]) genesis) in
  let st' := result_state (disputeClaim (mkMsg provider_account 1003) 2 "delivered" st) in
  let st2 := result_state (run_all top_up_20 st') in
  let sp := result_state (run_all scenario_partial genesis) in
  let sp' := result_state (disputeClaim (mkMsg provider_account 1003) 1 "delivered" sp) in
  let sp2 := result_state (_processProportionalCompensations provider_account sp') in
  (disputeClaim (mkMsg provider_account 1003) 2 "delivered" st = Ok st' /\
   status (claims st' !!! 2) = DISPUTED /\
   pendingCompensations st' = pendingCompensations st /\
   providerPendingCompensations st' = providerPendingCompensations st /\
   available_of (providers st !!! provider_account)
     <= available_of (providers st' !!! provider_account) /\
   run_all top_up_20 st' = Ok st2 /\
   paidAmount (claims st2 !!! 2) = 4000000) /\
  (disputeClaim (mkMsg provider_account 1003) 1 "delivered" sp = Ok sp' /\
   status (claims sp' !!! 1) = DISPUTED /\
   pendingCompensations sp' = pendingCompensations sp /\
   providerPendingCompensations sp' !!! provider_account = [2] /\
   available_of (providers sp !!! provider_account) = 0 /\
   available_of (providers sp' !!! provider_account) = 9990000 /\
   share 0 990000 (pendingCompensations sp !!! 2)
     <= share 9990000 990000 (pendingCompensations sp' !!! 2) /\
   _processProportionalCompensations provider_account sp = Ok sp /\
   schedule_of sp 2 = (10000, 990000, PARTIAL) /\
   _processProportionalCompensations provider_account sp' = Ok sp2 /\
   schedule_of sp2 2 = (1000000, 0, PARTIAL)).
Proof.
  intros st st' st2 sp sp' sp2.
  assert (disputeClaim (mkMsg provider_account 1003) 2 "delivered" st = Ok st') as Hdisp
    by (vm_compute; reflexivity).
  assert (disputeClaim (mkMsg provider_account 1003) 1 "delivered" sp = Ok sp') as Hdisp1
    by (vm_compute; reflexivity).
  assert (0 <= totalLocked (providers st !!! provider_account)) as Hlock
    by (vm_compute; discriminate).
  assert (0 <= totalLocked (providers sp !!! provider_account)) as Hlock1
    by (vm_compute; discriminate).
  destruct (dispute_keeps_deferred_compensation _ _ _ _ _ Hdisp Hlock)
    as (Hstatus & _ & Hentries & Hqueues & _ & Hfunds).
  destruct (Hfunds provider_account) as (_ & _ & Hgrow & _).
  destruct (dispute_keeps_deferred_compensation _ _ _ _ _ Hdisp1 Hlock1)
    as (Hstatus1 & _ & Hentries1 & _ & _ & Hfunds1).
  destruct (Hfunds1 provider_account) as (_ & _ & _ & _ & Hshare).
  split.
  - refine (conj Hdisp (conj Hstatus (conj Hentries (conj Hqueues (conj Hgrow (conj _ _)))))).
    + vm_compute. reflexivity.
    + vm_compute. reflexivity.
  - refine (conj Hdisp1 (conj Hstatus1 (conj Hentries1
             (conj _ (conj _ (conj _ (conj _ (conj _ (conj _ (conj _ _)))))))))).
    + vm_compute. reflexivity.
    + vm_compute. reflexivity.
    + vm_compute. reflexivity.
    + assert (available_of (providers sp !!! provider_account) = 0) as HA
        by (vm_compute; reflexivity).
      assert (available_of (providers sp' !!! provider_account) = 9990000) as HA'
        by (vm_compute; reflexivity).
      assert (total_owed (pendingCompensations sp)
                (providerPendingCompensations sp !!! provider_account) = 990000) as HT
        by (vm_compute; reflexivity).
      pose proof (Hshare 2) as H2. rewrite HA, HA', HT in H2. exact H2.
    + vm_compute. reflexivity.
    + vm_compute. reflexivity.
    + vm_compute. reflexivity.
    + vm_compute. reflexivity.
Defined.

(** ** Instances on the payment contract *)

Example uint2str_example : Payment.uint2str 1700000000 = Ok "1700000000"%string.
Proof. vm_compute. reflexivity. Qed.

Lemma toHexString_hex_witness :
  Payment.toHexString 48879
    = "000000000000000000000000000000000000000000000000000000000000beef"%string /\
  Payment.hex_value (String.list_ascii_of_string (Payment.toHexString 48879)) = 48879.
Proof.
  assert (0 <= 48879 < 2 ^ 256) as Hrange by (apply conj; [discriminate | reflexivity]).
  destruct (toHexString_hex 48879 Hrange) as (_ & _ & Hvalue).
  refine (conj _ Hvalue). vm_compute. reflexivity.
Defined.

Lemma delivered_order_is_final_witness :
  let s := payment_result (Payment.run_all payment_orders (Payment.initial (mkMsg deployer 1))) in
  let txs := [(mkMsg deployer 2000, Payment.BatchDeliverOrders [7; 8])] in
  let s' := payment_result (Payment.run_all txs s) in
  Payment.run_all txs s = Ok s' /\
  Payment.deliveredAt (Payment.orders s !!! 7) = 1000 /\
  Payment.deliveredAt (Payment.orders s' !!! 8) = 2000 /\
  Payment.orders s' !!! 7 = Payment.orders s !!! 7.
Proof.
  intros s txs s'.
  assert (Payment.run_all txs s = Ok s') as Hrun by (vm_compute; reflexivity).
  assert (Payment.client (Payment.orders s !!! 7) <> 0) as Hex by (vm_compute; discriminate).
  destruct (delivered_order_is_final txs s s' 7 Hrun Hex) as (_ & _ & _ & _ & Hkeep).
  refine (conj Hrun (conj _ (conj _ (Hkeep _)))); vm_compute; reflexivity.
Defined.

Lemma batchDeliverOrders_as_deliverOrder_witness :
  let s := payment_result (Payment.run_all payment_orders (Payment.initial (mkMsg deployer 1))) in
  let m := mkMsg deployer 2000 in
  Payment.batchDeliverOrders m [7; 8; 9] s =
    Ok (payment_result (Payment.deliverOrder m 8 s)) /\
  Payment.batchDeliverOrders (mkMsg client_account 2000) [7; 8; 9] s
    = Revert (Require_failed "Only owner").
Proof.
  intros s m.
  destruct (batchDeliverOrders_as_deliverOrder m [7; 8; 9] s) as [Hown _].
  destruct (batchDeliverOrders_as_deliverOrder (mkMsg client_account 2000) [7; 8; 9] s)
    as [_ Hother].
  refine (conj _ (Hother _)).
  - etransitivity; [apply Hown; vm_compute; reflexivity | vm_compute; reflexivity].
  - vm_compute. discriminate.
Defined.

Lemma order_list_names_orders_witness :
  let s := payment_result (Payment.run_all payment_orders (Payment.initial (mkMsg deployer 1))) in
  NoDup (Payment.orderList s) /\
  (8 ∈ Payment.orderList s <-> Payment.client (Payment.orders s !!! 8) <> 0) /\
  exists s1 s2,
    Payment.createOrder (mkMsg deployer 2000) 9 0 1000000 s = Ok s1 /\
    Payment.createOrder (mkMsg deployer 2001) 9 0 2000000 s1 = Ok s2 /\
    Payment.orderList s2 = [7; 8; 9; 9].
Proof.
  intros s. destruct order_list_names_orders as [Hlisted Hzero].
  destruct (Hlisted payment_orders (mkMsg deployer 1) s) as [Hnd Hin].
  - intros m o cl a Hm.
    apply elem_of_cons in Hm as [[= _ _ -> _]|Hm]; [vm_compute; discriminate|].
    apply elem_of_cons in Hm as [[= _ _ -> _]|Hm]; [vm_compute; discriminate|].
    apply elem_of_cons in Hm as [Hm|Hm]; [discriminate Hm|].
    apply elem_of_nil in Hm. destruct Hm.
  - vm_compute. reflexivity.
  - refine (conj Hnd (conj (Hin 8) _)).
    set (s1 := payment_result (Payment.createOrder (mkMsg deployer 2000) 9 0 1000000 s)).
    set (s2 := payment_result (Payment.createOrder (mkMsg deployer 2001) 9 0 2000000 s1)).
    exists s1, s2. repeat apply conj; vm_compute; reflexivity.
Defined.

Lemma handleClaim_disputes_delivered_witness :
  let ins := result_state (run_all scenario_orders_claimed genesis) in
  let m := mkMsg deployer 1003 in
  let r := result_pair (Payment.handleClaim provider_account m 1 7 payment_book ins) in
  Payment.handleClaim provider_account m 1 7 payment_book ins = Ok r /\
  Payment.handleClaim provider_account m 2 8 payment_book ins = Ok (payment_book, ins) /\
  r.1 = payment_book /\
  status (claims r.2 !!! 1) = DISPUTED /\
  executeClaim (mkMsg client_account 5000) 1 r.2
    = Revert (Require_failed "Invalid claim status").
Proof.
  intros ins m r.
  assert (Payment.handleClaim provider_account m 1 7 payment_book ins = Ok r) as Hrun
    by (vm_compute; reflexivity).
  assert (msg_sender m = Payment.owner payment_book) as Hown by (vm_compute; reflexivity).
  assert (Payment.insuranceEnabled payment_book = true) as Hon by (vm_compute; reflexivity).
  destruct (handleClaim_disputes_delivered provider_account m 1 7 payment_book ins Hown Hon)
    as [_ Hdelivered]; [vm_compute; discriminate|].
  destruct (handleClaim_disputes_delivered provider_account m 2 8 payment_book ins Hown Hon)
    as [Hskipped _]; [vm_compute; discriminate|].
  destruct Hdelivered as (evidence & _ & Hafter); [vm_compute; reflexivity|].
  destruct (Hafter r.1 r.2) as (Hbook & _ & _ & Hstatus & Hfinal).
  { etransitivity; [exact Hrun|]. by destruct r. }
  refine (conj Hrun (conj (Hskipped _) (conj Hbook (conj Hstatus
            (Hfinal [] r.2 (mkMsg client_account 5000) eq_refl))))).
  vm_compute. reflexivity.
Defined.

Lemma batchHandleClaims_disputes_delivered_witness :
  let ins := result_state (run_all scenario_orders_claimed genesis) in
  let m := mkMsg deployer 1003 in
  let r := result_pair
             (Payment.batchHandleClaims provider_account m [(1, 7); (2, 8)] payment_book ins) in
  Payment.batchHandleClaims provider_account m [(1, 7); (2, 8)] payment_book ins = Ok r /\
  status (claims r.2 !!! 1) = DISPUTED /\
  status (claims r.2 !!! 2) = PARTIAL.
Proof.
  intros ins m r.
  assert (Payment.batchHandleClaims provider_account m [(1, 7); (2, 8)] payment_book ins
          = Ok (r.1, r.2)) as Hrun by (vm_compute; reflexivity).
  destruct (batchHandleClaims_disputes_delivered _ _ _ _ _ _ _ Hrun) as (_ & _ & Hdisputed & _).
  destruct (Hdisputed 1 7) as [Hstatus _].
  - apply list_elem_of_here.
  - vm_compute. discriminate.
  - vm_compute. reflexivity.
  - refine (conj _ (conj Hstatus _)).
    + etransitivity; [exact Hrun|]. by destruct r.
    + vm_compute. reflexivity.
Defined.

Lemma recorded_disputes_are_disputed_witness :
  let ins := result_state (run_all scenario_orders_claimed genesis) in
  let s := SimpleProvider.initial (mkMsg deployer 1) in
  let m := mkMsg deployer 1003 in
  let r := provider_result
             (SimpleProvider.run provider_account m
                (SimpleProvider.DisputeClaim 1 "delivered") s ins) in
  SimpleProvider.reachable provider_account r.1 r.2 /\
  SimpleProvider.disputed r.1 1 = true /\
  status (claims r.2 !!! 1) = DISPUTED /\
  provider (claims r.2 !!! 1) = provider_account.
Proof.
  intros ins s m r.
  assert (SimpleProvider.reachable provider_account r.1 r.2) as Hreach.
  { apply (SimpleProvider.reachable_run provider_account s ins m
             (SimpleProvider.DisputeClaim 1 "delivered") r.1 r.2).
    - apply SimpleProvider.reachable_deployed.
    - vm_compute. reflexivity. }
  destruct (recorded_disputes_are_disputed provider_account r.1 r.2 Hreach 1)
    as (_ & Hstatus & Hprovider).
  - vm_compute. reflexivity.
  - refine (conj Hreach (conj _ (conj Hstatus Hprovider))). vm_compute. reflexivity.
Defined.
